(** * reinter: regular-expression intersection through DFA products

    A shallow embedding of the Go packages [dfa] (subset construction) and
    [intersection] (depth-first search over the product automaton), with
    the theorems that relate them to their specification.

    Conventions of the embedding.
    - A Go [rune] (int32) is a [Z]; the code only compares runes, so no
      wrap-around arithmetic is involved.
    - A Go pointer is a location ([nat]) into a finite arena ([gmap]);
      dereferencing a location outside the arena is a nil-pointer panic.
    - Every Go function that may panic, exit the process or loop is a
      function into [res]; loops that are not structurally recursive take
      a [fuel] argument and the theorems show that enough fuel exists.
    - Ranging over a Go map visits the keys in an order chosen by the
      runtime; the order is an explicit parameter ([GoRuntime]). *)

From Stdlib Require Import ZArith Lia Ascii String.
From stdpp Require Import base option list sorting gmap strings pretty relations.

Open Scope Z_scope.

(** ** Outcomes of a Go call *)

Inductive res (A : Type) : Type :=
  | Done (a : A)      (* the call returns [a] *)
  | Panic             (* run-time panic: nil dereference, index out of range *)
  | Exit              (* [log.Fatal]: the process exits *)
  | OutOfFuel.        (* the model ran out of fuel; says nothing about the code *)
Arguments Done {A} a.
Arguments Panic {A}.
Arguments Exit {A}.
Arguments OutOfFuel {A}.

#[global] Instance res_ret : MRet res := λ A a, Done a.
#[global] Instance res_bind : MBind res := λ A B f m,
  match m with
  | Done a => f a
  | Panic => Panic
  | Exit => Exit
  | OutOfFuel => OutOfFuel
  end.

(** The call modelled by [run] ends in the outcome [r]: every run with
    enough fuel does. *)
Definition ends_in {A} (run : nat → res A) (r : res A) : Prop :=
  ∃ fuel0 : nat, ∀ fuel : nat, (fuel0 ≤ fuel)%nat → run fuel = r.

(** The call returns [a]. *)
Definition returns {A} (run : nat → res A) (a : A) : Prop := ends_in run (Done a).

(** [*p] for a pointer [p] into the arena [h]. *)
Definition deref {A} (h : gmap nat A) (p : nat) : res A :=
  match h !! p with
  | Some a => Done a
  | None => Panic
  end.

Abbreviation rune := Z.

(** ** The Go runtime and standard library *)

(** [for k := range m] yields the keys of a map in an order the runtime
    picks anew for every loop; [map_range k] is the order picked for the
    [k]-th such loop of a run.  [sort.Slice] is specified by its contract:
    it permutes the slice, and the result is ordered whenever the [less]
    function compares a key. *)
Class GoRuntime : Type := {
  map_range : nat → ∀ A : Type, list A → list A;
  map_range_perm : ∀ k A (l : list A), map_range k A l ≡ₚ l;
  sort_Slice : ∀ A : Type, (A → A → bool) → list A → list A;
  sort_Slice_perm : ∀ A (less : A → A → bool) l, sort_Slice A less l ≡ₚ l;
  sort_Slice_sorted : ∀ A (less : A → A → bool) (key : A → Z) l,
    (∀ x y, x ∈ l → y ∈ l → less x y = bool_decide (key x < key y)) →
    Sorted (λ x y, key x ≤ key y) (sort_Slice A less l)
}.
Arguments map_range {_} k {A} l.
Arguments sort_Slice {_} {A} less l.

(** [sort.Ints]: the ascending arrangement of a list of integers. *)
Definition sort_Ints (a : list Z) : list Z := merge_sort Z.le a.

(** The insertion sort that [sort.Slice] runs on short slices:
    [for i := 1; i < n; i++ { for j := i; j > 0 && less(j, j-1); j-- { swap } }]. *)
Fixpoint insert_back {A} (less : A → A → bool) (x : A) (rprefix : list A) : list A :=
  match rprefix with
  | [] => [x]
  | y :: rest => if less x y then y :: insert_back less x rest else x :: y :: rest
  end.

Definition insertion_sort {A} (less : A → A → bool) (l : list A) : list A :=
  reverse (foldl (λ rprefix x, insert_back less x rprefix) [] l).

(** ** Package runerange *)

Module runerange.

(** A range list is a flat sequence of boundaries [lo0; hi0; lo1; hi1; ...],
    each pair an inclusive range. *)
Fixpoint pairs (l : list rune) : list (rune * rune) :=
  match l with
  | lo :: hi :: l' => (lo, hi) :: pairs l'
  | _ => []
  end.

Definition flat (ps : list (rune * rune)) : list rune :=
  ps ≫= λ p, [p.1; p.2].

(** The character [c] lies in one of the ranges of [l]. *)
Definition covers (l : list rune) (c : rune) : Prop :=
  ∃ lo hi, (lo, hi) ∈ pairs l ∧ lo ≤ c ≤ hi.

Definition coversb (l : list rune) (c : rune) : bool :=
  existsb (λ p, bool_decide (p.1 ≤ c ≤ p.2)) (pairs l).

(** Modelled from the spec: [runerange.Overlaps] is not part of the
    sources at hand.  Spec 4.1: true iff any inclusive range in [a]
    shares at least one character with any inclusive range in [b]. *)
Definition Overlaps (a b : list rune) : bool :=
  existsb (λ p, existsb (λ q, bool_decide (Z.max p.1 q.1 ≤ Z.min p.2 q.2)) (pairs b))
          (pairs a).

(** Modelled from the spec: [runerange.Contains] is not part of the
    sources at hand.  Spec 4.2 step 4: a range-containment predicate
    for a single probe range [r = [lo; hi]]: some range of [set]
    contains the probe. *)
Definition Contains (set r : list rune) : bool :=
  match r with
  | lo :: hi :: _ => existsb (λ p, bool_decide (p.1 ≤ lo ∧ hi ≤ p.2)) (pairs set)
  | _ => false
  end.

(** Consecutive cut points [p < q] delimit the block [p, q-1]. *)
Fixpoint segments (cuts : list rune) : list (rune * rune) :=
  match cuts with
  | p :: (q :: _) as rest => (p, q - 1) :: segments rest
  | _ => []
  end.

Definition nonempty_pairs (lists : list (list rune)) : list (rune * rune) :=
  filter (λ p, p.1 ≤ p.2) (lists ≫= pairs).

Definition cut_points (lists : list (list rune)) : list rune :=
  merge_sort Z.le (remove_dups (nonempty_pairs lists ≫= λ p, [p.1; p.2 + 1])).

(** Modelled from the spec: [runerange.Split] is not part of the sources
    at hand.  Spec 4.1: the maximal elementary sub-ranges such that every
    original range is exactly a union of them.  Every range starts and
    ends at a cut point; the blocks are the stretches between consecutive
    cut points that lie inside some original range.  The result is flat,
    as the caller slices it two boundaries at a time. *)
Definition Split (lists : list (list rune)) : list rune :=
  flat (filter (λ s, Exists (λ p, p.1 ≤ s.1 ∧ s.2 ≤ p.2) (nonempty_pairs lists))
               (segments (cut_points lists))).

(** Modelled from the spec: [runerange.Sum] is not part of the sources at
    hand.  Spec 4.1: accumulate two disjoint range lists into one disjoint
    range list; the ranges of both lists, merged in ascending order. *)
Fixpoint Sum (a : list rune) : list rune → list rune :=
  fix Sum_b (b : list rune) : list rune :=
    match a, b with
    | [], _ => b
    | _, [] => a
    | lo1 :: hi1 :: a', lo2 :: hi2 :: b' =>
        if bool_decide (lo1 ≤ lo2) then lo1 :: hi1 :: Sum a' b
        else lo2 :: hi2 :: Sum_b b'
    | _, _ => a ++ b
    end.

(** Well-formed range list: ranges non-empty, ascending, disjoint. *)
Fixpoint ascending_from (prev : rune) (l : list rune) : Prop :=
  match l with
  | [] => True
  | lo :: hi :: l' => prev < lo ∧ lo ≤ hi ∧ ascending_from hi l'
  | [_] => False
  end.

Definition sorted_disjoint (l : list rune) : Prop :=
  match l with
  | [] => True
  | lo :: hi :: l' => lo ≤ hi ∧ ascending_from hi l'
  | [_] => False
  end.

Fixpoint ascending_fromb (prev : rune) (l : list rune) : bool :=
  match l with
  | [] => true
  | lo :: hi :: l' =>
      bool_decide (prev < lo) && bool_decide (lo ≤ hi) && ascending_fromb hi l'
  | [_] => false
  end.

Definition sorted_disjointb (l : list rune) : bool :=
  match l with
  | [] => true
  | lo :: hi :: l' => bool_decide (lo ≤ hi) && ascending_fromb hi l'
  | [_] => false
  end.

(** No two consecutive ranges touch: a gap of at least one character
    separates them. *)
Fixpoint separated_from (prev : rune) (l : list rune) : Prop :=
  match l with
  | [] => True
  | lo :: hi :: l' => prev + 1 < lo ∧ lo ≤ hi ∧ separated_from hi l'
  | [_] => False
  end.

Definition separated (l : list rune) : Prop :=
  match l with
  | [] => True
  | lo :: hi :: l' => lo ≤ hi ∧ separated_from hi l'
  | [_] => False
  end.

(** The boundaries come in pairs. *)
Definition paired (l : list rune) : Prop := Nat.even (length l) = true.

(** [l] uses as few ranges as any well-formed list for the same set. *)
Definition minimal (l : list rune) : Prop :=
  ∀ l', sorted_disjoint l' → (∀ c, covers l' c ↔ covers l c) →
        (length l ≤ length l')%nat.

End runerange.

(** ** Package nfa (the input of the subset construction)

    Modelled from the spec: package [nfa] is not part of the sources at
    hand; the node and edge types are the ones [dfa.go] reads: [S] the
    state id, [F] the accepting flag, [T] the outgoing edges, each with
    a range list [R] ([nil] for an epsilon edge) and a target [N]. *)

Module nfa.

Abbreviation ptr := nat.

Record Edge : Type := { R : option (list rune); N : ptr }.

Record Node : Type := { S : Z; F : bool; T : list Edge }.

(** The arena of one compiled expression: every node of the graph, by
    address.  The core only reads it. *)
Abbreviation graph := (gmap ptr Node).

(** The range list of an edge as a slice: [nil] has no boundaries. *)
Definition ranges (t : Edge) : list rune := default [] (R t).

(** The state id identifies the node (spec 3: unique within one NFA). *)
Definition ids_unique (g : graph) : Prop :=
  ∀ x y nx ny, g !! x = Some nx → g !! y = Some ny → S nx = S ny → x = y.

(** An epsilon edge leads from [x] to [y]. *)
Definition eps_step (g : graph) (x y : ptr) : Prop :=
  ∃ node e, g !! x = Some node ∧ e ∈ T node ∧ R e = None ∧ N e = y.

(** [x] reaches an accepting node through epsilon edges alone. *)
Definition reaches_final (g : graph) (x : ptr) : Prop :=
  ∃ y node, rtc (eps_step g) x y ∧ g !! y = Some node ∧ F node = true.

End nfa.

(** ** Package dfa *)

Module dfa.

Abbreviation ptr := nat.

Record T : Type := {
  RuneRanges : list rune;   (* rune ranges *)
  T_Node : ptr              (* node *)
}.

Record Node : Type := {
  State : Z;                (* state *)
  Final : bool;             (* final? *)
  Transitions : list T;     (* transitions *)
  label : string;
  closures : list nfa.ptr
}.

(** The nodes allocated by one build, by address. *)
Abbreviation arena := (gmap ptr Node).

Record context : Type := {
  state : Z;
  nodesByLabel : gmap string ptr;
  closureCache : gmap nfa.ptr (list nfa.ptr)
}.

(** The state one build threads through its calls: the nodes allocated so
    far, the build context, and the number of map iterations started so
    far (which selects the iteration order of the next one). *)
Record world : Type := {
  heap : arena;
  ctx : context;
  tick : nat
}.

Definition set_Transitions (ts : list T) (n : Node) : Node :=
  {| State := State n; Final := Final n; Transitions := ts;
     label := label n; closures := closures n |}.

(** *** Print and the package-level [visited] map *)

(** What one [fmt.Println] of [Print] shows. *)
Inductive line : Type :=
  | NodeLine (lbl : string) (st : Z) (fin : bool) (ts : list T)
  | TransLine (t : T).

(** The loop of [Print] over [n.Transitions]; [Print_node] is the
    recursive call [t.Node.Print()]. *)
Fixpoint Print_transitions
    (Print_node : Node → gset ptr * list line → res (gset ptr * list line))
    (h : arena) (ts : list T) (s : gset ptr * list line)
    : res (gset ptr * list line) :=
  match ts with
  | [] => Done s
  | t :: ts' =>
      let '(visited, out) := s in
      if decide (T_Node t ∈ visited) then Print_transitions Print_node h ts' s
      else
        let visited := {[T_Node t]} ∪ visited in
        let out := out ++ [TransLine t] in
        n' ← deref h (T_Node t);
        s' ← Print_node n' (visited, out);
        Print_transitions Print_node h ts' s'
  end.

(** [func (n Node) Print()].  The state is the package-level variable
    [visited] and the lines written so far. *)
Fixpoint Print (fuel : nat) (h : arena) (n : Node) (s : gset ptr * list line)
    : res (gset ptr * list line) :=
  match fuel with
  | O => OutOfFuel
  | Datatypes.S fuel =>
      let '(visited, out) := s in
      let out := out ++ [NodeLine (label n) (State n) (Final n) (Transitions n)] in
      Print_transitions (Print fuel h) h (Transitions n) (visited, out)
  end.

(** *** NextState *)

(** [func (n Node) NextState(r []rune) *Node]; [None] is [nil]. *)
Fixpoint NextState_loop (ts : list T) (r : list rune) : option ptr :=
  match ts with
  | [] => None
  | t :: ts' =>
      if runerange.Contains (RuneRanges t) r then Some (T_Node t)
      else NextState_loop ts' r
  end.

Definition NextState (n : Node) (r : list rune) : option ptr :=
  NextState_loop (Transitions n) r.

(** No character is covered by two transitions of the list. *)
Fixpoint transitions_disjoint (ts : list T) : bool :=
  match ts with
  | [] => true
  | t :: ts' =>
      forallb (λ t', negb (runerange.Overlaps (RuneRanges t) (RuneRanges t'))) ts'
      && transitions_disjoint ts'
  end.

(** *** Invariants of the automata handed to the search *)

(** Every transition leads to a node of the arena. *)
Definition closed (h : arena) : Prop :=
  map_Forall (λ _ n, Forall (λ t, is_Some (h !! T_Node t)) (Transitions n)) h.

(** The range lists of the transitions are flat lists of pairs. *)
Definition ranges_paired (h : arena) : Prop :=
  map_Forall (λ _ n, Forall (λ t, runerange.paired (RuneRanges t)) (Transitions n)) h.

(** The range lists of the transitions are sorted and disjoint. *)
Definition ranges_sorted (h : arena) : Prop :=
  map_Forall (λ _ n, Forall (λ t, runerange.sorted_disjoint (RuneRanges t))
                            (Transitions n)) h.

(** The state id identifies the node. *)
Definition states_unique (h : arena) : Prop :=
  ∀ p q n m, h !! p = Some n → h !! q = Some m → State n = State m → p = q.

(** No character is covered by two transitions of one node. *)
Definition deterministic (h : arena) : Prop :=
  map_Forall (λ _ n, transitions_disjoint (Transitions n) = true) h.

(** The arena of a DFA as the data model describes it. *)
Record well_formed (h : arena) : Prop := {
  wf_closed : closed h;
  wf_sorted : ranges_sorted h;
  wf_deterministic : deterministic h;
  wf_unique : states_unique h
}.

(** A check of [states_unique] that computes. *)
Definition states_NoDup (h : arena) : Prop :=
  NoDup ((λ pn, State pn.2) <$> map_to_list h).

Definition check_well_formed (h : arena) : bool :=
  bool_decide (closed h)
  && forallb (λ pn, forallb (λ t, runerange.sorted_disjointb (RuneRanges t))
                            (Transitions pn.2)) (map_to_list h)
  && forallb (λ pn, transitions_disjoint (Transitions pn.2)) (map_to_list h)
  && bool_decide (states_NoDup h).

(** *** Epsilon closure *)

(** The loop of [recursiveClosure] over [node.T]. *)
Fixpoint recursiveClosure_edges
    (rec : nfa.ptr → gset nfa.ptr → res (list nfa.ptr * gset nfa.ptr))
    (ts : list nfa.Edge) (cls : list nfa.ptr) (visited : gset nfa.ptr)
    : res (list nfa.ptr * gset nfa.ptr) :=
  match ts with
  | [] => Done (cls, visited)
  | t :: ts' =>
      match nfa.R t with
      | None => (* ε-transition *)
          '(sub, visited) ← rec (nfa.N t) visited;
          recursiveClosure_edges rec ts' (cls ++ sub) visited
      | Some _ => recursiveClosure_edges rec ts' cls visited
      end
  end.

Fixpoint recursiveClosure (fuel : nat) (g : nfa.graph) (node : nfa.ptr)
    (visited : gset nfa.ptr) : res (list nfa.ptr * gset nfa.ptr) :=
  match fuel with
  | O => OutOfFuel
  | Datatypes.S fuel =>
      if decide (node ∈ visited) then Done ([], visited)
      else
        let visited := {[node]} ∪ visited in
        n ← deref g node;
        recursiveClosure_edges (recursiveClosure fuel g) (nfa.T n) [node] visited
  end.

(** The recursion of [recursiveClosure] is never deeper than the number
    of nodes it can still mark. *)
Definition closure_fuel (g : nfa.graph) : nat := Datatypes.S (size g).

(** [closure]; the cache of a build context is never [nil]. *)
Definition closure (g : nfa.graph) (node : nfa.ptr)
    (cache : gmap nfa.ptr (list nfa.ptr))
    : res (list nfa.ptr * gmap nfa.ptr (list nfa.ptr)) :=
  match cache !! node with
  | Some cls => Done (cls, cache)
  | None =>
      '(cls, _) ← recursiveClosure (closure_fuel g) g node ∅;
      Done (cls, <[node := cls]> cache)
  end.

(** *** Labels *)

Definition intsToStrings (a : list Z) : list string := pretty <$> a.

(** [strings.Join(a, sep)] *)
Fixpoint strings_Join (a : list string) (sep : string) : string :=
  match a with
  | [] => ""
  | [s] => s
  | s :: a' => s +:+ sep +:+ strings_Join a' sep
  end.

Definition makeLabel (a : list Z) : string :=
  strings_Join (intsToStrings a) ",".

(** The [S] of every node of [cls], in order. *)
Fixpoint states_of (g : nfa.graph) (cls : list nfa.ptr) : res (list Z) :=
  match cls with
  | [] => Done []
  | n :: cls' =>
      node ← deref g n;
      rest ← states_of g cls';
      Done (nfa.S node :: rest)
  end.

(** [labelFromClosure]: the keys of the set [m] are sorted before they
    are joined, so the order in which the map yields them is immaterial
    and [elements] stands for it. *)
Definition labelFromClosure (g : nfa.graph) (cls : list nfa.ptr) : res string :=
  ss ← states_of g cls;
  let m : gset Z := list_to_set ss in
  let states := elements m in
  Done (makeLabel (sort_Ints states)).

(** *** Final states *)

(** The loop of [canReachFinal] over [node.T], left as soon as a call
    returns [true]. *)
Fixpoint canReachFinal_edges
    (rec : nfa.ptr → gset nfa.ptr → res (bool * gset nfa.ptr))
    (ts : list nfa.Edge) (visited : gset nfa.ptr) : res (bool * gset nfa.ptr) :=
  match ts with
  | [] => Done (false, visited)
  | t :: ts' =>
      match nfa.R t with
      | None =>
          '(b, visited) ← rec (nfa.N t) visited;
          if b : bool then Done (true, visited)
          else canReachFinal_edges rec ts' visited
      | Some _ => canReachFinal_edges rec ts' visited
      end
  end.

Fixpoint canReachFinal (fuel : nat) (g : nfa.graph) (node : nfa.ptr)
    (visited : gset nfa.ptr) : res (bool * gset nfa.ptr) :=
  match fuel with
  | O => OutOfFuel
  | Datatypes.S fuel =>
      n ← deref g node;
      if nfa.F n then Done (true, visited)
      else if decide (node ∈ visited) then Done (false, visited)
      else
        let visited := {[node]} ∪ visited in
        canReachFinal_edges (canReachFinal fuel g) (nfa.T n) visited
  end.

Fixpoint isFinal_loop (g : nfa.graph) (cls : list nfa.ptr) (visited : gset nfa.ptr)
    : res bool :=
  match cls with
  | [] => Done false
  | n :: cls' =>
      '(b, visited) ← canReachFinal (closure_fuel g) g n visited;
      if b : bool then Done true else isFinal_loop g cls' visited
  end.

Definition isFinal (g : nfa.graph) (cls : list nfa.ptr) : res bool :=
  isFinal_loop g cls ∅.

(** *** Subset construction *)

Section build.
Context `{GoRuntime}.

(** [union(cls...)]: a single closure is returned as it is; otherwise
    the nodes are collected in a map and read back in the order in
    which the runtime ranges over it ([k] is the number of that loop). *)
Definition union (cls : list (list nfa.ptr)) (k : nat) : list nfa.ptr :=
  match cls with
  | [c] => c
  | _ =>
      let m : gset nfa.ptr := list_to_set (concat cls) in
      map_range k (elements m)
  end.

(** The loop of [closuresForRange] over the edges [c.T] of one node. *)
Fixpoint closuresForRange_edges (g : nfa.graph) (ts : list nfa.Edge)
    (rr : list rune) (closures : list (list nfa.ptr))
    (cache : gmap nfa.ptr (list nfa.ptr))
    : res (list (list nfa.ptr) * gmap nfa.ptr (list nfa.ptr)) :=
  match ts with
  | [] => Done (closures, cache)
  | t :: ts' =>
      if runerange.Contains (nfa.ranges t) rr then
        '(cls, cache) ← closure g (nfa.N t) cache;
        closuresForRange_edges g ts' rr (closures ++ [cls]) cache
      else closuresForRange_edges g ts' rr closures cache
  end.

(** The loop of [closuresForRange] over [n.closures]. *)
Fixpoint closuresForRange_nodes (g : nfa.graph) (cs : list nfa.ptr)
    (rr : list rune) (closures : list (list nfa.ptr))
    (cache : gmap nfa.ptr (list nfa.ptr))
    : res (list (list nfa.ptr) * gmap nfa.ptr (list nfa.ptr)) :=
  match cs with
  | [] => Done (closures, cache)
  | c :: cs' =>
      cn ← deref g c;
      '(closures, cache) ← closuresForRange_edges g (nfa.T cn) rr closures cache;
      closuresForRange_nodes g cs' rr closures cache
  end.

Definition closuresForRange (g : nfa.graph) (h : arena) (n : ptr)
    (rr : list rune) (cache : gmap nfa.ptr (list nfa.ptr))
    : res (list (list nfa.ptr) * gmap nfa.ptr (list nfa.ptr)) :=
  node ← deref h n;
  closuresForRange_nodes g (closures node) rr [] cache.

(** The first loop of [constructSubset]: the range list of every edge
    (epsilon edges contribute their [nil] list) of every node of
    [root.closures]. *)
Fixpoint edge_ranges (g : nfa.graph) (cs : list nfa.ptr) : res (list (list rune)) :=
  match cs with
  | [] => Done []
  | c :: cs' =>
      n ← deref g c;
      rest ← edge_ranges g cs';
      Done ((nfa.ranges <$> nfa.T n) ++ rest)
  end.

(** What the [less] function of [constructSubset] reads of a target:
    [closures[0].S] when the target has closures, and [State]. *)
#[local] Abbreviation sort_key := (option Z * Z)%type.

Definition less (a b : sort_key * (ptr * list rune)) : bool :=
  match a.1.1, b.1.1 with
  | Some sa, Some sb => bool_decide (sa < sb)
  | _, _ => bool_decide (a.1.2 < b.1.2)
  end.

Definition read_sort_key (g : nfa.graph) (h : arena) (tr : ptr * list rune)
    : res (sort_key * (ptr * list rune)) :=
  node ← deref h tr.1;
  match closures node with
  | [] => Done ((None, State node), tr)
  | c :: _ => cn ← deref g c; Done ((Some (nfa.S cn), State node), tr)
  end.

Fixpoint read_sort_keys (g : nfa.graph) (h : arena) (trs : list (ptr * list rune))
    : res (list (sort_key * (ptr * list rune))) :=
  match trs with
  | [] => Done []
  | tr :: trs' =>
      k ← read_sort_key g h tr;
      rest ← read_sort_keys g h trs';
      Done (k :: rest)
  end.

(** One round of the loop of [constructSubset] over the blocks
    [pairs[i:i+2]]; [rec] is the recursive call [constructSubset(node, ctx)]. *)
Definition constructSubset_block (rec : ptr → world → res world)
    (g : nfa.graph) (root : ptr) (block : list rune)
    (m : gmap ptr (list rune)) (w : world) : res (gmap ptr (list rune) * world) :=
  '(closures, cache) ← closuresForRange g (heap w) root block (closureCache (ctx w));
  let cls := union closures (tick w) in
  lbl ← labelFromClosure g cls;
  isFinalState ← isFinal g cls;
  let w := {| heap := heap w;
              ctx := {| state := state (ctx w);
                        nodesByLabel := nodesByLabel (ctx w);
                        closureCache := cache |};
              tick := Datatypes.S (tick w) |} in
  '(node, w) ←
    match nodesByLabel (ctx w) !! lbl with
    | Some n => Done (n, w)
    | None =>
        let st := state (ctx w) + 1 in
        let node := fresh (dom (heap w)) in
        let w := {| heap := <[node := {| State := st; Final := isFinalState;
                                         Transitions := []; label := lbl;
                                         closures := cls |}]> (heap w);
                    ctx := {| state := st;
                              nodesByLabel := <[lbl := node]> (nodesByLabel (ctx w));
                              closureCache := closureCache (ctx w) |};
                    tick := tick w |} in
        w ← rec node w;
        Done (node, w)
    end;
  Done (<[node := runerange.Sum (default [] (m !! node)) block]> m, w).

Fixpoint constructSubset_blocks (rec : ptr → world → res world)
    (g : nfa.graph) (root : ptr) (pairs : list rune)
    (m : gmap ptr (list rune)) (w : world) : res (gmap ptr (list rune) * world) :=
  match pairs with
  | [] => Done (m, w)
  | lo :: hi :: pairs' =>
      '(m, w) ← constructSubset_block rec g root [lo; hi] m w;
      constructSubset_blocks rec g root pairs' m w
  | [_] => Panic (* pairs[i:i+2] past the end of the slice *)
  end.

(** [constructSubset].  The keys that [less] compares are read before
    the sort; when a target is missing from the arena the model panics
    where the code would panic at the first comparison that reads it. *)
Fixpoint constructSubset (fuel : nat) (g : nfa.graph) (root : ptr) (w : world)
    : res world :=
  match fuel with
  | O => OutOfFuel
  | Datatypes.S fuel =>
      rootN ← deref (heap w) root;
      ranges ← edge_ranges g (closures rootN);
      let pairs := runerange.Split ranges in
      '(m, w) ← constructSubset_blocks (constructSubset fuel g) g root pairs ∅ w;
      let transitions := map_range (tick w) (map_to_list m) in
      let w := {| heap := heap w; ctx := ctx w; tick := Datatypes.S (tick w) |} in
      if decide (0 < size m)%nat then
        keyed ← read_sort_keys g (heap w) transitions;
        let sorted := sort_Slice less keyed in
        rootN ← deref (heap w) root;
        let ts := Transitions rootN ++
                  ((λ t, {| RuneRanges := t.2.2; T_Node := t.2.1 |}) <$> sorted) in
        Done {| heap := <[root := set_Transitions ts rootN]> (heap w);
                ctx := ctx w; tick := tick w |}
      else Done w
  end.

Definition firstNode (g : nfa.graph) (nfanode : nfa.ptr) (w : world)
    : res (ptr * world) :=
  '(cls, cache) ← closure g nfanode (closureCache (ctx w));
  lbl ← labelFromClosure g cls;
  fin ← isFinal g cls;
  let st := state (ctx w) + 1 in
  let node := fresh (dom (heap w)) in
  Done (node,
        {| heap := <[node := {| State := st; Final := fin; Transitions := [];
                                label := lbl; closures := cls |}]> (heap w);
           ctx := {| state := st;
                     nodesByLabel := <[lbl := node]> (nodesByLabel (ctx w));
                     closureCache := cache |};
           tick := tick w |}).

(** [NewFromNFA]: the build starts from an empty context and an empty
    arena; [k] is the number of map iterations the run has started
    before the call.  The error result is always [nil] and is left out. *)
Definition NewFromNFA (fuel : nat) (g : nfa.graph) (nfanode : nfa.ptr) (k : nat)
    : res (ptr * world) :=
  let w := {| heap := ∅;
              ctx := {| state := 0; nodesByLabel := ∅; closureCache := ∅ |};
              tick := k |} in
  '(node, w) ← firstNode g nfanode w;
  w ← constructSubset fuel g node w;
  Done (node, w).

End build.

End dfa.

(** ** Package intersection *)

Module intersection.

(** A state of the product automaton.  Its [Transitions] field is never
    written or read by the package and is left out. *)
Record CombineNode : Type := {
  Name : string;            (* state1_state2 *)
  Final : bool;
  Node1 : dfa.ptr;
  Node2 : dfa.ptr
}.

Record RangeInfo : Type := {
  Range : list rune;
  RI_Node1 : dfa.ptr;
  RI_Node2 : dfa.ptr
}.

(** [findOverlap]: [range1] and [range2] are the parts of the two slices
    from index [i], respectively [j], on; reading [range1[i+1]] or
    [range2[j+1]] past the end of a slice of odd length panics. *)
Fixpoint findOverlap (range1 : list rune) : list rune → res (list rune) :=
  fix findOverlap_j (range2 : list rune) : res (list rune) :=
    match range1, range2 with
    | [], _ | _, [] => Done []
    | lo1 :: hi1 :: rest1, lo2 :: hi2 :: rest2 =>
        let start := Z.max lo1 lo2 in
        let end_ := Z.min hi1 hi2 in
        result ← (if bool_decide (hi1 < hi2) then findOverlap rest1 range2
                  else findOverlap_j rest2);
        Done (if bool_decide (start ≤ end_) then start :: end_ :: result else result)
    | _, _ => Panic
    end.

Fixpoint findOverlapRanges_inner (t1 : dfa.T) (trans2 : list dfa.T)
    : res (list RangeInfo) :=
  match trans2 with
  | [] => Done []
  | t2 :: trans2' =>
      if runerange.Overlaps (dfa.RuneRanges t1) (dfa.RuneRanges t2) then
        overlap ← findOverlap (dfa.RuneRanges t1) (dfa.RuneRanges t2);
        rest ← findOverlapRanges_inner t1 trans2';
        Done ({| Range := overlap; RI_Node1 := dfa.T_Node t1;
                 RI_Node2 := dfa.T_Node t2 |} :: rest)
      else findOverlapRanges_inner t1 trans2'
  end.

Fixpoint findOverlapRanges (trans1 trans2 : list dfa.T) : res (list RangeInfo) :=
  match trans1 with
  | [] => Done []
  | t1 :: trans1' =>
      here ← findOverlapRanges_inner t1 trans2;
      rest ← findOverlapRanges trans1' trans2;
      Done (here ++ rest)
  end.

Definition findNextNodes (node : dfa.Node) (r : list rune) : list dfa.ptr :=
  dfa.T_Node <$> filter (λ t, runerange.Overlaps (dfa.RuneRanges t) r = true)
                        (dfa.Transitions node).

Section search.
(** The two automata live in the arenas of their builds; the search
    only reads them. *)
Variables h1 h2 : dfa.arena.

(** [fmt.Sprintf("%d_%d", node1.State, node2.State)] *)
Definition nodeName (node1 node2 : dfa.ptr) : res string :=
  n1 ← deref h1 node1;
  n2 ← deref h2 node2;
  Done (pretty (dfa.State n1) +:+ "_" +:+ pretty (dfa.State n2))%string.

Definition createNode (node1 node2 : dfa.ptr) : res CombineNode :=
  name ← nodeName node1 node2;
  n1 ← deref h1 node1;
  n2 ← deref h2 node2;
  Done {| Name := name; Node1 := node1; Node2 := node2;
          Final := dfa.Final n1 && dfa.Final n2 |}.

(** The two inner loops of [dfs] for one overlap range: the nodes
    pushed, in the order of the pushes. *)
Fixpoint push_pairs_2 (visited : gset string) (next1 : dfa.ptr)
    (nextNodes2 : list dfa.ptr) : res (list CombineNode) :=
  match nextNodes2 with
  | [] => Done []
  | next2 :: rest2 =>
      tmpNode ← createNode next1 next2;
      tmpName ← nodeName next1 next2;
      rest ← push_pairs_2 visited next1 rest2;
      Done (if decide (tmpName ∈ visited) then rest else tmpNode :: rest)
  end.

Fixpoint push_pairs (visited : gset string) (nextNodes1 nextNodes2 : list dfa.ptr)
    : res (list CombineNode) :=
  match nextNodes1 with
  | [] => Done []
  | next1 :: rest1 =>
      here ← push_pairs_2 visited next1 nextNodes2;
      rest ← push_pairs visited rest1 nextNodes2;
      Done (here ++ rest)
  end.

(** The loop of [dfs] over [ranges]. *)
Fixpoint push_ranges (visited : gset string) (n1 n2 : dfa.Node)
    (ranges : list RangeInfo) : res (list CombineNode) :=
  match ranges with
  | [] => Done []
  | r :: ranges' =>
      let nextNodes1 := findNextNodes n1 (Range r) in
      let nextNodes2 := findNextNodes n2 (Range r) in
      here ← push_pairs visited nextNodes1 nextNodes2;
      rest ← push_ranges visited n1 n2 ranges';
      Done (here ++ rest)
  end.

(** The state of the loop of [dfs].  The head of [stack] is the top
    (the last element of the Go slice); [visited] holds the keys
    mapped to [true]. *)
Record dfs_state : Type := {
  stack : list CombineNode;
  visited : gset string;
  nodeMap : gmap string CombineNode
}.

(** One round of [for len(stack) > 0 { ... }]: the function returns
    ([inl]) or the loop goes on ([inr]). *)
Definition dfs_step (s : dfs_state) : res (bool * dfs_state + dfs_state) :=
  match stack s with
  | [] => Done (inl (false, s))
  | node :: stack' =>
      name ← nodeName (Node1 node) (Node2 node);
      if decide (name ∈ visited s) then
        Done (inr {| stack := stack'; visited := visited s; nodeMap := nodeMap s |})
      else
        let visited' := {[name]} ∪ visited s in
        let nodeMap' := <[name := node]> (nodeMap s) in
        if Final node then
          Done (inl (true, {| stack := stack'; visited := visited';
                              nodeMap := nodeMap' |}))
        else
          n1 ← deref h1 (Node1 node);
          n2 ← deref h2 (Node2 node);
          ranges ← findOverlapRanges (dfa.Transitions n1) (dfa.Transitions n2);
          pushed ← push_ranges visited' n1 n2 ranges;
          Done (inr {| stack := reverse pushed ++ stack';
                       visited := visited'; nodeMap := nodeMap' |})
  end.

Fixpoint dfs_loop (fuel : nat) (s : dfs_state) : res (bool * dfs_state) :=
  match fuel with
  | O => OutOfFuel
  | S fuel =>
      r ← dfs_step s;
      match r with
      | inl out => Done out
      | inr s' => dfs_loop fuel s'
      end
  end.

(** [dfs]: the result and the caller's [nodeMap] after the call. *)
Definition dfs (fuel : nat) (startNode : CombineNode)
    (nodeMap0 : gmap string CombineNode)
    : res (bool * gmap string CombineNode) :=
  '(b, s) ← dfs_loop fuel {| stack := [startNode]; visited := ∅;
                             nodeMap := nodeMap0 |};
  Done (b, nodeMap s).

(** The pair-ids in the order in which the rounds of the loop mark
    them visited (a round that finds its pair-id visited marks none). *)
Fixpoint dfs_marks (fuel : nat) (s : dfs_state) : list string :=
  match fuel with
  | O => []
  | S fuel =>
      match dfs_step s with
      | Done (inl (_, s')) => elements (visited s' ∖ visited s)
      | Done (inr s') => elements (visited s' ∖ visited s) ++ dfs_marks fuel s'
      | _ => []
      end
  end.

(** The pairs of targets that the loops of [dfs] over [ranges],
    [nextNodes1] and [nextNodes2] go through, in order. *)
Definition candidates (n1 n2 : dfa.Node) (ranges : list RangeInfo)
    : list (dfa.ptr * dfa.ptr) :=
  r ← ranges;
  m1 ← findNextNodes n1 (Range r);
  m2 ← findNextNodes n2 (Range r);
  [(m1, m2)].

(** The nodes pushed for a list of candidate pairs. *)
Fixpoint push_list (visited : gset string) (qs : list (dfa.ptr * dfa.ptr))
    : res (list CombineNode) :=
  match qs with
  | [] => Done []
  | q :: qs' =>
      tmpNode ← createNode q.1 q.2;
      tmpName ← nodeName q.1 q.2;
      rest ← push_list visited qs';
      Done (if decide (tmpName ∈ visited) then rest else tmpNode :: rest)
  end.

(** The product automaton that [dfs] explores: [(m1, m2)] is a
    successor of [(n1, n2)] when the expansion of [(n1, n2)] goes
    through it. *)
Definition successors (p : dfa.ptr * dfa.ptr) : res (list (dfa.ptr * dfa.ptr)) :=
  n1 ← deref h1 p.1;
  n2 ← deref h2 p.2;
  ranges ← findOverlapRanges (dfa.Transitions n1) (dfa.Transitions n2);
  Done (candidates n1 n2 ranges).

(** The step of the product automaton proper: two transitions with
    overlapping range lists are followed together. *)
Definition overlap_step (p q : dfa.ptr * dfa.ptr) : Prop :=
  ∃ n1 n2 t1 t2,
    h1 !! p.1 = Some n1 ∧ h2 !! p.2 = Some n2 ∧
    t1 ∈ dfa.Transitions n1 ∧ t2 ∈ dfa.Transitions n2 ∧
    runerange.Overlaps (dfa.RuneRanges t1) (dfa.RuneRanges t2) = true ∧
    q = (dfa.T_Node t1, dfa.T_Node t2).

Definition step (p q : dfa.ptr * dfa.ptr) : Prop :=
  ∃ qs, successors p = Done qs ∧ q ∈ qs.

Definition pair_of (node : CombineNode) : dfa.ptr * dfa.ptr :=
  (Node1 node, Node2 node).

(** The pair-id of two nodes. *)
Definition name_of (n1 n2 : dfa.Node) : string :=
  pretty (dfa.State n1) +:+ "_" +:+ pretty (dfa.State n2).

(** The pair-ids of all pairs of nodes of the two arenas. *)
Definition all_names : gset string :=
  list_to_set (n1 ← (map_to_list h1).*2; n2 ← (map_to_list h2).*2; [name_of n1 n2]).

(** A [CombineNode] as [createNode] makes it. *)
Definition node_ok (node : CombineNode) : Prop :=
  ∃ n1 n2, h1 !! Node1 node = Some n1 ∧ h2 !! Node2 node = Some n2 ∧
           Final node = dfa.Final n1 && dfa.Final n2.

Definition final_pair (p : dfa.ptr * dfa.ptr) : Prop :=
  ∃ n1 n2, h1 !! p.1 = Some n1 ∧ h2 !! p.2 = Some n2 ∧
           dfa.Final n1 = true ∧ dfa.Final n2 = true.

End search.

(** *** The entry point *)

(** The collaborators of [convert2Dfa] outside the core: the syntax
    check of the standard library ([regexp.Compile], which yields a
    diagnostic for an invalid expression) and the NFA compiler
    ([nfa.New], which yields the arena and the root of the automaton,
    or an error). *)
Class Compiler : Type := {
  regexp_Compile : string → option string;
  nfa_New : string → nfa.graph * nfa.ptr + string
}.

(** [errors.Wrap(err, message)] *)
Record error : Type := Wrap { cause : string; message : string }.

Section entry.
Context `{GoRuntime} `{Compiler}.

(** [convert2Dfa]; a result carries the arena of the automaton along
    with its root, and the number of map iterations started so far. *)
Definition convert2Dfa (fuel : nat) (expr : string) (k : nat)
    : res ((dfa.ptr * dfa.arena) * nat + error) :=
  match regexp_Compile expr with
  | Some err => Done (inr (Wrap err ("invalid regexp: " +:+ expr)))
  | None =>
      match nfa_New expr with
      | inr err => Exit (* log.Fatal(err) *)
      | inl (g, nfaNode) =>
          '(node, w) ← dfa.NewFromNFA fuel g nfaNode k;
          Done (inl ((node, dfa.heap w), dfa.tick w))
      end
  end.

(** [HasIntersection]; [None] is the [nil] error. *)
Definition HasIntersection (fuel : nat) (expr1 expr2 : string) (k : nat)
    : res (bool * option error) :=
  r2 ← convert2Dfa fuel expr2 k;
  match r2 with
  | inr err2 => Done (false, Some err2)
  | inl ((node2, h2), k) =>
      r1 ← convert2Dfa fuel expr1 k;
      match r1 with
      | inr err1 => Done (false, Some err1)
      | inl ((node1, h1), _) =>
          let nodeMap : gmap string CombineNode := ∅ in
          firstNode ← createNode h1 h2 node1 node2;
          '(b, _) ← dfs h1 h2 fuel firstNode nodeMap;
          Done (b, None)
      end
  end.

End entry.

End intersection.

(** ** Definitions that support the proofs *)

(** The character [c] occurs in [s]. *)
Fixpoint has_char (c : ascii) (s : string) : Prop :=
  match s with
  | EmptyString => False
  | String a s' => a = c ∨ has_char c s'
  end.

Section dfs_invariant.
Import intersection.
Context (h1 h2 : dfa.arena) (root : dfa.ptr * dfa.ptr).

(** The invariant of the loop of [dfs]; [E] is the set of the pairs
    expanded so far. *)
Record dfs_inv (E : gset (dfa.ptr * dfa.ptr)) (s : dfs_state) : Prop := {
  inv_stack_ok : Forall (node_ok h1 h2) (stack s);
  inv_stack_reach : ∀ cn, cn ∈ stack s → rtc (step h1 h2) root (pair_of cn);
  inv_visited : ∀ nm, nm ∈ visited s ↔
                      ∃ p, p ∈ E ∧ nodeName h1 h2 p.1 p.2 = Done nm;
  inv_expanded : ∀ p, p ∈ E → rtc (step h1 h2) root p ∧ ¬ final_pair h1 h2 p;
  inv_closed : ∀ p q, p ∈ E → step h1 h2 p q → q ∈ E ∨ q ∈ pair_of <$> stack s;
  inv_root : root ∈ E ∨ root ∈ pair_of <$> stack s
}.
End dfs_invariant.

Section subset_semantics.
Context (g : nfa.graph).

(** The closure that [closure] computes for a node that is not cached. *)
Definition closure_of (x : nfa.ptr) : res (list nfa.ptr) :=
  '(cls, _) ← dfa.recursiveClosure (dfa.closure_fuel g) g x ∅; Done cls.

(** Every entry of the closure cache is the closure of its key. *)
Definition cache_ok (cache : gmap nfa.ptr (list nfa.ptr)) : Prop :=
  ∀ x cls, cache !! x = Some cls → closure_of x = Done cls.

(** [y] lies in the closure of the target of an edge that leaves a node
    of [X] and satisfies [sel]. *)
Definition moves (sel : nfa.Edge → Prop) (X : nfa.ptr → Prop) (y : nfa.ptr) : Prop :=
  ∃ x node e cls, X x ∧ g !! x = Some node ∧ e ∈ nfa.T node ∧ sel e ∧
                  closure_of (nfa.N e) = Done cls ∧ y ∈ cls.

(** The subset automaton: the states reached from the set [X] on the
    character [c], and on a word. *)
Definition move_char (X : nfa.ptr → Prop) (c : rune) : nfa.ptr → Prop :=
  moves (λ e, runerange.covers (nfa.ranges e) c) X.

Fixpoint move_word (X : nfa.ptr → Prop) (w : list rune) : nfa.ptr → Prop :=
  match w with
  | [] => X
  | c :: w' => move_word (move_char X c) w'
  end.

Definition accepting (X : nfa.ptr → Prop) : Prop :=
  ∃ x, X x ∧ nfa.reaches_final g x.

(** The language of the NFA with root [r]. *)
Definition nfa_accepts (r : nfa.ptr) (w : list rune) : Prop :=
  ∃ cls, closure_of r = Done cls ∧ accepting (move_word (λ x, x ∈ cls) w).
End subset_semantics.

(** The graph that [nfa.New] hands over: every edge leads to a node of the
    graph, the root is a node of the graph, and the state ids identify
    the nodes. *)
Definition nfa_closed (g : nfa.graph) : Prop :=
  ∀ x node e, g !! x = Some node → e ∈ nfa.T node → is_Some (g !! nfa.N e).

Record nfa_valid (g : nfa.graph) (r : nfa.ptr) : Prop := {
  nv_closed : nfa_closed g;
  nv_root : is_Some (g !! r);
  nv_ids : nfa.ids_unique g
}.

Section nfa_language.
Context (g : nfa.graph).

(** An edge whose range list covers [c] leads from [x] to [y]. *)
Definition char_step (c : rune) (x y : nfa.ptr) : Prop :=
  ∃ node e, g !! x = Some node ∧ e ∈ nfa.T node ∧
            runerange.covers (nfa.ranges e) c ∧ nfa.N e = y.

(** The NFA goes from [x] to [y] reading the word [w]. *)
Fixpoint nfa_run (x : nfa.ptr) (w : list rune) (y : nfa.ptr) : Prop :=
  match w with
  | [] => rtc (nfa.eps_step g) x y
  | c :: w' =>
      ∃ x1 x2, rtc (nfa.eps_step g) x x1 ∧ char_step c x1 x2 ∧ nfa_run x2 w' y
  end.

(** The words that lead from [r] to an accepting node. *)
Definition nfa_language (r : nfa.ptr) (w : list rune) : Prop :=
  ∃ y node, nfa_run r w y ∧ g !! y = Some node ∧ nfa.F node = true.

(** What a call [recursiveClosure(x, visited)] that returns [cls] and
    leaves [visited] as [V'] establishes. *)
Definition closure_call_spec (x : nfa.ptr) (V : gset nfa.ptr)
    (cls : list nfa.ptr) (V' : gset nfa.ptr) : Prop :=
  NoDup cls ∧ V' = list_to_set cls ∪ V ∧ x ∈ V' ∧
  (∀ y, y ∈ cls → y ∉ V ∧ rtc (nfa.eps_step g) x y) ∧
  (∀ y z, y ∈ cls → nfa.eps_step g y z → z ∈ V').
End nfa_language.

(** Checks of [nfa_closed] and [nfa.ids_unique] that compute. *)
Definition check_nfa_closed (g : nfa.graph) : bool :=
  forallb (λ xn, forallb (λ e, bool_decide (is_Some (g !! nfa.N e))) (nfa.T xn.2))
          (map_to_list g).

Definition check_nfa_valid (g : nfa.graph) (r : nfa.ptr) : bool :=
  check_nfa_closed g && bool_decide (is_Some (g !! r))
  && bool_decide (NoDup ((λ xn, nfa.S xn.2) <$> map_to_list g)).

Section final_search.
Context (g : nfa.graph).

(** The nodes that [canReachFinal] marks between [V] and [V'] are not
    accepting and their epsilon successors are marked. *)
Definition fresh_closed (V V' : gset nfa.ptr) : Prop :=
  ∀ x, x ∈ V' → x ∉ V →
       (∃ node, g !! x = Some node ∧ nfa.F node = false) ∧
       ∀ y, nfa.eps_step g x y → y ∈ V'.

(** What a call [canReachFinal(n, visited)] that returns [b] and leaves
    [visited] as [V'] establishes. *)
Definition call_spec (n : nfa.ptr) (V : gset nfa.ptr) (b : bool) (V' : gset nfa.ptr)
    : Prop :=
  (b = true → nfa.reaches_final g n) ∧
  (b = false → V ⊆ V' ∧ n ∈ V' ∧ fresh_closed V V').
End final_search.

Section dfa_language.
Context (h : dfa.arena).

(** The DFA goes from [p] to [q] on the word [w]. *)
Fixpoint dfa_run (p : dfa.ptr) (w : list rune) (q : dfa.ptr) : Prop :=
  match w with
  | [] => p = q
  | c :: w' =>
      ∃ n t, h !! p = Some n ∧ t ∈ dfa.Transitions n ∧
             runerange.covers (dfa.RuneRanges t) c ∧ dfa_run (dfa.T_Node t) w' q
  end.

Definition dfa_accepts (p : dfa.ptr) (w : list rune) : Prop :=
  ∃ q n, dfa_run p w q ∧ h !! q = Some n ∧ dfa.Final n = true.
End dfa_language.

Section build_invariant.
Import dfa.
Context (g : nfa.graph).

(** What never changes in a node once it is allocated. *)
Definition same_static (n n' : Node) : Prop :=
  State n = State n' ∧ Final n = Final n' ∧ label n = label n' ∧
  closures n = closures n'.

(** [h'] holds the nodes of [h], up to their transitions. *)
Definition static_ext (h h' : arena) : Prop :=
  ∀ l n, h !! l = Some n → ∃ n', h' !! l = Some n' ∧ same_static n n'.

(** The key that [less] compares: [closures[0].S] of the target. *)
Definition first_state (h : arena) (node : ptr) : Z :=
  match h !! node with
  | Some n' =>
      match closures n' with
      | c :: _ => match g !! c with Some cn => nfa.S cn | None => 0 end
      | [] => 0
      end
  | None => 0
  end.

(** The smallest state id among the closures of a node, and the state
    of the node when it has no closures. *)
Definition min_state (h : arena) (node : ptr) : Z :=
  match h !! node with
  | Some n' =>
      match omap (λ c, nfa.S <$> g !! c) (closures n') with
      | s :: ss => foldr Z.min s ss
      | [] => State n'
      end
  | None => 0
  end.

(** Some edge that leaves the set [X] covers the character [c]. *)
Definition edge_covers (X : list nfa.ptr) (c : rune) : Prop :=
  ∃ x node e, x ∈ X ∧ g !! x = Some node ∧ e ∈ nfa.T node ∧
              runerange.covers (nfa.ranges e) c.

(** The transitions of a node that [constructSubset] has finished.  The
    closure set of a target is the set that the subset automaton reaches
    provided that labels identify sets of nodes, that is, provided that
    the state ids of the NFA are unique. *)
Record trans_ok (h : arena) (n : Node) : Prop := {
  tk_target : ∀ t, t ∈ Transitions n →
    ∃ n', h !! T_Node t = Some n' ∧ closures n' ≠ [] ∧
          (nfa.ids_unique g →
           ∀ c, runerange.covers (RuneRanges t) c →
                ∀ y, y ∈ closures n' ↔ move_char g (λ x, x ∈ closures n) c y);
  tk_sorted : ∀ t, t ∈ Transitions n → runerange.sorted_disjoint (RuneRanges t);
  tk_disjoint : transitions_disjoint (Transitions n) = true;
  tk_cover : ∀ c, (∃ t, t ∈ Transitions n ∧ runerange.covers (RuneRanges t) c) ↔
                  edge_covers (closures n) c;
  tk_order : Sorted (λ t t', first_state h (T_Node t) ≤ first_state h (T_Node t'))
                    (Transitions n)
}.

(** A node of the arena during the build; [P] holds the nodes whose
    call of [constructSubset] has not returned yet. *)
Record node_built (w : world) (P : gset ptr) (l : ptr) (n : Node) : Prop := {
  nk_label : labelFromClosure g (closures n) = Done (label n);
  nk_final : isFinal g (closures n) = Done (Final n);
  nk_table : nodesByLabel (ctx w) !! label n = Some l;
  nk_state : 0 < State n ≤ state (ctx w);
  nk_nonempty : closures n ≠ [];
  nk_pending : l ∈ P → Transitions n = [];
  nk_done : l ∉ P → trans_ok (heap w) n
}.

Record world_ok (w : world) (P : gset ptr) : Prop := {
  wk_nodes : ∀ l n, heap w !! l = Some n → node_built w P l n;
  wk_unique : states_unique (heap w);
  wk_table : ∀ lbl l, nodesByLabel (ctx w) !! lbl = Some l →
                      ∃ n, heap w !! l = Some n ∧ label n = lbl;
  wk_cache : cache_ok g (closureCache (ctx w));
  wk_pending : ∀ l, l ∈ P → is_Some (heap w !! l);
  wk_state : 0 ≤ state (ctx w)
}.

(** Some range of the map [m] covers [c]. *)
Definition covers_m (m : gmap ptr (list rune)) (c : rune) : Prop :=
  ∃ node rr, m !! node = Some rr ∧ runerange.covers rr c.

(** The map [m] of [constructSubset] while the blocks are processed;
    [X] is the closure set of the node under construction and [ub] an
    upper bound of the characters accumulated so far. *)
Record m_ok (X : list nfa.ptr) (h : arena) (m : gmap ptr (list rune)) (ub : rune)
    : Prop := {
  mk_entry : ∀ node rr, m !! node = Some rr →
    runerange.sorted_disjoint rr ∧ (∃ c, runerange.covers rr c) ∧
    (∀ c, runerange.covers rr c → c ≤ ub) ∧
    ∃ n', h !! node = Some n' ∧ closures n' ≠ [] ∧
          (nfa.ids_unique g →
           ∀ c, runerange.covers rr c →
                ∀ y, y ∈ closures n' ↔ move_char g (λ x, x ∈ X) c y);
  mk_apart : ∀ node node' rr rr' c,
    m !! node = Some rr → m !! node' = Some rr' →
    runerange.covers rr c → runerange.covers rr' c → node = node'
}.

(** Every label that the build can form: the labels of the sets of
    state ids of [g]. *)
Definition state_ids : list Z := (λ xn, nfa.S xn.2) <$> map_to_list g.

Definition label_universe : gset string :=
  list_to_set ((λ l, makeLabel (sort_Ints (elements (list_to_set l : gset Z))))
                 <$> powermset state_ids).

(** The labels that are not in the table yet. *)
Definition labels_left (w : world) : nat :=
  size (label_universe ∖ dom (nodesByLabel (ctx w))).

(** What a call [constructSubset(node, ctx)] establishes. *)
Definition call_ok (rec : ptr → world → res world) : Prop :=
  ∀ node w w' P,
    world_ok w P → node ∈ P → rec node w = Done w' →
    world_ok w' (P ∖ {[node]}) ∧ static_ext (heap w) (heap w').
End build_invariant.

(** ** Automata used in the examples *)

Module examples.
Import dfa.

(** The DFA of [ab]: 1 -a-> 2 -b-> (3). *)
Definition dfa_ab : arena :=
  {[ 0%nat := {| State := 1; Final := false;
                 Transitions := [ {| RuneRanges := [97; 97]; T_Node := 1%nat |} ];
                 label := "0"; closures := [0%nat] |};
     1%nat := {| State := 2; Final := false;
                 Transitions := [ {| RuneRanges := [98; 98]; T_Node := 2%nat |} ];
                 label := "1"; closures := [1%nat] |};
     2%nat := {| State := 3; Final := true; Transitions := [];
                 label := "2"; closures := [2%nat] |} ]}.

(** The DFA of [[a-c]b*]: 1 -[a-c]-> (2), (2) -b-> (2). *)
Definition dfa_acb : arena :=
  {[ 0%nat := {| State := 1; Final := false;
                 Transitions := [ {| RuneRanges := [97; 99]; T_Node := 1%nat |} ];
                 label := "0"; closures := [0%nat] |};
     1%nat := {| State := 2; Final := true;
                 Transitions := [ {| RuneRanges := [98; 98]; T_Node := 1%nat |} ];
                 label := "1,2"; closures := [1%nat; 2%nat] |} ]}.

(** The DFA of [c]: 1 -c-> (2). *)
Definition dfa_c : arena :=
  {[ 0%nat := {| State := 1; Final := false;
                 Transitions := [ {| RuneRanges := [99; 99]; T_Node := 1%nat |} ];
                 label := "0"; closures := [0%nat] |};
     1%nat := {| State := 2; Final := true; Transitions := [];
                 label := "1"; closures := [1%nat] |} ]}.

Definition start_ab_acb : intersection.CombineNode :=
  {| intersection.Name := "1_1"; intersection.Final := false;
     intersection.Node1 := 0%nat; intersection.Node2 := 0%nat |}.

(** A node with two transitions, on [a] and on [[b-c]]. *)
Definition example_node : Node :=
  {| State := 1; Final := false;
     Transitions := [ {| RuneRanges := [97; 97]; T_Node := 1%nat |};
                      {| RuneRanges := [98; 99]; T_Node := 2%nat |} ];
     label := "0"; closures := [0%nat] |}.

(** A root with one transition to a final node. *)
Definition printed_arena : arena :=
  {[ 0%nat := {| State := 1; Final := false;
                 Transitions := [ {| RuneRanges := [97; 97]; T_Node := 1%nat |} ];
                 label := "0"; closures := [0%nat] |};
     1%nat := {| State := 2; Final := true; Transitions := [];
                 label := "1"; closures := [1%nat] |} ]}.

(** The root of [printed_arena], as the receiver of [Print]. *)
Definition printed_root : Node :=
  {| State := 1; Final := false;
     Transitions := [ {| RuneRanges := [97; 97]; T_Node := 1%nat |} ];
     label := "0"; closures := [0%nat] |}.

(** An NFA in which two edges on [a] leave the root.
    0 -a-> (1), 0 -b-> (2), 0 -a-> (3). *)
Definition nfa_fork : nfa.graph :=
  {[ 0%nat := {| nfa.S := 0; nfa.F := false;
                 nfa.T := [ {| nfa.R := Some [97; 97]; nfa.N := 1%nat |};
                            {| nfa.R := Some [98; 98]; nfa.N := 2%nat |};
                            {| nfa.R := Some [97; 97]; nfa.N := 3%nat |} ] |};
     1%nat := {| nfa.S := 1; nfa.F := true; nfa.T := [] |};
     2%nat := {| nfa.S := 2; nfa.F := true; nfa.T := [] |};
     3%nat := {| nfa.S := 3; nfa.F := true; nfa.T := [] |} ]}.

(** An NFA in which the target of an edge has a smaller state id in its
    closure than its own.  0 -a-> 5, 0 -b-> (3), 5 -eps-> (1). *)
Definition nfa_detour : nfa.graph :=
  {[ 0%nat := {| nfa.S := 0; nfa.F := false;
                 nfa.T := [ {| nfa.R := Some [97; 97]; nfa.N := 5%nat |};
                            {| nfa.R := Some [98; 98]; nfa.N := 3%nat |} ] |};
     5%nat := {| nfa.S := 5; nfa.F := false;
                 nfa.T := [ {| nfa.R := None; nfa.N := 1%nat |} ] |};
     1%nat := {| nfa.S := 1; nfa.F := true; nfa.T := [] |};
     3%nat := {| nfa.S := 3; nfa.F := true; nfa.T := [] |} ]}.

(** The NFA of [a*b]: 0 -eps-> 1, 0 -eps-> 2, 1 -a-> 0, 2 -b-> (3). *)
Definition nfa_a_star_b : nfa.graph :=
  {[ 0%nat := {| nfa.S := 0; nfa.F := false;
                 nfa.T := [ {| nfa.R := None; nfa.N := 1%nat |};
                            {| nfa.R := None; nfa.N := 2%nat |} ] |};
     1%nat := {| nfa.S := 1; nfa.F := false;
                 nfa.T := [ {| nfa.R := Some [97; 97]; nfa.N := 0%nat |} ] |};
     2%nat := {| nfa.S := 2; nfa.F := false;
                 nfa.T := [ {| nfa.R := Some [98; 98]; nfa.N := 3%nat |} ] |};
     3%nat := {| nfa.S := 3; nfa.F := true; nfa.T := [] |} ]}.

(** The NFA of [[a-c]]: 0 -[a-c]-> (1). *)
Definition nfa_a_to_c : nfa.graph :=
  {[ 0%nat := {| nfa.S := 0; nfa.F := false;
                 nfa.T := [ {| nfa.R := Some [97; 99]; nfa.N := 1%nat |} ] |};
     1%nat := {| nfa.S := 1; nfa.F := true; nfa.T := [] |} ]}.

(** A compiler for the examples: [regexp.Compile] rejects [(], and
    [nfa.New] knows the automata of [a*b] and [[a-c]] and rejects every
    other expression. *)
Definition toy_compiler : intersection.Compiler := {|
  intersection.regexp_Compile e :=
    if decide (e = "(") then Some "error parsing regexp: missing closing ): `(`"
    else None;
  intersection.nfa_New e :=
    if decide (e = "a*b") then inl (nfa_a_star_b, 0%nat)
    else if decide (e = "[a-c]") then inl (nfa_a_to_c, 0%nat)
    else inr "unsupported expression"
|}.
End examples.

(** ** Two runtimes *)

Section insertion_sort.
Context {A : Type} (less : A → A → bool).

Lemma insert_back_perm x l : insert_back less x l ≡ₚ x :: l.
Proof.
  induction l as [|y l IH]; simpl; [done|].
  destruct (less x y); [|done]. rewrite IH. apply Permutation_swap.
Qed.

Lemma insertion_sort_perm l : insertion_sort less l ≡ₚ l.
Proof.
  unfold insertion_sort. rewrite reverse_Permutation.
  enough (∀ acc, foldl (λ rprefix x, insert_back less x rprefix) acc l ≡ₚ l ++ acc) as Hgen.
  { by rewrite Hgen, app_nil_r. }
  induction l as [|x l IH]; intros acc; simpl; [done|].
  rewrite IH, insert_back_perm. by rewrite Permutation_middle.
Qed.

Context (key : A → Z).

Lemma insert_back_sorted x l :
  (∀ y, y ∈ l → less x y = bool_decide (key x < key y)) →
  Sorted (λ a b, key b ≤ key a) l →
  Sorted (λ a b, key b ≤ key a) (insert_back less x l).
Proof.
  intros Hless Hs. induction Hs as [|y l Hl IH Hhd]; simpl.
  { by repeat constructor. }
  rewrite (Hless y) by by left. case_bool_decide as Hxy.
  - constructor; [apply IH; intros z Hz; apply Hless; by right|].
    destruct Hhd as [|z l Hzy]; simpl.
    + constructor. lia.
    + destruct (less x z); constructor; lia.
  - repeat constructor; [done..|lia].
Qed.

Lemma foldl_insert_back_sorted (l0 l acc : list A) :
  (∀ x y, x ∈ l0 → y ∈ l0 → less x y = bool_decide (key x < key y)) →
  (∀ x, x ∈ acc → x ∈ l0) →
  (∀ x, x ∈ l → x ∈ l0) →
  Sorted (λ a b, key b ≤ key a) acc →
  Sorted (λ a b, key b ≤ key a)
         (foldl (λ rprefix x, insert_back less x rprefix) acc l).
Proof.
  intros Hless. revert acc.
  induction l as [|x l IH]; intros acc Hacc Hl Hs; simpl; [done|].
  apply IH.
  - intros z Hz. rewrite insert_back_perm in Hz.
    apply elem_of_cons in Hz as [->|Hz]; [apply Hl; by left|by apply Hacc].
  - intros z Hz. apply Hl. by right.
  - apply insert_back_sorted; [|done].
    intros y Hy. apply Hless; [apply Hl; by left|by apply Hacc].
Qed.

Lemma insertion_sort_sorted l :
  (∀ x y, x ∈ l → y ∈ l → less x y = bool_decide (key x < key y)) →
  Sorted (λ x y, key x ≤ key y) (insertion_sort less l).
Proof.
  intros Hless. unfold insertion_sort.
  apply (Sorted_reverse (λ a b, key b ≤ key a)).
  apply (foldl_insert_back_sorted l); [done| |done|constructor].
  by intros ? ?%elem_of_nil.
Qed.
End insertion_sort.

(** A runtime that ranges over a map in the order of its table. *)
Definition runtime_forward : GoRuntime := {|
  map_range := λ _ _ l, l;
  map_range_perm := λ _ A l, reflexivity l;
  sort_Slice := λ _ less l, insertion_sort less l;
  sort_Slice_perm := λ _ less l, insertion_sort_perm less l;
  sort_Slice_sorted := λ _ less key l, insertion_sort_sorted less key l
|}.

(** A runtime that ranges over a map in the opposite order. *)
Definition runtime_backward : GoRuntime := {|
  map_range := λ _ _ l, reverse l;
  map_range_perm := λ _ _ l, reverse_Permutation l;
  sort_Slice := λ _ less l, insertion_sort less l;
  sort_Slice_perm := λ _ less l, insertion_sort_perm less l;
  sort_Slice_sorted := λ _ less key l, insertion_sort_sorted less key l
|}.

(** * Facts about the outcome monad *)

Lemma bind_Done {A B} (m : res A) (f : A → res B) b :
  m ≫= f = Done b ↔ ∃ a, m = Done a ∧ f a = Done b.
Proof.
  destruct m; simpl; split; try (intros [a' [? ?]]); try discriminate; eauto.
  by simplify_eq.
Qed.

Lemma deref_Done {A} (h : gmap nat A) p a : deref h p = Done a ↔ h !! p = Some a.
Proof. unfold deref. destruct (h !! p); split; intros; by simplify_eq. Qed.

(** Inversion of a chain of binds that returned. *)
Ltac inv_res :=
  repeat match goal with
  | H : _ ≫= _ = Done _ |- _ => apply bind_Done in H as (? & ? & H)
  | H : Done _ = Done _ |- _ => injection H as H
  | H : deref _ _ = Done _ |- _ => apply deref_Done in H
  | H : Panic = Done _ |- _ => discriminate H
  | H : Exit = Done _ |- _ => discriminate H
  | H : OutOfFuel = Done _ |- _ => discriminate H
  | H : mret _ = Done _ |- _ => injection H as H
  end.

Lemma size_list_to_set_le `{Countable A} (l : list A) :
  (size (list_to_set l : gset A) ≤ length l)%nat.
Proof.
  induction l as [|x l IH]; simpl; [done|].
  rewrite size_union_alt, size_singleton.
  assert (size (list_to_set l ∖ {[x]} : gset A) ≤ size (list_to_set l : gset A))%nat
    by (apply subseteq_size; set_solver).
  lia.
Qed.

(** * Decimal numerals *)

Lemma has_char_app c s t : has_char c (s +:+ t) ↔ has_char c s ∨ has_char c t.
Proof. induction s as [|a s IH]; simpl; [tauto|]. rewrite IH. tauto. Qed.

(** Two strings cut at a separator that occurs in neither head. *)
Lemma app_separator_inj c s1 t1 s2 t2 :
  ¬ has_char c s1 → ¬ has_char c s2 →
  s1 +:+ String c t1 = s2 +:+ String c t2 → s1 = s2 ∧ t1 = t2.
Proof.
  revert s2. induction s1 as [|a s1 IH]; intros [|a' s2]; simpl; intros H1 H2 Heq.
  - by simplify_eq.
  - simplify_eq. tauto.
  - simplify_eq. tauto.
  - injection Heq as -> Heq. destruct (IH s2) as [-> ->]; tauto.
Qed.

Lemma pretty_N_go_has_char c x s :
  (∀ d, pretty_N_char d ≠ c) → ¬ has_char c s → ¬ has_char c (pretty_N_go x s).
Proof.
  intros Hc. revert s. induction (N.lt_wf_0 x) as [x _ IH]; intros s Hs.
  assert (x = 0 ∨ 0 < x)%N as [->|?] by lia.
  - by rewrite pretty_N_go_0.
  - rewrite pretty_N_go_step by done. apply IH.
    { by apply N.div_lt. }
    simpl. intros [?|?]; [by eapply Hc|done].
Qed.

Lemma pretty_N_has_char c (x : N) :
  (∀ d, pretty_N_char d ≠ c) → c ≠ "0"%char → ¬ has_char c (pretty x).
Proof.
  intros Hc H0. unfold pretty, pretty_N. case_decide.
  - simpl. intros [<-|?]; done.
  - apply pretty_N_go_has_char; [done|]. simpl. tauto.
Qed.

Lemma pretty_Z_has_char c (x : Z) :
  (∀ d, pretty_N_char d ≠ c) → c ≠ "0"%char → c ≠ "-"%char → ¬ has_char c (pretty x).
Proof.
  intros Hc H0 Hd. destruct x as [|p|p]; unfold pretty, pretty_Z.
  - simpl. intros [<-|?]; done.
  - by apply pretty_N_has_char.
  - simpl. intros [<-|?]; [done|]. by eapply pretty_N_has_char.
Qed.

Lemma pretty_N_char_not_underscore d : pretty_N_char d ≠ "_"%char.
Proof. unfold pretty_N_char. by repeat case_match. Qed.

Lemma pretty_N_char_not_comma d : pretty_N_char d ≠ ","%char.
Proof. unfold pretty_N_char. by repeat case_match. Qed.

Lemma pretty_Z_no_underscore (x : Z) : ¬ has_char "_" (pretty x).
Proof. apply pretty_Z_has_char; [apply pretty_N_char_not_underscore|done..]. Qed.

Lemma pretty_Z_no_comma (x : Z) : ¬ has_char "," (pretty x).
Proof. apply pretty_Z_has_char; [apply pretty_N_char_not_comma|done..]. Qed.

Lemma pretty_Z_nonempty (x : Z) : pretty x ≠ "".
Proof.
  assert (∀ n s, s ≠ "" → pretty_N_go n s ≠ "") as Hgo.
  { intros n. induction (N.lt_wf_0 n) as [n _ IH]; intros s Hs.
    assert (n = 0 ∨ 0 < n)%N as [->|?] by lia; [by rewrite pretty_N_go_0|].
    rewrite pretty_N_go_step by done. apply IH; [by apply N.div_lt|done]. }
  assert (∀ n : N, pretty n ≠ "") as HN.
  { intros n. unfold pretty, pretty_N. case_decide; [done|].
    rewrite pretty_N_go_step by lia. by apply Hgo. }
  destruct x as [|p|p]; unfold pretty, pretty_Z; [done|apply HN|done].
Qed.

(** * Range lists *)

Section range_lists.
Import runerange.

Lemma pairs_flat ps : pairs (flat ps) = ps.
Proof. induction ps as [|[lo hi] ps IH]; [done|]. simpl. by rewrite IH. Qed.

Lemma covers_nil c : ¬ covers [] c.
Proof. intros (lo & hi & Hin & _). simpl in Hin. by apply elem_of_nil in Hin. Qed.

Lemma covers_cons lo hi l c :
  covers (lo :: hi :: l) c ↔ lo ≤ c ≤ hi ∨ covers l c.
Proof.
  unfold covers. simpl. split.
  - intros (a & b & Hin & Hc). apply elem_of_cons in Hin as [[= -> ->]|Hin]; eauto.
  - intros [Hc|(a & b & Hin & Hc)].
    + exists lo, hi. split; [left|done].
    + exists a, b. split; [by right|done].
Qed.

Lemma coversb_spec l c : coversb l c = true ↔ covers l c.
Proof.
  unfold coversb, covers. rewrite existsb_exists. split.
  - intros ([lo hi] & Hin & Hc). apply bool_decide_eq_true in Hc.
    exists lo, hi. by rewrite list_elem_of_In.
  - intros (lo & hi & Hin & Hc). exists (lo, hi). rewrite <-list_elem_of_In.
    split; [done|]. by apply bool_decide_eq_true.
Qed.

Lemma covers_flat ps c : covers (flat ps) c ↔ ∃ p, p ∈ ps ∧ p.1 ≤ c ≤ p.2.
Proof.
  unfold covers. rewrite pairs_flat. split.
  - intros (lo & hi & ? & ?). by exists (lo, hi).
  - intros ([lo hi] & ? & ?). by exists lo, hi.
Qed.

(** [Overlaps] is the spec's predicate: the two lists share a character. *)
Lemma Overlaps_spec a b :
  Overlaps a b = true ↔ ∃ c, covers a c ∧ covers b c.
Proof.
  unfold Overlaps. rewrite existsb_exists. split.
  - intros ([lo1 hi1] & Hin1 & Hex). apply existsb_exists in Hex as ([lo2 hi2] & Hin2 & Hc).
    apply bool_decide_eq_true in Hc. simpl in Hc.
    apply list_elem_of_In in Hin1, Hin2.
    exists (Z.max lo1 lo2). split; [exists lo1, hi1|exists lo2, hi2]; split; auto; lia.
  - intros (c & (lo1 & hi1 & Hin1 & Hc1) & (lo2 & hi2 & Hin2 & Hc2)).
    exists (lo1, hi1). rewrite <-list_elem_of_In. split; [done|].
    apply existsb_exists. exists (lo2, hi2). rewrite <-list_elem_of_In. split; [done|].
    apply bool_decide_eq_true. simpl. lia.
Qed.

Lemma Overlaps_comm a b : Overlaps a b = Overlaps b a.
Proof.
  apply eq_true_iff_eq. rewrite !Overlaps_spec.
  split; intros (c & ? & ?); by exists c.
Qed.

Lemma Contains_spec set lo hi r :
  Contains set (lo :: hi :: r) = true ↔ ∃ p, p ∈ pairs set ∧ p.1 ≤ lo ∧ hi ≤ p.2.
Proof.
  unfold Contains. rewrite existsb_exists. split.
  - intros (p & Hin & Hc). apply bool_decide_eq_true in Hc.
    exists p. by rewrite list_elem_of_In.
  - intros (p & Hin & Hc). exists p. rewrite <-list_elem_of_In.
    split; [done|]. by apply bool_decide_eq_true.
Qed.

(** A single-character probe is contained exactly when it is covered. *)
Lemma Contains_char set c : Contains set [c; c] = true ↔ covers set c.
Proof.
  rewrite Contains_spec. unfold covers. split.
  - intros ([lo hi] & ? & ? & ?). by exists lo, hi.
  - intros (lo & hi & ? & ? & ?). by exists (lo, hi).
Qed.

Lemma ascending_from_weaken p p' l :
  p' ≤ p → ascending_from p l → ascending_from p' l.
Proof. destruct l as [|lo [|hi l]]; simpl; [done..|]. intros ? (? & ? & ?). repeat split; [lia|done..]. Qed.

Lemma ascending_from_pairs p l lo hi :
  ascending_from p l → (lo, hi) ∈ pairs l → p < lo ∧ lo ≤ hi.
Proof.
  revert p. induction l as [l IH] using (induction_ltof1 _ length); unfold ltof in IH.
  destruct l as [|lo0 [|hi0 l]]; simpl; intros p Hasc Hin.
  - by apply elem_of_nil in Hin.
  - done.
  - destruct Hasc as (? & ? & Hasc). apply elem_of_cons in Hin as [[= -> ->]|Hin]; [done|].
    apply (IH l) with (p := hi0) in Hin; [lia|simpl; lia|done].
Qed.

Lemma ascending_from_covers p l c : ascending_from p l → covers l c → p < c.
Proof.
  intros Hasc (lo & hi & Hin & Hc).
  apply (ascending_from_pairs _ _ _ _ Hasc) in Hin. lia.
Qed.

Lemma sorted_disjoint_ascending l : sorted_disjoint l ↔ ∃ p, ascending_from p l.
Proof.
  destruct l as [|lo [|hi l]]; simpl.
  - split; [by exists 0|done].
  - split; [done|by intros [? ?]].
  - split.
    + intros [? ?]. exists (lo - 1). repeat split; [lia|done..].
    + intros (p & ? & ? & ?). done.
Qed.

Lemma separated_from_ascending p l : separated_from p l → ascending_from p l.
Proof.
  revert p. induction l as [l IH] using (induction_ltof1 _ length); unfold ltof in IH.
  destruct l as [|lo [|hi l]]; simpl; intros p; [done..|].
  intros (? & ? & ?). repeat split; [lia|done|]. apply IH; [simpl; lia|done].
Qed.

Lemma separated_sorted_disjoint l : separated l → sorted_disjoint l.
Proof.
  destruct l as [|lo [|hi l]]; simpl; [done..|].
  intros [? ?]. split; [done|]. by apply separated_from_ascending.
Qed.

Lemma separated_from_weaken p p' l :
  p' ≤ p → separated_from p l → separated_from p' l.
Proof. destruct l as [|lo [|hi l]]; simpl; [done..|]. intros ? (? & ? & ?). repeat split; [lia|done..]. Qed.

Lemma separated_separated_from l : separated l ↔ ∃ p, separated_from p l.
Proof.
  destruct l as [|lo [|hi l]]; simpl.
  - split; [by exists 0|done].
  - split; [done|by intros [? ?]].
  - split.
    + intros [? ?]. exists (lo - 2). repeat split; [lia|done..].
    + intros (p & ? & ? & ?). done.
Qed.

Lemma separated_from_pairs p l lo hi :
  separated_from p l → (lo, hi) ∈ pairs l → p + 1 < lo ∧ lo ≤ hi.
Proof.
  revert p. induction l as [l IH] using (induction_ltof1 _ length); unfold ltof in IH.
  destruct l as [|lo0 [|hi0 l]]; simpl; intros p Hasc Hin.
  - by apply elem_of_nil in Hin.
  - done.
  - destruct Hasc as (? & ? & Hasc). apply elem_of_cons in Hin as [[= -> ->]|Hin]; [done|].
    apply (IH l) with (p := hi0) in Hin; [lia|simpl; lia|done].
Qed.

Lemma ascending_from_even p l : ascending_from p l → length l = (2 * length (pairs l))%nat.
Proof.
  revert p. induction l as [l IH] using (induction_ltof1 _ length); unfold ltof in IH.
  destruct l as [|lo0 [|hi0 l]]; simpl; intros p Hasc; [done..|].
  destruct Hasc as (? & ? & Hasc). rewrite (IH l) with (p := hi0); [lia|simpl; lia|done].
Qed.

(** The lower boundaries of a well-formed list are pairwise distinct. *)
Lemma ascending_from_NoDup_lows p l : ascending_from p l → NoDup (pairs l).*1.
Proof.
  revert p. induction l as [l IH] using (induction_ltof1 _ length); unfold ltof in IH.
  destruct l as [|lo0 [|hi0 l]]; simpl; intros p Hasc; [constructor..|].
  destruct Hasc as (? & ? & Hasc). constructor.
  - intros Hin. apply list_elem_of_fmap in Hin as ([lo hi] & -> & Hin).
    apply (ascending_from_pairs _ _ _ _ Hasc) in Hin. simpl in *. lia.
  - apply (IH l) with (p := hi0); [simpl; lia|done].
Qed.

(** In a separated list the character before a lower boundary is not
    covered. *)
Lemma separated_from_gap p l lo hi :
  separated_from p l → (lo, hi) ∈ pairs l → ¬ covers l (lo - 1).
Proof.
  revert p. induction l as [l IH] using (induction_ltof1 _ length); unfold ltof in IH.
  destruct l as [|lo0 [|hi0 l]]; simpl; intros p Hsep Hin.
  - by apply elem_of_nil in Hin.
  - done.
  - destruct Hsep as (? & ? & Hsep). rewrite covers_cons.
    apply elem_of_cons in Hin as [[= -> ->]|Hin].
    + intros [?|Hc]; [lia|].
      apply separated_from_ascending in Hsep.
      apply (ascending_from_covers _ _ _ Hsep) in Hc. lia.
    + intros [?|Hc].
      * apply (separated_from_pairs _ _ _ _ Hsep) in Hin. lia.
      * revert Hc. apply (IH l) with (p := hi0); [simpl; lia|done..].
Qed.

(** A separated list is the shortest well-formed list for its set. *)
Lemma separated_minimal l : separated l → minimal l.
Proof.
  intros Hsep l' Hwf' Hsame.
  apply separated_separated_from in Hsep as [p Hsep].
  apply sorted_disjoint_ascending in Hwf' as [p' Hasc'].
  rewrite (ascending_from_even p l), (ascending_from_even p' l')
    by auto using separated_from_ascending.
  enough (length (pairs l).*1 ≤ length (pairs l').*1)%nat by (rewrite !length_fmap in *; lia).
  apply submseteq_length, NoDup_submseteq.
  { eapply ascending_from_NoDup_lows, separated_from_ascending, Hsep. }
  intros lo Hlo. apply list_elem_of_fmap in Hlo as ([lo_ hi] & -> & Hin). simpl.
  assert (covers l' lo_) as (a & b & Hin' & Hc).
  { apply Hsame. exists lo_, hi. split; [done|].
    apply (separated_from_pairs _ _ _ _ Hsep) in Hin. lia. }
  destruct (decide (a = lo_)) as [->|Hne].
  { apply list_elem_of_fmap. by exists (lo_, b). }
  destruct (separated_from_gap _ _ _ _ Hsep Hin).
  apply Hsame. exists a, b. split; [done|lia].
Qed.

End range_lists.

(** * The merge scan of two range lists *)

Section findOverlap.
Import runerange intersection.

Lemma findOverlap_nil_r range1 : 
  findOverlap range1 [] = match range1 with [_] => Done [] | _ => Done [] end.
Proof. by destruct range1 as [|? [|? ?]]. Qed.

(** One round of the loop: emit the common part of the two current
    ranges, then drop the range that ends first ([range2]'s on a tie). *)
Lemma findOverlap_step lo1 hi1 rest1 lo2 hi2 rest2 :
  findOverlap (lo1 :: hi1 :: rest1) (lo2 :: hi2 :: rest2) =
    result ← (if bool_decide (hi1 < hi2)
              then findOverlap rest1 (lo2 :: hi2 :: rest2)
              else findOverlap (lo1 :: hi1 :: rest1) rest2);
    Done (if bool_decide (Z.max lo1 lo2 ≤ Z.min hi1 hi2)
          then Z.max lo1 lo2 :: Z.min hi1 hi2 :: result else result).
Proof. done. Qed.

Lemma findOverlap_ascending a b pa pb :
  ascending_from pa a → ascending_from pb b →
  ∃ r, findOverlap a b = Done r ∧ ascending_from (Z.max pa pb) r ∧
       ∀ c, covers r c ↔ covers a c ∧ covers b c.
Proof.
  remember (length a + length b)%nat as n eqn:Hn.
  revert a b pa pb Hn. induction (lt_wf n) as [n _ IH].
  intros a b pa pb -> Ha Hb.
  destruct a as [|lo1 [|hi1 rest1]]; [|done|].
  { exists []. split; [by destruct b|]. split; [done|]. intros c.
    split; [by intros ?%covers_nil|by intros [?%covers_nil _]]. }
  destruct b as [|lo2 [|hi2 rest2]]; [|done|].
  { exists []. split; [done|]. split; [done|]. intros c.
    split; [by intros ?%covers_nil|by intros [_ ?%covers_nil]]. }
  rewrite findOverlap_step.
  destruct Ha as (Hpa & Hlo1 & Ha), Hb as (Hpb & Hlo2 & Hb).
  destruct (bool_decide_reflect (hi1 < hi2)) as [Hend|Hend].
  - (* range1 ends first *)
    destruct (IH (length rest1 + length (lo2 :: hi2 :: rest2))%nat ltac:(simpl; lia)
                rest1 (lo2 :: hi2 :: rest2) hi1 pb eq_refl)
      as (r & -> & Hr & Hcov); [done|by repeat split|].
    simpl. eexists; split; [done|]. split.
    + case_bool_decide.
      * repeat split; [lia..|]. eapply ascending_from_weaken, Hr. lia.
      * eapply ascending_from_weaken, Hr. lia.
    + intros c. specialize (Hcov c).
      pose proof (ascending_from_covers _ _ c Ha) as HA.
      pose proof (ascending_from_covers _ _ c Hb) as HB.
      rewrite covers_cons in Hcov.
      case_bool_decide; rewrite !covers_cons, Hcov; clear Hcov; intuition lia.
  - (* range2 ends first, or both end together *)
    destruct (IH (length (lo1 :: hi1 :: rest1) + length rest2)%nat ltac:(simpl; lia)
                (lo1 :: hi1 :: rest1) rest2 pa hi2 eq_refl)
      as (r & -> & Hr & Hcov); [by repeat split|done|].
    simpl. eexists; split; [done|]. split.
    + case_bool_decide.
      * repeat split; [lia..|]. eapply ascending_from_weaken, Hr. lia.
      * eapply ascending_from_weaken, Hr. lia.
    + intros c. specialize (Hcov c).
      pose proof (ascending_from_covers _ _ c Ha) as HA.
      pose proof (ascending_from_covers _ _ c Hb) as HB.
      rewrite covers_cons in Hcov.
      case_bool_decide; rewrite !covers_cons, Hcov; clear Hcov; intuition lia.
Qed.

Lemma findOverlap_separated a b pa pb r :
  separated_from pa a → separated_from pb b →
  findOverlap a b = Done r → separated_from (Z.max pa pb) r.
Proof.
  remember (length a + length b)%nat as n eqn:Hn.
  revert a b pa pb r Hn. induction (lt_wf n) as [n _ IH].
  intros a b pa pb r -> Ha Hb.
  destruct a as [|lo1 [|hi1 rest1]]; [|done|].
  { destruct b as [|? [|? ?]]; by intros [= <-]. }
  destruct b as [|lo2 [|hi2 rest2]]; [|done|].
  { by intros [= <-]. }
  rewrite findOverlap_step. intros Hr. inv_res. subst r.
  destruct Ha as (Hpa & Hlo1 & Ha), Hb as (Hpb & Hlo2 & Hb).
  destruct (bool_decide_reflect (hi1 < hi2)) as [Hend|Hend].
  - apply (IH (length rest1 + length (lo2 :: hi2 :: rest2))%nat ltac:(simpl; lia)
              _ _ hi1 pb _ eq_refl) in H; [|done|by repeat split].
    case_bool_decide.
    + repeat split; [lia..|]. eapply separated_from_weaken, H. lia.
    + eapply separated_from_weaken, H. lia.
  - apply (IH (length (lo1 :: hi1 :: rest1) + length rest2)%nat ltac:(simpl; lia)
              _ _ pa hi2 _ eq_refl) in H; [|by repeat split|done].
    case_bool_decide.
    + repeat split; [lia..|]. eapply separated_from_weaken, H. lia.
    + eapply separated_from_weaken, H. lia.
Qed.

Lemma findOverlap_covers a b :
  sorted_disjoint a → sorted_disjoint b →
  ∃ r, findOverlap a b = Done r ∧ sorted_disjoint r ∧
       ∀ c, covers r c ↔ covers a c ∧ covers b c.
Proof.
  intros [pa Ha]%sorted_disjoint_ascending [pb Hb]%sorted_disjoint_ascending.
  destruct (findOverlap_ascending a b pa pb Ha Hb) as (r & Hr & Hasc & Hcov).
  exists r. split; [done|]. split; [|done].
  apply sorted_disjoint_ascending. by eexists.
Qed.

(** C8 (as amended): on two sorted disjoint range lists [findOverlap]
    returns a sorted disjoint range list that covers exactly the
    characters covered by both; the result uses as few ranges as
    possible when no input list has two ranges that touch; and every
    round of the walk drops the current range that ends first (the one
    of the second list when both end together). *)
Theorem findOverlap_correct a b :
  sorted_disjoint a → sorted_disjoint b →
  ∃ r, findOverlap a b = Done r ∧
       sorted_disjoint r ∧
       (∀ c, covers r c ↔ covers a c ∧ covers b c) ∧
       (separated a → separated b → minimal r) ∧
       (∀ lo1 hi1 a' lo2 hi2 b',
          a = lo1 :: hi1 :: a' → b = lo2 :: hi2 :: b' →
          ∃ rest,
            (if decide (hi1 < hi2) then findOverlap a' b else findOverlap a b')
              = Done rest ∧
            r = (if decide (Z.max lo1 lo2 ≤ Z.min hi1 hi2)
                 then [Z.max lo1 lo2; Z.min hi1 hi2] else []) ++ rest).
Proof.
  intros Ha Hb.
  pose proof Ha as [pa Ha']%sorted_disjoint_ascending.
  pose proof Hb as [pb Hb']%sorted_disjoint_ascending.
  destruct (findOverlap_ascending a b pa pb Ha' Hb') as (r & Hr & Hasc & Hcov).
  exists r. split; [done|]. split; [|split; [done|split]].
  - apply sorted_disjoint_ascending. by eexists.
  - intros [pa2 Hsa]%separated_separated_from [pb2 Hsb]%separated_separated_from.
    apply separated_minimal, separated_separated_from.
    eexists. eapply findOverlap_separated; [exact Hsa|exact Hsb|exact Hr].
  - intros lo1 hi1 a' lo2 hi2 b' -> ->.
    rewrite findOverlap_step in Hr. inv_res. subst r.
    clear Hcov Hasc. exists x. split.
    + destruct (decide (hi1 < hi2)).
      * by rewrite bool_decide_eq_true_2 in H.
      * by rewrite bool_decide_eq_false_2 in H.
    + destruct (decide (Z.max lo1 lo2 ≤ Z.min hi1 hi2)).
      * by rewrite bool_decide_eq_true_2.
      * by rewrite bool_decide_eq_false_2.
Qed.

Lemma findOverlap_correct_witness :
  ∃ r, findOverlap [1; 3; 5; 9] [2; 6] = Done r ∧
       sorted_disjoint r ∧
       (∀ c, covers r c ↔ covers [1; 3; 5; 9] c ∧ covers [2; 6] c) ∧
       (separated [1; 3; 5; 9] → separated [2; 6] → minimal r) ∧
       (∀ lo1 hi1 a' lo2 hi2 b',
          [1; 3; 5; 9] = lo1 :: hi1 :: a' → [2; 6] = lo2 :: hi2 :: b' →
          ∃ rest,
            (if decide (hi1 < hi2) then findOverlap a' [2; 6]
             else findOverlap [1; 3; 5; 9] b') = Done rest ∧
            r = (if decide (Z.max lo1 lo2 ≤ Z.min hi1 hi2)
                 then [Z.max lo1 lo2; Z.min hi1 hi2] else []) ++ rest).
Proof. apply (findOverlap_correct [1; 3; 5; 9] [2; 6]); simpl; lia. Defined.

Example findOverlap_example : findOverlap [1; 3; 5; 9] [2; 6] = Done [2; 3; 5; 6].
Proof. reflexivity. Qed.

(** C8 as stated fails: the result need not be minimal.  The ranges
    [1,2] and [3,4] touch, both lie in [1,4], and the scan returns them
    as two ranges where the single range [1,4] covers the same set. *)
Lemma findOverlap_not_minimal :
  sorted_disjoint [1; 2; 3; 4] ∧ sorted_disjoint [1; 4] ∧
  findOverlap [1; 2; 3; 4] [1; 4] = Done [1; 2; 3; 4] ∧
  ¬ minimal [1; 2; 3; 4].
Proof.
  split; [simpl; lia|]. split; [simpl; lia|]. split; [reflexivity|].
  intros Hmin. specialize (Hmin [1; 4]). simpl in Hmin.
  enough (4 ≤ 2)%nat by lia. apply Hmin; [lia|].
  intros c. rewrite !covers_cons. pose proof (covers_nil c). intuition lia.
Qed.

(** An odd boundary left over at the end of a slice is read past the
    end. *)
Example findOverlap_odd_panics : findOverlap [5] [1; 2] = Panic.
Proof. reflexivity. Qed.

End findOverlap.

(** * Single nodes of a DFA: [NextState] and [Print] *)

Section node.
Import runerange dfa.

Lemma transitions_disjoint_spec ts :
  transitions_disjoint ts = true ↔
  ∀ i j t t' c, ts !! i = Some t → ts !! j = Some t' →
                covers (RuneRanges t) c → covers (RuneRanges t') c → i = j.
Proof.
  induction ts as [|t0 ts IH]; simpl.
  { split; [|done]. intros _ i j t t' c Hi. by rewrite lookup_nil in Hi. }
  rewrite andb_true_iff, forallb_forall, IH. split.
  - intros [Hhd Htl] i j t t' c Hi Hj Hc Hc'.
    destruct i as [|i], j as [|j]; simpl in *; simplify_eq.
    + done.
    + apply list_elem_of_lookup_2, list_elem_of_In, Hhd, negb_true_iff in Hj.
      apply not_true_iff_false in Hj. destruct Hj. apply Overlaps_spec. eauto.
    + apply list_elem_of_lookup_2, list_elem_of_In, Hhd, negb_true_iff in Hi.
      apply not_true_iff_false in Hi. destruct Hi. apply Overlaps_spec. eauto.
    + f_equal. eauto.
  - intros Hall. split.
    + intros t' [j Hj]%list_elem_of_In%list_elem_of_lookup.
      apply negb_true_iff, not_true_iff_false. intros (c & Hc & Hc')%Overlaps_spec.
      by specialize (Hall 0%nat (S j) t0 t' c eq_refl Hj Hc Hc').
    + intros i j t t' c Hi Hj Hc Hc'.
      by specialize (Hall (S i) (S j) t t' c Hi Hj Hc Hc') as [= ->].
Qed.

Lemma NextState_loop_Some ts r m :
  NextState_loop ts r = Some m ↔
  ∃ ts1 t ts2, ts = ts1 ++ t :: ts2 ∧
    Forall (λ t', Contains (RuneRanges t') r = false) ts1 ∧
    Contains (RuneRanges t) r = true ∧ m = T_Node t.
Proof.
  induction ts as [|t0 ts IH]; simpl.
  { split; [done|]. intros (ts1 & t & ts2 & Heq & _). by destruct ts1. }
  destruct (Contains (RuneRanges t0) r) eqn:Ht0.
  - split.
    + intros [= <-]. by exists [], t0, ts.
    + intros (ts1 & t & ts2 & Heq & Hno & Hyes & ->).
      destruct ts1 as [|t1 ts1]; simplify_eq/=; [done|].
      apply Forall_cons in Hno as [? _]. congruence.
  - rewrite IH. split.
    + intros (ts1 & t & ts2 & -> & Hno & Hyes & ->).
      exists (t0 :: ts1), t, ts2. split; [done|]. split; [by constructor|done].
    + intros (ts1 & t & ts2 & Heq & Hno & Hyes & ->).
      destruct ts1 as [|t1 ts1]; simplify_eq/=; [congruence|].
      apply Forall_cons in Hno as [_ Hno]. by exists ts1, t, ts2.
Qed.

Lemma NextState_loop_None ts r :
  NextState_loop ts r = None ↔ Forall (λ t, Contains (RuneRanges t) r = false) ts.
Proof.
  induction ts as [|t0 ts IH]; simpl; [by split|].
  rewrite Forall_cons. destruct (Contains (RuneRanges t0) r); [|by rewrite IH; intuition].
  split; [done|by intros [? _]].
Qed.

(** C10: [NextState] returns the target of the first transition whose
    range list contains the probe, and [nil] exactly when no range list
    contains it; it is a total function.  When the transitions of the
    node are pairwise disjoint, at most one of them contains a
    single-character probe. *)
Theorem NextState_first_match (n : Node) (r : list rune) :
  (∀ m, NextState n r = Some m ↔
        ∃ ts1 t ts2, Transitions n = ts1 ++ t :: ts2 ∧
          Forall (λ t', Contains (RuneRanges t') r = false) ts1 ∧
          Contains (RuneRanges t) r = true ∧ m = T_Node t) ∧
  (NextState n r = None ↔
     Forall (λ t, Contains (RuneRanges t) r = false) (Transitions n)) ∧
  (transitions_disjoint (Transitions n) = true →
   ∀ c i j t t', r = [c; c] →
     Transitions n !! i = Some t → Transitions n !! j = Some t' →
     Contains (RuneRanges t) r = true → Contains (RuneRanges t') r = true →
     i = j).
Proof.
  split; [|split].
  - intros m. apply NextState_loop_Some.
  - apply NextState_loop_None.
  - intros Hdisj c i j t t' -> Hi Hj Hc Hc'.
    apply Contains_char in Hc, Hc'.
    eapply transitions_disjoint_spec; eauto.
Qed.

Lemma NextState_first_match_witness :
  NextState examples.example_node [98; 98] = Some 2%nat ∧
  ∀ c i j t t', [98; 98] = [c; c] →
     Transitions examples.example_node !! i = Some t →
     Transitions examples.example_node !! j = Some t' →
     Contains (RuneRanges t) [98; 98] = true →
     Contains (RuneRanges t') [98; 98] = true →
     i = j.
Proof.
  split; [reflexivity|].
  apply (NextState_first_match examples.example_node [98; 98]). reflexivity.
Defined.

Example NextState_no_match : NextState examples.example_node [100; 100] = None.
Proof. reflexivity. Qed.

(** *** Print *)

(** C9 fails on the code: [Print] reads and writes the package-level
    map [visited], which no call resets.  The first call on a root
    prints the root, its transition and the target; the same call
    repeated finds the target marked and prints the root alone. *)
Theorem Print_keeps_visited_across_calls :
  ∃ visited1 out1 out2,
    Print 2 examples.printed_arena examples.printed_root (∅, []) = Done (visited1, out1) ∧
    Print 2 examples.printed_arena examples.printed_root (visited1, []) = Done (visited1, out2) ∧
    length out1 = 3%nat ∧ length out2 = 1%nat ∧ visited1 = {[ 1%nat ]}.
Proof.
  eexists _, _, _. split; [vm_compute; reflexivity|].
  split; [vm_compute; reflexivity|]. split; [reflexivity|]. split; [reflexivity|].
  vm_compute. reflexivity.
Qed.
End node.

(** * The search over the product automaton *)

Section overlap_ranges.
Import runerange intersection.

Lemma findOverlap_paired a b :
  paired a → paired b → ∃ r, findOverlap a b = Done r.
Proof.
  unfold paired.
  remember (length a + length b)%nat as n eqn:Hn.
  revert a b Hn. induction (lt_wf n) as [n _ IH].
  intros a b -> Ha Hb.
  destruct a as [|lo1 [|hi1 rest1]]; [by exists []; destruct b|done|].
  destruct b as [|lo2 [|hi2 rest2]]; [by exists []|done|].
  rewrite findOverlap_step.
  destruct (bool_decide (hi1 < hi2)).
  - destruct (IH (length rest1 + length (lo2 :: hi2 :: rest2))%nat ltac:(simpl; lia)
                rest1 (lo2 :: hi2 :: rest2) eq_refl) as [r ->]; [done..|].
    simpl. eauto.
  - destruct (IH (length (lo1 :: hi1 :: rest1) + length rest2)%nat ltac:(simpl; lia)
                (lo1 :: hi1 :: rest1) rest2 eq_refl) as [r ->]; [done..|].
    simpl. eauto.
Qed.

Lemma sorted_disjoint_paired l : sorted_disjoint l → paired l.
Proof.
  intros [p Hp]%sorted_disjoint_ascending. unfold paired.
  rewrite (ascending_from_even _ _ Hp), Nat.even_mul. done.
Qed.

Lemma findOverlapRanges_inner_Done t1 trans2 :
  paired (dfa.RuneRanges t1) → Forall (λ t, paired (dfa.RuneRanges t)) trans2 →
  ∃ rs, findOverlapRanges_inner t1 trans2 = Done rs.
Proof.
  intros H1. induction 1 as [|t2 trans2 H2 _ [rs IH]]; simpl; [by eauto|].
  destruct (Overlaps _ _); [|by eauto].
  destruct (findOverlap_paired _ _ H1 H2) as [r ->]. rewrite IH. simpl. eauto.
Qed.

Lemma findOverlapRanges_Done trans1 trans2 :
  Forall (λ t, paired (dfa.RuneRanges t)) trans1 →
  Forall (λ t, paired (dfa.RuneRanges t)) trans2 →
  ∃ rs, findOverlapRanges trans1 trans2 = Done rs.
Proof.
  intros H1 H2. induction H1 as [|t1 trans1 Ht1 _ [rs IH]]; simpl; [by eauto|].
  destruct (findOverlapRanges_inner_Done t1 trans2 Ht1 H2) as [here ->].
  rewrite IH. simpl. eauto.
Qed.

Lemma findNextNodes_elem_of n r m :
  m ∈ findNextNodes n r ↔
  ∃ t, t ∈ dfa.Transitions n ∧ Overlaps (dfa.RuneRanges t) r = true ∧ m = dfa.T_Node t.
Proof.
  unfold findNextNodes. rewrite list_elem_of_fmap. split.
  - intros (t & -> & [? ?]%list_elem_of_filter). eauto.
  - intros (t & ? & ? & ->). exists t. split; [done|]. by apply list_elem_of_filter.
Qed.
End overlap_ranges.

Section search.
Import runerange intersection.
Context (h1 h2 : dfa.arena).

#[local] Abbreviation nodeName := (nodeName h1 h2).
#[local] Abbreviation createNode := (createNode h1 h2).
#[local] Abbreviation node_ok := (node_ok h1 h2).
#[local] Abbreviation step := (step h1 h2).

Lemma nodeName_Done a b nm :
  nodeName a b = Done nm ↔
  ∃ n1 n2, h1 !! a = Some n1 ∧ h2 !! b = Some n2 ∧ nm = name_of n1 n2.
Proof.
  unfold nodeName, name_of. split.
  - intros Hn. inv_res. eauto 6.
  - intros (n1 & n2 & H1 & H2 & ->). unfold deref. by rewrite H1, H2.
Qed.

Lemma createNode_Done a b cn :
  createNode a b = Done cn ↔
  ∃ n1 n2, h1 !! a = Some n1 ∧ h2 !! b = Some n2 ∧
    cn = {| Name := name_of n1 n2; Final := dfa.Final n1 && dfa.Final n2;
            Node1 := a; Node2 := b |}.
Proof.
  unfold createNode. split.
  - intros Hn. inv_res. apply nodeName_Done in H as (n1 & n2 & ? & ? & ->).
    simplify_eq. eauto 6.
  - intros (n1 & n2 & H1 & H2 & ->).
    assert (nodeName a b = Done (name_of n1 n2)) as -> by (apply nodeName_Done; eauto).
    unfold deref. by rewrite H1, H2.
Qed.

Lemma createNode_ok a b cn :
  createNode a b = Done cn → node_ok cn ∧ pair_of cn = (a, b).
Proof.
  intros (n1 & n2 & ? & ? & ->)%createNode_Done. split; [|done].
  exists n1, n2. done.
Qed.

Lemma node_ok_name cn :
  node_ok cn → ∃ nm, nodeName (Node1 cn) (Node2 cn) = Done nm ∧ nm ∈ all_names h1 h2.
Proof.
  intros (n1 & n2 & H1 & H2 & _). exists (name_of n1 n2). split.
  { apply nodeName_Done. eauto. }
  unfold all_names. apply elem_of_list_to_set, list_elem_of_bind.
  exists n1. split.
  - apply list_elem_of_bind. exists n2. split; [by left|].
    apply list_elem_of_fmap. exists (Node2 cn, n2). split; [done|].
    by apply elem_of_map_to_list.
  - apply list_elem_of_fmap. exists (Node1 cn, n1). split; [done|].
    by apply elem_of_map_to_list.
Qed.

Lemma size_all_names : (size (all_names h1 h2) ≤ size h1 * size h2)%nat.
Proof.
  unfold all_names. etrans; [apply size_list_to_set_le|].
  rewrite <-!length_map_to_list.
  rewrite <-(length_fmap snd (map_to_list h1)), <-(length_fmap snd (map_to_list h2)).
  generalize ((map_to_list h1).*2) ((map_to_list h2).*2). intros l1 l2.
  induction l1 as [|x l1 IH]; [done|].
  rewrite bind_cons, length_app. simpl length. apply Nat.add_le_mono; [|done].
  clear. induction l2 as [|y l2 IH]; [done|].
  rewrite bind_cons. simpl. lia.
Qed.

(** *** The nodes pushed by one expansion *)

Lemma res_bind_Done_r {A} (m : res A) : m ≫= Done = m.
Proof. by destruct m. Qed.

Lemma push_list_app visited l l' :
  push_list h1 h2 visited (l ++ l') =
    a ← push_list h1 h2 visited l; b ← push_list h1 h2 visited l'; Done (a ++ b).
Proof.
  induction l as [|q l IH]; simpl.
  { by destruct (push_list _ _ _ l'). }
  destruct (createNode q.1 q.2); simpl; try done.
  destruct (nodeName q.1 q.2); simpl; try done.
  rewrite IH. destruct (push_list _ _ _ l); simpl; try done.
  destruct (push_list _ _ _ l'); simpl; try done.
  by case_decide.
Qed.

Lemma push_pairs_2_eq visited a l2 :
  push_pairs_2 h1 h2 visited a l2 = push_list h1 h2 visited (m2 ← l2; [(a, m2)]).
Proof. induction l2 as [|b l2 IH]; simpl; [done|]. by rewrite IH. Qed.

Lemma push_pairs_eq visited l1 l2 :
  push_pairs h1 h2 visited l1 l2 =
    push_list h1 h2 visited (m1 ← l1; m2 ← l2; [(m1, m2)]).
Proof.
  induction l1 as [|a l1 IH]; simpl; [done|].
  by rewrite push_list_app, push_pairs_2_eq, IH.
Qed.

Lemma push_ranges_eq visited n1 n2 ranges :
  push_ranges h1 h2 visited n1 n2 ranges =
    push_list h1 h2 visited (candidates n1 n2 ranges).
Proof.
  unfold candidates. induction ranges as [|r ranges IH]; simpl; [done|].
  by rewrite push_list_app, push_pairs_eq, IH.
Qed.

Lemma push_list_spec visited qs out :
  push_list h1 h2 visited qs = Done out →
  Forall node_ok out ∧
  (∀ cn, cn ∈ out → pair_of cn ∈ qs ∧
     ∃ nm, nodeName (Node1 cn) (Node2 cn) = Done nm ∧ nm ∉ visited) ∧
  (∀ q, q ∈ qs → ∃ nm, nodeName q.1 q.2 = Done nm ∧
     (nm ∈ visited ∨ ∃ cn, cn ∈ out ∧ pair_of cn = q)).
Proof.
  revert out. induction qs as [|q qs IH]; simpl; intros out Hout.
  { inv_res. subst out. split; [constructor|]. split; intros ? []%elem_of_nil. }
  apply bind_Done in Hout as (cn & Hcn & Hout).
  apply bind_Done in Hout as (nm & Hnm & Hout).
  apply bind_Done in Hout as (rest & Hrest & [= <-]).
  destruct (IH rest) as (IH1 & IH2 & IH3); [done|].
  pose proof (createNode_ok _ _ _ Hcn) as [Hok Hpair].
  assert (nodeName (Node1 cn) (Node2 cn) = Done nm) as Hnm'.
  { by apply createNode_Done in Hcn as (? & ? & ? & ? & ->). } split; [|split].
  - case_decide; [done|by constructor].
  - intros cn' Hin.
    assert (cn' = cn ∧ nm ∉ visited ∨ cn' ∈ rest) as [[-> ?]|Hin'].
    { case_decide; [by right|]. apply elem_of_cons in Hin as [->|?]; auto. }
    + split; [rewrite Hpair; destruct q; left|]; eauto.
    + destruct (IH2 _ Hin') as [? ?]. split; [by right|done].
  - intros q' [->|Hin]%elem_of_cons.
    + exists nm. split; [done|]. case_decide; [by left|]. right. exists cn.
      split; [left|by destruct q].
    + destruct (IH3 _ Hin) as (nm' & ? & [?|(cn' & ? & ?)]); exists nm'; (split; [done|]).
      * by left.
      * right. exists cn'. split; [|done]. case_decide; [done|by right].
Qed.

Lemma push_list_Done visited qs :
  Forall (λ q, is_Some (h1 !! q.1) ∧ is_Some (h2 !! q.2)) qs →
  ∃ out, push_list h1 h2 visited qs = Done out.
Proof.
  induction 1 as [|q qs [[n1 Hn1] [n2 Hn2]] _ [out IH]]; simpl; [by eauto|].
  unfold createNode, intersection.nodeName, deref. rewrite Hn1, Hn2, IH. simpl. eauto.
Qed.

Lemma elem_of_candidates n1 n2 ranges q :
  q ∈ candidates n1 n2 ranges ↔
  ∃ r, r ∈ ranges ∧ q.1 ∈ findNextNodes n1 (Range r) ∧ q.2 ∈ findNextNodes n2 (Range r).
Proof.
  unfold candidates. rewrite list_elem_of_bind. split.
  - intros (r & Hq & Hr). exists r. split; [done|].
    apply list_elem_of_bind in Hq as (m1 & Hq & Hm1).
    apply list_elem_of_bind in Hq as (m2 & Hq & Hm2).
    apply list_elem_of_singleton in Hq as ->. done.
  - intros (r & Hr & H1 & H2). exists r. split; [|done].
    apply list_elem_of_bind. exists q.1. split; [|done].
    apply list_elem_of_bind. exists q.2. split; [|done].
    destruct q. by left.
Qed.

(** *** Pair-ids identify pairs *)

Lemma name_of_inj n1 n2 m1 m2 :
  name_of n1 n2 = name_of m1 m2 →
  dfa.State n1 = dfa.State m1 ∧ dfa.State n2 = dfa.State m2.
Proof.
  unfold name_of. intros Heq.
  apply app_separator_inj in Heq as [?%(inj pretty) ?%(inj pretty)];
    auto using pretty_Z_no_underscore.
Qed.

Lemma nodeName_inj a b a' b' nm :
  dfa.states_unique h1 → dfa.states_unique h2 →
  nodeName a b = Done nm → nodeName a' b' = Done nm → (a, b) = (a', b').
Proof.
  intros Hu1 Hu2 (n1 & n2 & ? & ? & ->)%nodeName_Done
    (m1 & m2 & ? & ? & [? ?]%name_of_inj)%nodeName_Done.
  f_equal; [eapply Hu1|eapply Hu2]; eauto.
Qed.

(** *** One round of the loop *)

Lemma dfs_step_false s s' :
  dfs_step h1 h2 s = Done (inl (false, s')) ↔ stack s = [] ∧ s' = s.
Proof.
  unfold dfs_step. destruct (stack s) as [|cn st] eqn:Hst.
  { split; [by intros [= ->]|by intros [_ ->]]. }
  split; [|by intros [? _]]. intros Hstep.
  apply bind_Done in Hstep as (nm & Hnm & Hstep).
  case_decide; [done|]. destruct (Final cn); [done|].
  apply bind_Done in Hstep as (n1 & _ & Hstep).
  apply bind_Done in Hstep as (n2 & _ & Hstep).
  apply bind_Done in Hstep as (rs & _ & Hstep).
  by apply bind_Done in Hstep as (pushed & _ & Hstep).
Qed.

Lemma dfs_step_final s cn st nm :
  stack s = cn :: st → nodeName (Node1 cn) (Node2 cn) = Done nm →
  nm ∉ visited s → Final cn = true →
  dfs_step h1 h2 s =
    Done (inl (true, {| stack := st; visited := {[nm]} ∪ visited s;
                        nodeMap := <[nm := cn]> (nodeMap s) |})).
Proof.
  intros Hst Hnm Hnv Hfin. unfold dfs_step. rewrite Hst, Hnm. simpl.
  rewrite decide_False by done. by rewrite Hfin.
Qed.

Lemma dfs_step_visited s cn st nm :
  stack s = cn :: st → nodeName (Node1 cn) (Node2 cn) = Done nm →
  nm ∈ visited s →
  dfs_step h1 h2 s =
    Done (inr {| stack := st; visited := visited s; nodeMap := nodeMap s |}).
Proof.
  intros Hst Hnm Hv. unfold dfs_step. rewrite Hst, Hnm. simpl.
  by rewrite decide_True by done.
Qed.

Lemma dfs_step_expand s cn st nm n1 n2 ranges pushed :
  stack s = cn :: st → nodeName (Node1 cn) (Node2 cn) = Done nm →
  nm ∉ visited s → Final cn = false →
  h1 !! Node1 cn = Some n1 → h2 !! Node2 cn = Some n2 →
  findOverlapRanges (dfa.Transitions n1) (dfa.Transitions n2) = Done ranges →
  push_list h1 h2 ({[nm]} ∪ visited s) (candidates n1 n2 ranges) = Done pushed →
  dfs_step h1 h2 s =
    Done (inr {| stack := reverse pushed ++ st; visited := {[nm]} ∪ visited s;
                 nodeMap := <[nm := cn]> (nodeMap s) |}).
Proof.
  intros Hst Hnm Hnv Hfin Hn1 Hn2 Hrs Hpush. unfold dfs_step, deref.
  rewrite Hst, Hnm. simpl. rewrite decide_False by done.
  rewrite Hfin, Hn1, Hn2. simpl. rewrite Hrs. simpl.
  by rewrite push_ranges_eq, Hpush.
Qed.

Lemma dfs_step_visited_mono s r :
  dfs_step h1 h2 s = Done r →
  visited s ⊆ visited (match r with inl (_, s') => s' | inr s' => s' end).
Proof.
  unfold dfs_step. destruct (stack s) as [|cn st]; [by intros [= <-]|].
  intros Hstep. apply bind_Done in Hstep as (nm & Hnm & Hstep).
  case_decide; [by injection Hstep as <-|].
  destruct (Final cn); [injection Hstep as <-; set_solver|].
  apply bind_Done in Hstep as (n1 & _ & Hstep).
  apply bind_Done in Hstep as (n2 & _ & Hstep).
  apply bind_Done in Hstep as (rs & _ & Hstep).
  apply bind_Done in Hstep as (pushed & _ & [= <-]). set_solver.
Qed.

(** The pair-ids marked by a run: each is marked once, and together
    with the ones marked before they are the final [visited]. *)
Lemma dfs_marks_spec fuel s b s' :
  dfs_loop h1 h2 fuel s = Done (b, s') →
  NoDup (dfs_marks h1 h2 fuel s) ∧
  visited s' = list_to_set (dfs_marks h1 h2 fuel s) ∪ visited s ∧
  (∀ nm, nm ∈ dfs_marks h1 h2 fuel s → nm ∉ visited s).
Proof.
  revert s. induction fuel as [|fuel IH]; intros s; [done|]. simpl.
  destruct (dfs_step h1 h2 s) as [[[b0 s0]|s0]| | |] eqn:Hstep; simpl; try done.
  - intros [= -> ->]. apply dfs_step_visited_mono in Hstep. simpl in Hstep.
    split; [apply NoDup_elements|]. split.
    + rewrite list_to_set_elements_L. apply set_eq. intros x.
      destruct (decide (x ∈ visited s)); set_solver.
    + intros nm. rewrite elem_of_elements. set_solver.
  - intros Hloop. apply dfs_step_visited_mono in Hstep. simpl in Hstep.
    destruct (IH _ Hloop) as (Hnd & Hvis & Hnew).
    split; [|split].
    + apply NoDup_app. split; [apply NoDup_elements|]. split; [|done].
      intros nm Hnm%elem_of_elements Hnm'%Hnew. set_solver.
    + rewrite Hvis, list_to_set_app_L, list_to_set_elements_L.
      apply set_eq. intros x. destruct (decide (x ∈ visited s)); set_solver.
    + intros nm [Hnm%elem_of_elements|Hnm%Hnew]%elem_of_app; set_solver.
Qed.

Section well_formed.
Hypothesis Hclosed1 : dfa.closed h1.
Hypothesis Hclosed2 : dfa.closed h2.
Hypothesis Hpaired1 : dfa.ranges_paired h1.
Hypothesis Hpaired2 : dfa.ranges_paired h2.

Lemma findOverlapRanges_arena a b n1 n2 :
  h1 !! a = Some n1 → h2 !! b = Some n2 →
  ∃ ranges, findOverlapRanges (dfa.Transitions n1) (dfa.Transitions n2) = Done ranges.
Proof.
  intros Hn1 Hn2. apply findOverlapRanges_Done.
  - exact (Hpaired1 _ _ Hn1).
  - exact (Hpaired2 _ _ Hn2).
Qed.

Lemma candidates_arena a b n1 n2 ranges :
  h1 !! a = Some n1 → h2 !! b = Some n2 →
  Forall (λ q, is_Some (h1 !! q.1) ∧ is_Some (h2 !! q.2)) (candidates n1 n2 ranges).
Proof.
  intros Hn1 Hn2. apply Forall_forall. intros q (r & _ & Hq1 & Hq2)%elem_of_candidates.
  apply findNextNodes_elem_of in Hq1 as (t1 & Ht1 & _ & ->).
  apply findNextNodes_elem_of in Hq2 as (t2 & Ht2 & _ & ->).
  pose proof (Hclosed1 _ _ Hn1) as Hc1. pose proof (Hclosed2 _ _ Hn2) as Hc2.
  rewrite Forall_forall in Hc1, Hc2. auto.
Qed.

(** A round on a well-formed state never panics; these are its cases. *)
Lemma dfs_step_cases s :
  Forall node_ok (stack s) →
  (stack s = [] ∧ dfs_step h1 h2 s = Done (inl (false, s))) ∨
  ∃ cn st nm, stack s = cn :: st ∧ node_ok cn ∧ Forall node_ok st ∧
    nodeName (Node1 cn) (Node2 cn) = Done nm ∧ nm ∈ all_names h1 h2 ∧
    ((nm ∈ visited s ∧
      dfs_step h1 h2 s =
        Done (inr {| stack := st; visited := visited s; nodeMap := nodeMap s |})) ∨
     (nm ∉ visited s ∧ Final cn = true ∧
      dfs_step h1 h2 s =
        Done (inl (true, {| stack := st; visited := {[nm]} ∪ visited s;
                            nodeMap := <[nm := cn]> (nodeMap s) |}))) ∨
     (nm ∉ visited s ∧ Final cn = false ∧
      ∃ n1 n2 ranges pushed,
        h1 !! Node1 cn = Some n1 ∧ h2 !! Node2 cn = Some n2 ∧
        successors h1 h2 (pair_of cn) = Done (candidates n1 n2 ranges) ∧
        push_list h1 h2 ({[nm]} ∪ visited s) (candidates n1 n2 ranges) = Done pushed ∧
        dfs_step h1 h2 s =
          Done (inr {| stack := reverse pushed ++ st; visited := {[nm]} ∪ visited s;
                       nodeMap := <[nm := cn]> (nodeMap s) |}))).
Proof.
  intros Hok. destruct (stack s) as [|cn st] eqn:Hst.
  { left. split; [done|]. unfold dfs_step. by rewrite Hst. }
  right. apply Forall_cons in Hok as [Hcn Hst_ok].
  destruct (node_ok_name _ Hcn) as (nm & Hnm & Hall).
  exists cn, st, nm. do 5 (split; [done|]).
  destruct (decide (nm ∈ visited s)) as [Hv|Hv].
  { left. split; [done|]. by eapply dfs_step_visited. }
  right. destruct (Final cn) eqn:Hfin.
  { left. do 2 (split; [done|]). by eapply dfs_step_final. }
  right. do 2 (split; [done|]).
  destruct Hcn as (n1 & n2 & Hn1 & Hn2 & _).
  destruct (findOverlapRanges_arena _ _ _ _ Hn1 Hn2) as [ranges Hrs].
  destruct (push_list_Done ({[nm]} ∪ visited s) (candidates n1 n2 ranges))
    as [pushed Hpush]; [by eapply candidates_arena|].
  exists n1, n2, ranges, pushed. do 2 (split; [done|]). split.
  { unfold successors, deref. simpl. rewrite Hn1, Hn2. simpl. by rewrite Hrs. }
  split; [done|]. by eapply dfs_step_expand.
Qed.

(** *** Termination *)

Lemma dfs_loop_mono fuel fuel' s r :
  dfs_loop h1 h2 fuel s = Done r → (fuel ≤ fuel')%nat →
  dfs_loop h1 h2 fuel' s = Done r.
Proof.
  revert fuel' s. induction fuel as [|fuel IH]; intros fuel' s; [done|].
  intros Hloop Hle. destruct fuel' as [|fuel']; [lia|]. simpl in *.
  destruct (dfs_step h1 h2 s) as [[out|s']| | |]; simpl in *; try done.
  apply IH; [done|lia].
Qed.

Lemma dfs_loop_terminates n s :
  Forall node_ok (stack s) →
  (size (all_names h1 h2 ∖ visited s) ≤ n)%nat →
  ∃ fuel b s', dfs_loop h1 h2 fuel s = Done (b, s').
Proof.
  revert s. induction n as [n IHn] using lt_wf_ind. intros s.
  remember (stack s) as st eqn:Hst. revert s Hst.
  induction st as [|cn st IHst]; intros s Hst Hok Hsize.
  { exists 1%nat, false, s. simpl. unfold dfs_step. by rewrite <-Hst. }
  destruct (dfs_step_cases s) as [[Hnil _]|Hcase]; [by rewrite <-Hst|congruence|].
  destruct Hcase as (cn' & st' & nm & Hst' & Hcn & Hst_ok & Hnm & Hall & Hcase).
  rewrite <-Hst in Hst'. injection Hst' as <- <-.
  destruct Hcase as [(Hv & Hstep)|[(Hv & Hfin & Hstep)|(Hv & Hfin & Hexp)]].
  - destruct (IHst {| stack := st; visited := visited s; nodeMap := nodeMap s |})
      as (fuel & b & s' & Hloop); [done..|].
    exists (S fuel), b, s'. simpl. by rewrite Hstep.
  - eexists 1%nat, true, _. simpl. by rewrite Hstep.
  - destruct Hexp as (n1 & n2 & ranges & pushed & Hn1 & Hn2 & Hsucc & Hpush & Hstep).
    assert (size (all_names h1 h2 ∖ ({[nm]} ∪ visited s))
            < size (all_names h1 h2 ∖ visited s))%nat as Hlt.
    { apply subset_size. set_solver. }
    destruct (IHn (size (all_names h1 h2 ∖ ({[nm]} ∪ visited s))) ltac:(lia)
                {| stack := reverse pushed ++ st; visited := {[nm]} ∪ visited s;
                   nodeMap := <[nm := cn]> (nodeMap s) |})
      as (fuel & b & s' & Hloop); simpl; [|done|].
    { apply Forall_app. split; [|done]. apply Forall_reverse.
      by apply push_list_spec in Hpush as [? _]. }
    exists (S fuel), b, s'. simpl. by rewrite Hstep.
Qed.

Lemma dfs_loop_visited_names fuel s b s' :
  Forall node_ok (stack s) → visited s ⊆ all_names h1 h2 →
  dfs_loop h1 h2 fuel s = Done (b, s') → visited s' ⊆ all_names h1 h2.
Proof.
  revert s. induction fuel as [|fuel IH]; intros s Hok Hsub; [done|]. simpl.
  destruct (dfs_step_cases s Hok) as [[_ Hstep]|Hcase].
  { rewrite Hstep. simpl. by intros [= _ <-]. }
  destruct Hcase as (cn & st & nm & Hst & Hcn & Hst_ok & Hnm & Hall & Hcase).
  destruct Hcase as [(Hv & ->)|[(Hv & Hfin & ->)|(Hv & Hfin & Hexp)]]; simpl.
  - apply IH; done.
  - intros [= _ <-]. simpl. set_solver.
  - destruct Hexp as (n1 & n2 & ranges & pushed & Hn1 & Hn2 & Hsucc & Hpush & ->).
    simpl. apply IH; simpl; [|set_solver].
    apply Forall_app. split; [|done]. apply Forall_reverse.
    by apply push_list_spec in Hpush as [? _].
Qed.

End well_formed.

Lemma dfs_inv_init root start nodeMap0 :
  node_ok start → root = pair_of start →
  dfs_inv h1 h2 root ∅ {| stack := [start]; visited := ∅; nodeMap := nodeMap0 |}.
Proof.
  intros Hok ->. split; simpl.
  - by constructor.
  - by intros cn ->%list_elem_of_singleton.
  - intros nm. split; [set_solver|]. intros (p & Hp & _). set_solver.
  - set_solver.
  - set_solver.
  - right. by left.
Qed.

(** *** Partial correctness *)

Section correctness.
Hypothesis Hclosed1 : dfa.closed h1.
Hypothesis Hclosed2 : dfa.closed h2.
Hypothesis Hpaired1 : dfa.ranges_paired h1.
Hypothesis Hpaired2 : dfa.ranges_paired h2.
Hypothesis Hunique1 : dfa.states_unique h1.
Hypothesis Hunique2 : dfa.states_unique h2.
Variable root : dfa.ptr * dfa.ptr.

Lemma dfs_inv_visited_elem E s cn nm :
  dfs_inv h1 h2 root E s →
  nodeName (Node1 cn) (Node2 cn) = Done nm → nm ∈ visited s → pair_of cn ∈ E.
Proof.
  intros Hinv Hnm Hv. apply (inv_visited _ _ _ _ _ Hinv) in Hv as ([a b] & Hp & Hnm').
  simpl in Hnm'. unfold pair_of.
  by rewrite (nodeName_inj _ _ _ _ _ Hunique1 Hunique2 Hnm Hnm').
Qed.

Lemma dfs_inv_preserved E s s' :
  dfs_inv h1 h2 root E s → dfs_step h1 h2 s = Done (inr s') →
  ∃ E', dfs_inv h1 h2 root E' s'.
Proof.
  intros Hinv Hstep.
  destruct (dfs_step_cases Hclosed1 Hclosed2 Hpaired1 Hpaired2 s
              (inv_stack_ok _ _ _ _ _ Hinv)) as [[_ Hs]|Hcase]; [congruence|].
  destruct Hcase as (cn & st & nm & Hst & Hcn & Hst_ok & Hnm & Hall & Hcase).
  destruct Hcase as [(Hv & Hs)|[(Hv & Hfin & Hs)|(Hv & Hfin & Hexp)]]; [|congruence|].
  - (* the popped pair has been expanded before *)
    rewrite Hs in Hstep. injection Hstep as <-.
    pose proof (dfs_inv_visited_elem _ _ _ _ Hinv Hnm Hv) as HcnE.
    exists E. split; simpl.
    + done.
    + intros cn' Hin. apply (inv_stack_reach _ _ _ _ _ Hinv). rewrite Hst. by right.
    + apply (inv_visited _ _ _ _ _ Hinv).
    + apply (inv_expanded _ _ _ _ _ Hinv).
    + intros p q Hp Hpq.
      destruct (inv_closed _ _ _ _ _ Hinv p q Hp Hpq) as [?|Hin]; [by left|].
      rewrite Hst, fmap_cons in Hin. apply elem_of_cons in Hin as [->|?]; auto.
    + destruct (inv_root _ _ _ _ _ Hinv) as [?|Hin]; [by left|].
      rewrite Hst, fmap_cons in Hin. apply elem_of_cons in Hin as [->|?]; auto.
  - (* the popped pair is expanded *)
    destruct Hexp as (n1 & n2 & ranges & pushed & Hn1 & Hn2 & Hsucc & Hpush & Hs).
    rewrite Hs in Hstep. injection Hstep as <-.
    destruct (push_list_spec _ _ _ Hpush) as (Hpok & Hpin & Hpall).
    assert (rtc step root (pair_of cn)) as Hreach.
    { apply (inv_stack_reach _ _ _ _ _ Hinv). rewrite Hst. by left. }
    assert (∀ nm', nm' ∈ ({[nm]} ∪ visited s : gset string) ↔
              ∃ p, p ∈ ({[pair_of cn]} ∪ E : gset _) ∧ nodeName p.1 p.2 = Done nm')
      as Hvis.
    { intros nm'. rewrite elem_of_union, elem_of_singleton,
        (inv_visited _ _ _ _ _ Hinv nm'). split.
      - intros [->|(p & ? & ?)]; [exists (pair_of cn)|exists p]; set_solver.
      - intros (p & [->%elem_of_singleton|?]%elem_of_union & Hp); [left|right; eauto].
        simpl in Hp. congruence. }
    exists ({[pair_of cn]} ∪ E). split; simpl.
    + apply Forall_app. split; [by apply Forall_reverse|done].
    + intros cn' Hin. rewrite elem_of_app, elem_of_reverse in Hin.
      destruct Hin as [Hin|Hin].
      * eapply rtc_r; [done|]. exists (candidates n1 n2 ranges).
        split; [done|]. by apply Hpin.
      * apply (inv_stack_reach _ _ _ _ _ Hinv). rewrite Hst. by right.
    + done.
    + intros p [->%elem_of_singleton|Hp]%elem_of_union;
        [|by apply (inv_expanded _ _ _ _ _ Hinv)].
      split; [done|]. intros (m1 & m2 & Hm1 & Hm2 & Hf1 & Hf2).
      destruct Hcn as (k1 & k2 & Hk1 & Hk2 & Hfinal). simpl in *.
      rewrite Hk1 in Hm1. rewrite Hk2 in Hm2. injection Hm1 as ->. injection Hm2 as ->.
      rewrite Hfin, Hf1, Hf2 in Hfinal. done.
    + intros p q [->%elem_of_singleton|Hp]%elem_of_union Hpq.
      * destruct Hpq as (qs & Hqs & Hq). rewrite Hsucc in Hqs. injection Hqs as <-.
        destruct (Hpall _ Hq) as (nm' & Hnm' & [Hv'|(cn' & Hin & <-)]).
        -- left. apply Hvis in Hv' as ([a b] & Hp & Hnm'').
           destruct q as [qa qb]. simpl in *.
           by rewrite <-(nodeName_inj _ _ _ _ _ Hunique1 Hunique2 Hnm'' Hnm').
        -- right. rewrite fmap_app. apply elem_of_app. left.
           apply list_elem_of_fmap. exists cn'. split; [done|]. by apply elem_of_reverse.
      * destruct (inv_closed _ _ _ _ _ Hinv p q Hp Hpq) as [?|Hin]; [left; set_solver|].
        rewrite Hst, fmap_cons in Hin. apply elem_of_cons in Hin as [->|?].
        -- left. set_solver.
        -- right. rewrite fmap_app. apply elem_of_app. by right.
    + destruct (inv_root _ _ _ _ _ Hinv) as [?|Hin]; [left; set_solver|].
      rewrite Hst, fmap_cons in Hin. apply elem_of_cons in Hin as [->|?].
      * left. set_solver.
      * right. rewrite fmap_app. apply elem_of_app. by right.
Qed.

Lemma dfs_inv_true E s s' :
  dfs_inv h1 h2 root E s → dfs_step h1 h2 s = Done (inl (true, s')) →
  ∃ q, rtc step root q ∧ final_pair h1 h2 q.
Proof.
  intros Hinv Hstep.
  destruct (dfs_step_cases Hclosed1 Hclosed2 Hpaired1 Hpaired2 s
              (inv_stack_ok _ _ _ _ _ Hinv)) as [[_ Hs]|Hcase]; [congruence|].
  destruct Hcase as (cn & st & nm & Hst & Hcn & Hst_ok & Hnm & Hall & Hcase).
  destruct Hcase as [(Hv & Hs)|[(Hv & Hfin & Hs)|(Hv & Hfin & Hexp)]]; [congruence| |].
  - exists (pair_of cn). split.
    + apply (inv_stack_reach _ _ _ _ _ Hinv). rewrite Hst. by left.
    + destruct Hcn as (n1 & n2 & Hn1 & Hn2 & Hfinal). exists n1, n2.
      rewrite Hfin in Hfinal. symmetry in Hfinal.
      apply andb_true_iff in Hfinal as [? ?]. done.
  - destruct Hexp as (? & ? & ? & ? & _ & _ & _ & _ & Hs). congruence.
Qed.

Lemma dfs_inv_false E s s' :
  dfs_inv h1 h2 root E s → dfs_step h1 h2 s = Done (inl (false, s')) →
  ∀ q, rtc step root q → ¬ final_pair h1 h2 q.
Proof.
  intros Hinv [Hnil _]%dfs_step_false q Hq.
  enough (q ∈ E) by by apply (inv_expanded _ _ _ _ _ Hinv).
  revert q Hq. apply (rtc_ind_r (λ q, q ∈ E)); [|intros p q Hroot Hpq IH].
  - destruct (inv_root _ _ _ _ _ Hinv) as [?|Hin]; [done|].
    rewrite Hnil in Hin. by apply elem_of_nil in Hin.
  - destruct (inv_closed _ _ _ _ _ Hinv p q IH Hpq) as [?|Hin]; [done|].
    rewrite Hnil in Hin. by apply elem_of_nil in Hin.
Qed.

Lemma dfs_loop_correct fuel E s b s' :
  dfs_inv h1 h2 root E s → dfs_loop h1 h2 fuel s = Done (b, s') →
  (b = true ↔ ∃ q, rtc step root q ∧ final_pair h1 h2 q).
Proof.
  revert E s. induction fuel as [|fuel IH]; intros E s Hinv; [done|]. simpl.
  destruct (dfs_step h1 h2 s) as [[[b0 s0]|s0]| | |] eqn:Hstep; simpl; try done.
  - intros [= -> ->]. destruct b.
    + split; [|done]. intros _. by eapply dfs_inv_true.
    + split; [done|]. intros (q & Hq & Hfin).
      by destruct (dfs_inv_false _ _ _ Hinv Hstep q Hq).
  - intros Hloop. destruct (dfs_inv_preserved _ _ _ Hinv Hstep) as [E' Hinv'].
    by eapply IH.
Qed.
End correctness.

End search.

(** *** The automaton that the search explores *)

Section product.
Import runerange intersection.
Context (h1 h2 : dfa.arena).

Lemma findOverlapRanges_inner_elem t1 trans2 rs r :
  findOverlapRanges_inner t1 trans2 = Done rs →
  r ∈ rs ↔ ∃ t2 ov, t2 ∈ trans2 ∧
    Overlaps (dfa.RuneRanges t1) (dfa.RuneRanges t2) = true ∧
    findOverlap (dfa.RuneRanges t1) (dfa.RuneRanges t2) = Done ov ∧
    r = {| Range := ov; RI_Node1 := dfa.T_Node t1; RI_Node2 := dfa.T_Node t2 |}.
Proof.
  revert rs. induction trans2 as [|t2 trans2 IH]; simpl; intros rs Hrs.
  { injection Hrs as <-. split; [by intros ?%elem_of_nil|].
    by intros (? & ? & ?%elem_of_nil & _). }
  destruct (Overlaps _ _) eqn:Hov.
  - apply bind_Done in Hrs as (ov & Hov' & Hrs).
    apply bind_Done in Hrs as (rest & Hrest & [= <-]).
    rewrite elem_of_cons, (IH _ Hrest). split.
    + intros [->|(t & o & ? & ? & ? & ->)].
      * exists t2, ov. split; [by left|done].
      * exists t, o. split; [by right|done].
    + intros (t & o & [->|?]%elem_of_cons & ? & ? & ->).
      * left. congruence.
      * right. by exists t, o.
  - rewrite (IH _ Hrs). split.
    + intros (t & o & ? & ? & ? & ->). exists t, o. split; [by right|done].
    + intros (t & o & [->|?]%elem_of_cons & ? & ? & ->); [congruence|].
      by exists t, o.
Qed.

Lemma findOverlapRanges_elem trans1 trans2 rs r :
  findOverlapRanges trans1 trans2 = Done rs →
  r ∈ rs ↔ ∃ t1 t2 ov, t1 ∈ trans1 ∧ t2 ∈ trans2 ∧
    Overlaps (dfa.RuneRanges t1) (dfa.RuneRanges t2) = true ∧
    findOverlap (dfa.RuneRanges t1) (dfa.RuneRanges t2) = Done ov ∧
    r = {| Range := ov; RI_Node1 := dfa.T_Node t1; RI_Node2 := dfa.T_Node t2 |}.
Proof.
  revert rs. induction trans1 as [|t1 trans1 IH]; simpl; intros rs Hrs.
  { injection Hrs as <-. split; [by intros ?%elem_of_nil|].
    by intros (? & ? & ? & ?%elem_of_nil & _). }
  apply bind_Done in Hrs as (here & Hhere & Hrs).
  apply bind_Done in Hrs as (rest & Hrest & [= <-]).
  rewrite elem_of_app, (findOverlapRanges_inner_elem _ _ _ _ Hhere), (IH _ Hrest).
  split.
  - intros [(t2 & ov & ? & ? & ? & ->)|(t & t2 & ov & ? & ? & ? & ? & ->)].
    + exists t1, t2, ov. split; [by left|done].
    + exists t, t2, ov. split; [by right|done].
  - intros (t & t2 & ov & [->|?]%elem_of_cons & ? & ? & ? & ->).
    + left. by exists t2, ov.
    + right. by exists t, t2, ov.
Qed.

Lemma transitions_disjoint_same ts t u c :
  dfa.transitions_disjoint ts = true → t ∈ ts → u ∈ ts →
  covers (dfa.RuneRanges t) c → covers (dfa.RuneRanges u) c → t = u.
Proof.
  intros Hd [i Hi]%list_elem_of_lookup [j Hj]%list_elem_of_lookup Ht Hu.
  rewrite transitions_disjoint_spec in Hd.
  specialize (Hd i j t u c Hi Hj Ht Hu) as ->. congruence.
Qed.

(** On well-formed automata the pairs that an expansion goes through
    are those of the product automaton. *)
Lemma step_overlap_step p q :
  dfa.ranges_sorted h1 → dfa.ranges_sorted h2 →
  dfa.deterministic h1 → dfa.deterministic h2 →
  step h1 h2 p q ↔ overlap_step h1 h2 p q.
Proof.
  intros Hs1 Hs2 Hd1 Hd2. split.
  - intros (qs & Hqs & Hq). unfold successors in Hqs.
    apply bind_Done in Hqs as (n1 & Hn1%deref_Done & Hqs).
    apply bind_Done in Hqs as (n2 & Hn2%deref_Done & Hqs).
    apply bind_Done in Hqs as (ranges & Hrs & [= <-]).
    apply elem_of_candidates in Hq as (r & Hr & Hq1 & Hq2).
    apply (findOverlapRanges_elem _ _ _ _ Hrs) in Hr
      as (t1 & t2 & ov & Ht1 & Ht2 & Hov & Hfo & ->). simpl in *.
    apply findNextNodes_elem_of in Hq1 as (u1 & Hu1 & Hov1 & Hq1).
    apply findNextNodes_elem_of in Hq2 as (u2 & Hu2 & Hov2 & Hq2).
    pose proof (Hs1 _ _ Hn1) as Hsorted1. pose proof (Hs2 _ _ Hn2) as Hsorted2.
    rewrite Forall_forall in Hsorted1, Hsorted2.
    destruct (findOverlap_covers _ _ (Hsorted1 _ Ht1) (Hsorted2 _ Ht2))
      as (ov' & Hfo' & _ & Hcov).
    rewrite Hfo in Hfo'. injection Hfo' as <-.
    apply Overlaps_spec in Hov1 as (c1 & Hc1 & [Hc1a Hc1b]%Hcov).
    apply Overlaps_spec in Hov2 as (c2 & Hc2 & [Hc2a Hc2b]%Hcov).
    assert (u1 = t1) as ->
      by exact (transitions_disjoint_same _ u1 t1 c1 (Hd1 _ _ Hn1) Hu1 Ht1 Hc1 Hc1a).
    assert (u2 = t2) as ->
      by exact (transitions_disjoint_same _ u2 t2 c2 (Hd2 _ _ Hn2) Hu2 Ht2 Hc2 Hc2b).
    exists n1, n2, t1, t2. destruct q. simpl in *. subst. done.
  - intros (n1 & n2 & t1 & t2 & Hn1 & Hn2 & Ht1 & Ht2 & Hov & ->).
    pose proof (Hs1 _ _ Hn1) as Hsorted1. pose proof (Hs2 _ _ Hn2) as Hsorted2.
    destruct (findOverlapRanges_Done (dfa.Transitions n1) (dfa.Transitions n2))
      as [ranges Hrs].
    { eapply Forall_impl; [exact Hsorted1|]. intros ?. apply sorted_disjoint_paired. }
    { eapply Forall_impl; [exact Hsorted2|]. intros ?. apply sorted_disjoint_paired. }
    rewrite Forall_forall in Hsorted1, Hsorted2.
    destruct (findOverlap_covers _ _ (Hsorted1 _ Ht1) (Hsorted2 _ Ht2))
      as (ov & Hfo & _ & Hcov).
    exists (candidates n1 n2 ranges). split.
    { unfold successors, deref. rewrite Hn1, Hn2. simpl. by rewrite Hrs. }
    apply elem_of_candidates.
    exists {| Range := ov; RI_Node1 := dfa.T_Node t1; RI_Node2 := dfa.T_Node t2 |}.
    pose proof Hov as (c & Hc1 & Hc2)%Overlaps_spec.
    split; [|split]; simpl.
    + apply (findOverlapRanges_elem _ _ _ _ Hrs). by exists t1, t2, ov.
    + apply findNextNodes_elem_of. exists t1. split; [done|]. split; [|done].
      apply Overlaps_spec. exists c. split; [done|]. by apply Hcov.
    + apply findNextNodes_elem_of. exists t2. split; [done|]. split; [|done].
      apply Overlaps_spec. exists c. split; [done|]. by apply Hcov.
Qed.

Lemma rtc_step_overlap_step p q :
  dfa.ranges_sorted h1 → dfa.ranges_sorted h2 →
  dfa.deterministic h1 → dfa.deterministic h2 →
  rtc (step h1 h2) p q ↔ rtc (overlap_step h1 h2) p q.
Proof.
  intros Hs1 Hs2 Hd1 Hd2.
  split; apply rtc_subrel; intros ? ?; by apply step_overlap_step.
Qed.

Lemma ranges_sorted_paired h : dfa.ranges_sorted h → dfa.ranges_paired h.
Proof.
  intros Hs p n Hn. eapply Forall_impl; [exact (Hs p n Hn)|].
  intros ?. apply sorted_disjoint_paired.
Qed.
End product.

(** * The search: termination and correctness *)

Section checks.
Import runerange dfa.

Lemma ascending_fromb_spec p l : ascending_fromb p l = true ↔ ascending_from p l.
Proof.
  revert p. induction l as [l IH] using (induction_ltof1 _ length); unfold ltof in IH.
  destruct l as [|lo [|hi l]]; simpl; intros p; [done|done|].
  rewrite !andb_true_iff, !bool_decide_eq_true, (IH l) by (simpl; lia). tauto.
Qed.

Lemma sorted_disjointb_spec l : sorted_disjointb l = true ↔ sorted_disjoint l.
Proof.
  destruct l as [|lo [|hi l]]; simpl; [done|done|].
  by rewrite andb_true_iff, bool_decide_eq_true, ascending_fromb_spec.
Qed.

Lemma states_NoDup_unique h : states_NoDup h → states_unique h.
Proof.
  intros Hnd p q n m Hp Hq Heq.
  apply elem_of_map_to_list, list_elem_of_lookup in Hp as [i Hi].
  apply elem_of_map_to_list, list_elem_of_lookup in Hq as [j Hj].
  assert (i = j) as ->.
  { eapply (NoDup_lookup _ _ _ (State n) Hnd); rewrite list_lookup_fmap.
    - by rewrite Hi.
    - rewrite Hj. simpl. by rewrite Heq. }
  congruence.
Qed.

Lemma check_well_formed_sound h : check_well_formed h = true → well_formed h.
Proof.
  unfold check_well_formed. rewrite !andb_true_iff, !bool_decide_eq_true.
  rewrite !forallb_forall. intros [[[Hc Hs] Hd] Hu]. split.
  - done.
  - intros p n Hn. apply Forall_forall. intros t Ht.
    apply sorted_disjointb_spec.
    specialize (Hs (p, n)). rewrite forallb_forall in Hs.
    apply Hs; apply list_elem_of_In; [by apply elem_of_map_to_list|done].
  - intros p n Hn. apply (Hd (p, n)), list_elem_of_In. by apply elem_of_map_to_list.
  - by apply states_NoDup_unique.
Qed.
End checks.

Section search_result.
Import runerange intersection.
Context (h1 h2 : dfa.arena).

Lemma dfs_halts (start : CombineNode) (nodeMap0 : gmap string CombineNode) :
  dfa.closed h1 → dfa.closed h2 →
  dfa.ranges_paired h1 → dfa.ranges_paired h2 →
  node_ok h1 h2 start →
  ∃ fuel b nodeMap', dfs h1 h2 fuel start nodeMap0 = Done (b, nodeMap').
Proof.
  intros Hc1 Hc2 Hp1 Hp2 Hok.
  set (s0 := {| stack := [start]; visited := ∅; nodeMap := nodeMap0 |}).
  destruct (dfs_loop_terminates h1 h2 Hc1 Hc2 Hp1 Hp2
              (size (all_names h1 h2 ∖ visited s0)) s0)
    as (fuel & b & s & Hloop); [by constructor|done|].
  exists fuel, b, (nodeMap s). unfold dfs. fold s0. by rewrite Hloop.
Qed.

Lemma dfs_mono fuel fuel' start nodeMap0 r :
  dfs h1 h2 fuel start nodeMap0 = Done r → (fuel ≤ fuel')%nat →
  dfs h1 h2 fuel' start nodeMap0 = Done r.
Proof.
  unfold dfs. intros Hrun Hle.
  apply bind_Done in Hrun as ([b s] & Hloop & Hr).
  by rewrite (dfs_loop_mono h1 h2 fuel fuel' _ _ Hloop Hle).
Qed.

Lemma dfs_correct fuel root1 root2 start nodeMap0 b nodeMap' :
  dfa.well_formed h1 → dfa.well_formed h2 →
  createNode h1 h2 root1 root2 = Done start →
  dfs h1 h2 fuel start nodeMap0 = Done (b, nodeMap') →
  b = true ↔ ∃ q, rtc (overlap_step h1 h2) (root1, root2) q ∧ final_pair h1 h2 q.
Proof.
  intros [Hc1 Hs1 Hd1 Hu1] [Hc2 Hs2 Hd2 Hu2] Hstart Hdfs.
  pose proof (ranges_sorted_paired _ Hs1) as Hp1.
  pose proof (ranges_sorted_paired _ Hs2) as Hp2.
  destruct (createNode_ok _ _ _ _ _ Hstart) as [Hok Hpair].
  unfold dfs in Hdfs.
  apply bind_Done in Hdfs as ([b' s] & Hloop & [= -> <-]).
  etrans.
  { eapply (dfs_loop_correct h1 h2 Hc1 Hc2 Hp1 Hp2 Hu1 Hu2 (root1, root2));
      [|exact Hloop].
    by apply dfs_inv_init. }
  split; intros (q & Hq & Hf); exists q; (split; [|done]);
    by apply (rtc_step_overlap_step h1 h2).
Qed.
End search_result.

Section theorems.
Import runerange intersection.

(** C4: on two finite automata (closed arenas whose range lists are
    lists of pairs) [dfs] halts and returns [true] or [false]; more
    fuel does not change the result.  The pair-ids it marks visited are
    pair-ids of nodes of the two arenas, so there are at most
    [|states1| * |states2|] of them, and each is marked (and its pair
    expanded) at most once. *)
Theorem dfs_terminates (h1 h2 : dfa.arena) (start : CombineNode)
    (nodeMap0 : gmap string CombineNode) :
  dfa.closed h1 → dfa.closed h2 →
  dfa.ranges_paired h1 → dfa.ranges_paired h2 →
  node_ok h1 h2 start →
  let s0 := {| stack := [start]; visited := ∅; nodeMap := nodeMap0 |} in
  ∃ fuel b s,
    dfs_loop h1 h2 fuel s0 = Done (b, s) ∧
    dfs h1 h2 fuel start nodeMap0 = Done (b, nodeMap s) ∧
    (∀ fuel', (fuel ≤ fuel')%nat →
       dfs h1 h2 fuel' start nodeMap0 = Done (b, nodeMap s)) ∧
    visited s ⊆ all_names h1 h2 ∧
    (size (visited s) ≤ size h1 * size h2)%nat ∧
    NoDup (dfs_marks h1 h2 fuel s0) ∧
    visited s = list_to_set (dfs_marks h1 h2 fuel s0).
Proof.
  intros Hc1 Hc2 Hp1 Hp2 Hok s0.
  destruct (dfs_loop_terminates h1 h2 Hc1 Hc2 Hp1 Hp2
              (size (all_names h1 h2 ∖ visited s0)) s0)
    as (fuel & b & s & Hloop); [by constructor|done|].
  assert (visited s ⊆ all_names h1 h2) as Hsub.
  { eapply (dfs_loop_visited_names h1 h2 Hc1 Hc2 Hp1 Hp2 fuel s0);
      [by constructor|set_solver|done]. }
  destruct (dfs_marks_spec h1 h2 _ _ _ _ Hloop) as (Hnd & Hvis & _).
  exists fuel, b, s. split; [done|]. split; [|split; [|split; [|split; [|split]]]].
  - unfold dfs. fold s0. by rewrite Hloop.
  - intros fuel' Hle. unfold dfs. fold s0.
    by rewrite (dfs_loop_mono h1 h2 fuel fuel' s0 _ Hloop Hle).
  - done.
  - etrans; [apply subseteq_size, Hsub|apply size_all_names].
  - done.
  - rewrite Hvis. simpl. set_solver.
Qed.

(** C1: on two well-formed automata [dfs] returns [true] if and only if
    a pair of final nodes can be reached from the pair of roots through
    pairs of transitions whose range lists overlap.  A round of the loop
    that pops an unvisited final pair returns [true] at once, and a
    round returns [false] exactly when it finds the stack empty. *)
Theorem dfs_reaches_final_pair (h1 h2 : dfa.arena) (root1 root2 : dfa.ptr)
    (start : CombineNode) (nodeMap0 : gmap string CombineNode) :
  dfa.well_formed h1 → dfa.well_formed h2 →
  createNode h1 h2 root1 root2 = Done start →
  ∃ fuel b nodeMap',
    dfs h1 h2 fuel start nodeMap0 = Done (b, nodeMap') ∧
    (b = true ↔
       ∃ q, rtc (overlap_step h1 h2) (root1, root2) q ∧ final_pair h1 h2 q) ∧
    (∀ s cn st nm,
       stack s = cn :: st → nodeName h1 h2 (Node1 cn) (Node2 cn) = Done nm →
       nm ∉ visited s → Final cn = true →
       ∃ s', dfs_step h1 h2 s = Done (inl (true, s'))) ∧
    (∀ s s', dfs_step h1 h2 s = Done (inl (false, s')) ↔ stack s = [] ∧ s' = s).
Proof.
  intros [Hc1 Hs1 Hd1 Hu1] [Hc2 Hs2 Hd2 Hu2] Hstart.
  pose proof (ranges_sorted_paired _ Hs1) as Hp1.
  pose proof (ranges_sorted_paired _ Hs2) as Hp2.
  destruct (dfs_halts h1 h2 start nodeMap0 Hc1 Hc2 Hp1 Hp2)
    as (fuel & b & nodeMap' & Hdfs).
  { by eapply createNode_ok. }
  exists fuel, b, nodeMap'. split; [done|]. split; [|split].
  - by eapply dfs_correct.
  - intros s' cn st nm Hst Hnm Hv Hfin. eexists. by eapply dfs_step_final.
  - apply dfs_step_false.
Qed.
End theorems.

Section witnesses.
Import intersection examples.

Lemma dfa_ab_well_formed : dfa.well_formed dfa_ab.
Proof. apply check_well_formed_sound. vm_compute. reflexivity. Qed.

Lemma dfa_acb_well_formed : dfa.well_formed dfa_acb.
Proof. apply check_well_formed_sound. vm_compute. reflexivity. Qed.

Lemma dfa_c_well_formed : dfa.well_formed dfa_c.
Proof. apply check_well_formed_sound. vm_compute. reflexivity. Qed.

Lemma start_ab_acb_created : createNode dfa_ab dfa_acb 0%nat 0%nat = Done start_ab_acb.
Proof. vm_compute. reflexivity. Qed.

Lemma start_ab_acb_ok : node_ok dfa_ab dfa_acb start_ab_acb.
Proof. exact (proj1 (createNode_ok _ _ _ _ _ start_ab_acb_created)). Qed.

Lemma dfs_terminates_witness :
  let s0 := {| stack := [start_ab_acb]; visited := ∅; nodeMap := ∅ |} in
  ∃ fuel b s,
    dfs_loop dfa_ab dfa_acb fuel s0 = Done (b, s) ∧
    dfs dfa_ab dfa_acb fuel start_ab_acb ∅ = Done (b, nodeMap s) ∧
    (∀ fuel', (fuel ≤ fuel')%nat →
       dfs dfa_ab dfa_acb fuel' start_ab_acb ∅ = Done (b, nodeMap s)) ∧
    visited s ⊆ all_names dfa_ab dfa_acb ∧
    (size (visited s) ≤ size dfa_ab * size dfa_acb)%nat ∧
    NoDup (dfs_marks dfa_ab dfa_acb fuel s0) ∧
    visited s = list_to_set (dfs_marks dfa_ab dfa_acb fuel s0).
Proof.
  apply (dfs_terminates dfa_ab dfa_acb start_ab_acb ∅).
  - apply dfa_ab_well_formed.
  - apply dfa_acb_well_formed.
  - apply ranges_sorted_paired, dfa_ab_well_formed.
  - apply ranges_sorted_paired, dfa_acb_well_formed.
  - apply start_ab_acb_ok.
Defined.

Lemma dfs_reaches_final_pair_witness :
  ∃ fuel b nodeMap',
    dfs dfa_ab dfa_acb fuel start_ab_acb ∅ = Done (b, nodeMap') ∧
    (b = true ↔
       ∃ q, rtc (overlap_step dfa_ab dfa_acb) (0%nat, 0%nat) q ∧
            final_pair dfa_ab dfa_acb q) ∧
    (∀ s cn st nm,
       stack s = cn :: st → nodeName dfa_ab dfa_acb (Node1 cn) (Node2 cn) = Done nm →
       nm ∉ visited s → Final cn = true →
       ∃ s', dfs_step dfa_ab dfa_acb s = Done (inl (true, s'))) ∧
    (∀ s s', dfs_step dfa_ab dfa_acb s = Done (inl (false, s')) ↔ stack s = [] ∧ s' = s).
Proof.
  apply (dfs_reaches_final_pair dfa_ab dfa_acb 0%nat 0%nat start_ab_acb ∅).
  - apply dfa_ab_well_formed.
  - apply dfa_acb_well_formed.
  - apply start_ab_acb_created.
Defined.

(** [ab] and [[a-c]b*] share the string "ab"; [ab] and [c] share none. *)
Example dfs_ab_acb :
  (dfs dfa_ab dfa_acb 10 start_ab_acb ∅ ≫= λ r, Done r.1) = Done true.
Proof. vm_compute. reflexivity. Qed.

Example dfs_ab_c :
  (start ← createNode dfa_ab dfa_c 0%nat 0%nat;
   dfs dfa_ab dfa_c 10 start ∅ ≫= λ r, Done r.1) = Done false.
Proof. vm_compute. reflexivity. Qed.
End witnesses.

(** * Splitting and accumulating range lists *)

Section split_sum.
Import runerange.

Lemma flat_cons p ps : flat (p :: ps) = p.1 :: p.2 :: flat ps.
Proof. done. Qed.

(** *** Cut points *)

Lemma StronglySorted_lt_of_le (l : list Z) :
  StronglySorted Z.le l → NoDup l → StronglySorted Z.lt l.
Proof.
  induction 1 as [|x l Hl IH Hx]; intros Hnd; [constructor|].
  apply NoDup_cons in Hnd as [Hnotin Hnd]. constructor; [by apply IH|].
  rewrite Forall_forall in Hx |- *. intros y Hy.
  specialize (Hx y Hy). assert (x ≠ y) by (by intros ->). lia.
Qed.

Lemma elem_of_cut_points ls x :
  x ∈ cut_points ls ↔ ∃ p, p ∈ nonempty_pairs ls ∧ (x = p.1 ∨ x = p.2 + 1).
Proof.
  unfold cut_points. rewrite merge_sort_Permutation, elem_of_remove_dups, list_elem_of_bind.
  split; intros (p & H1 & H2); exists p.
  - split; [done|]. set_solver.
  - split; [|done]. set_solver.
Qed.

Lemma cut_points_sorted ls : StronglySorted Z.lt (cut_points ls).
Proof.
  unfold cut_points. apply StronglySorted_lt_of_le.
  - apply StronglySorted_merge_sort; apply _.
  - rewrite merge_sort_Permutation. apply NoDup_remove_dups.
Qed.

Lemma elem_of_nonempty_pairs ls p :
  p ∈ nonempty_pairs ls ↔ p.1 ≤ p.2 ∧ ∃ l, l ∈ ls ∧ p ∈ pairs l.
Proof.
  unfold nonempty_pairs. rewrite list_elem_of_filter, list_elem_of_bind. naive_solver.
Qed.

(** *** Segments between consecutive cut points *)

Lemma segments_between cs s x :
  StronglySorted Z.lt cs → s ∈ segments cs → x ∈ cs →
  s.1 ∈ cs ∧ s.2 + 1 ∈ cs ∧ s.1 ≤ s.2 ∧ (x ≤ s.1 ∨ s.2 < x).
Proof.
  intros Hcs. revert x.
  induction Hcs as [|p cs Hcs IH Hp]; intros x; simpl; [by intros ?%elem_of_nil|].
  destruct cs as [|q cs]; [by intros ?%elem_of_nil|].
  intros Hs Hx. rewrite Forall_forall in Hp.
  apply elem_of_cons in Hs as [->|Hs]; simpl.
  - replace (q - 1 + 1) with q by lia.
    split; [by left|]. split; [by right; left|].
    pose proof (Hp q ltac:(left)) as Hpq. split; [lia|].
    apply elem_of_cons in Hx as [->|Hx]; [lia|].
    apply elem_of_cons in Hx as [->|Hx]; [lia|].
    apply StronglySorted_inv in Hcs as [_ Hq]. rewrite Forall_forall in Hq.
    specialize (Hq x Hx). lia.
  - apply elem_of_cons in Hx as [->|Hx].
    + destruct (IH q Hs ltac:(left)) as (H1 & H2 & H3 & _).
      split; [by right|]. split; [by right|]. split; [done|].
      specialize (Hp _ H1). lia.
    + destruct (IH x Hs Hx) as (H1 & H2 & H3 & H4).
      split; [by right|]. split; [by right|]. done.
Qed.

Lemma segments_cover cs lo hi1 c :
  StronglySorted Z.lt cs → lo ∈ cs → hi1 ∈ cs → lo ≤ c < hi1 →
  ∃ s, s ∈ segments cs ∧ s.1 ≤ c ≤ s.2 ∧ lo ≤ s.1 ∧ s.2 + 1 ≤ hi1.
Proof.
  intros Hcs. revert lo.
  induction Hcs as [|p cs Hcs IH Hp]; intros lo; [by intros ?%elem_of_nil|].
  rewrite Forall_forall in Hp. intros Hlo Hhi Hc.
  destruct cs as [|q cs].
  { apply list_elem_of_singleton in Hlo, Hhi. lia. }
  simpl. pose proof (Hp q ltac:(left)) as Hpq.
  assert (hi1 ∈ q :: cs) as Hhi'.
  { apply elem_of_cons in Hhi as [->|?]; [|done].
    apply elem_of_cons in Hlo as [->|Hlo]; [lia|]. specialize (Hp _ Hlo). lia. }
  assert (q ≤ hi1) as Hqhi.
  { apply elem_of_cons in Hhi' as [->|Hhi']; [lia|].
    apply StronglySorted_inv in Hcs as [_ Hq]. rewrite Forall_forall in Hq.
    specialize (Hq _ Hhi'). lia. }
  destruct (decide (c < q)) as [Hcq|Hcq].
  - exists (p, q - 1). split; [left|]. simpl.
    assert (lo = p) as ->.
    { apply elem_of_cons in Hlo as [->|Hlo]; [done|].
      apply elem_of_cons in Hlo as [->|Hlo]; [lia|].
      apply StronglySorted_inv in Hcs as [_ Hq]. rewrite Forall_forall in Hq.
      specialize (Hq _ Hlo). lia. }
    lia.
  - destruct (decide (lo = p)) as [->|Hne].
    + destruct (IH q) as (s & Hs & Hcs' & Hlo' & Hhi''); [by left|done|lia|].
      exists s. split; [by right|]. lia.
    + destruct (IH lo) as (s & Hs & Hcs' & Hlo' & Hhi''); [|done|lia|].
      { by apply elem_of_cons in Hlo as [->|?]. }
      exists s. split; [by right|]. lia.
Qed.

Lemma segments_ascending (P : rune * rune → Prop) `{∀ s, Decision (P s)} cs prev :
  StronglySorted Z.lt cs → Forall (λ x, prev < x) cs →
  ascending_from prev (flat (filter P (segments cs))).
Proof.
  intros Hcs. revert prev. induction Hcs as [|p cs Hcs IH Hp]; intros prev Hprev; [done|].
  destruct cs as [|q cs]; [done|]. simpl segments.
  apply Forall_cons in Hprev as [Hprev_p Hprev].
  apply Forall_cons in Hp as [Hpq Hp].
  rewrite filter_cons. case_decide.
  - rewrite flat_cons. simpl. split; [done|]. split; [lia|].
    apply IH. apply StronglySorted_inv in Hcs as [_ Hq]. constructor; [lia|].
    eapply Forall_impl; [exact Hq|]. simpl. intros; lia.
  - by apply IH.
Qed.

(** *** Split *)

Lemma elem_of_pairs_Split ls s :
  s ∈ pairs (Split ls) ↔
  s ∈ segments (cut_points ls) ∧
  Exists (λ p, p.1 ≤ s.1 ∧ s.2 ≤ p.2) (nonempty_pairs ls).
Proof. unfold Split. by rewrite pairs_flat, list_elem_of_filter, (comm and). Qed.

Lemma Split_ascending ls prev :
  Forall (λ x, prev < x) (cut_points ls) → ascending_from prev (Split ls).
Proof. intros. apply segments_ascending; [apply cut_points_sorted|done]. Qed.

(** The blocks are sorted and pairwise disjoint. *)
Lemma Split_sorted ls : sorted_disjoint (Split ls).
Proof.
  apply sorted_disjoint_ascending.
  destruct (cut_points ls) as [|x cs] eqn:Hcs.
  { exists 0. unfold Split. by rewrite Hcs. }
  exists (x - 1). apply Split_ascending. rewrite Hcs.
  pose proof (cut_points_sorted ls) as Hs. rewrite Hcs in Hs.
  apply StronglySorted_inv in Hs as [_ Hx]. constructor; [lia|].
  eapply Forall_impl; [exact Hx|]. simpl. intros; lia.
Qed.

(** Partition exactness: the blocks cover what the input lists cover. *)
Lemma Split_covers ls c :
  covers (Split ls) c ↔ ∃ l, l ∈ ls ∧ covers l c.
Proof.
  split.
  - intros (lo & hi & Hin & Hc).
    apply elem_of_pairs_Split in Hin as [_ Hex]. simpl in Hex.
    apply Exists_exists in Hex as (p & Hp & Hlo & Hhi).
    apply elem_of_nonempty_pairs in Hp as (_ & l & Hl & Hp).
    exists l. split; [done|]. exists p.1, p.2. split; [by destruct p|lia].
  - intros (l & Hl & lo & hi & Hin & Hc).
    assert ((lo, hi) ∈ nonempty_pairs ls) as Hne.
    { apply elem_of_nonempty_pairs. simpl. split; [lia|]. by exists l. }
    destruct (segments_cover (cut_points ls) lo (hi + 1) c) as (s & Hs & Hcs & Hlo & Hhi).
    + apply cut_points_sorted.
    + apply elem_of_cut_points. exists (lo, hi). auto.
    + apply elem_of_cut_points. exists (lo, hi). auto.
    + lia.
    + exists s.1, s.2. split; [|done]. apply elem_of_pairs_Split. destruct s as [a b].
      split; [done|]. apply Exists_exists. exists (lo, hi). simpl in *. split; [done|lia].
Qed.

(** Every block lies inside some input range, and inside or apart from
    every input range. *)
Lemma Split_elementary ls lo hi :
  (lo, hi) ∈ pairs (Split ls) →
  lo ≤ hi ∧
  (∃ p, p ∈ nonempty_pairs ls ∧ p.1 ≤ lo ∧ hi ≤ p.2) ∧
  (∀ p, p ∈ nonempty_pairs ls → (p.1 ≤ lo ∧ hi ≤ p.2) ∨ hi < p.1 ∨ p.2 < lo).
Proof.
  intros [Hseg Hex]%elem_of_pairs_Split. simpl in Hex.
  pose proof (cut_points_sorted ls) as Hcs.
  split; [|split].
  - destruct (cut_points ls) as [|x cs] eqn:Hcp; [by apply elem_of_nil in Hseg|].
    by destruct (segments_between _ _ x Hcs Hseg ltac:(left)) as (_ & _ & ? & _).
  - apply Exists_exists in Hex as (p & ? & ?). by exists p.
  - intros p Hp.
    destruct (segments_between _ _ p.1 Hcs Hseg) as (_ & _ & _ & H1).
    { apply elem_of_cut_points. exists p. auto. }
    destruct (segments_between _ _ (p.2 + 1) Hcs Hseg) as (_ & _ & _ & H2).
    { apply elem_of_cut_points. exists p. auto. }
    simpl in *. lia.
Qed.

(** On a block of [Split ls], containing the block and covering one of
    its characters are the same for every input list. *)
Lemma Contains_block ls l lo hi c :
  (lo, hi) ∈ pairs (Split ls) → l ∈ ls → lo ≤ c ≤ hi →
  Contains l [lo; hi] = true ↔ covers l c.
Proof.
  intros Hblock Hl Hc. rewrite Contains_spec.
  destruct (Split_elementary _ _ _ Hblock) as (_ & _ & Helem). split.
  - intros (p & Hp & ? & ?). exists p.1, p.2. split; [by destruct p|lia].
  - intros (a & b & Hin & Hab). exists (a, b). split; [done|]. simpl.
    destruct (Helem (a, b)) as [?|?]; [|done|simpl in *; lia].
    apply elem_of_nonempty_pairs. simpl. split; [lia|]. by exists l.
Qed.

(** *** Sum *)

Lemma Sum_nil_l b : Sum [] b = b.
Proof. by destruct b. Qed.

Lemma Sum_nil_r a : Sum a [] = a.
Proof. by destruct a as [|? [|? ?]]. Qed.

Lemma Sum_step lo1 hi1 a lo2 hi2 b :
  Sum (lo1 :: hi1 :: a) (lo2 :: hi2 :: b) =
    if bool_decide (lo1 ≤ lo2) then lo1 :: hi1 :: Sum a (lo2 :: hi2 :: b)
    else lo2 :: hi2 :: Sum (lo1 :: hi1 :: a) b.
Proof. done. Qed.

Lemma Sum_ascending a b pa pb :
  ascending_from pa a → ascending_from pb b →
  (∀ c, ¬ (covers a c ∧ covers b c)) →
  ascending_from (Z.min pa pb) (Sum a b) ∧
  ∀ c, covers (Sum a b) c ↔ covers a c ∨ covers b c.
Proof.
  remember (length a + length b)%nat as n eqn:Hn.
  revert a b pa pb Hn. induction (lt_wf n) as [n _ IH].
  intros a b pa pb -> Ha Hb Hdisj.
  destruct a as [|lo1 [|hi1 a]]; [|done|].
  { rewrite Sum_nil_l. split; [eapply ascending_from_weaken, Hb; lia|].
    intros c. pose proof (covers_nil c). tauto. }
  destruct b as [|lo2 [|hi2 b]]; [|done|].
  { rewrite Sum_nil_r. split; [eapply ascending_from_weaken, Ha; lia|].
    intros c. pose proof (covers_nil c). tauto. }
  rewrite Sum_step.
  destruct Ha as (Hpa & Hlo1 & Ha), Hb as (Hpb & Hlo2 & Hb).
  assert (hi1 < lo2 ∨ hi2 < lo1) as Hapart.
  { destruct (decide (Z.max lo1 lo2 ≤ Z.min hi1 hi2)); [|lia].
    destruct (Hdisj (Z.max lo1 lo2)). rewrite !covers_cons. split; left; lia. }
  case_bool_decide as Hle.
  - destruct (IH (length a + length (lo2 :: hi2 :: b))%nat ltac:(simpl; lia)
                a (lo2 :: hi2 :: b) hi1 hi1 eq_refl) as [Hasc Hcov].
    + done.
    + simpl. repeat split; [lia|done..].
    + intros c [? ?]. apply (Hdisj c). rewrite covers_cons. tauto.
    + split.
      * simpl. split; [lia|]. split; [done|].
        eapply ascending_from_weaken, Hasc. lia.
      * intros c. rewrite covers_cons, Hcov, !covers_cons. tauto.
  - destruct (IH (length (lo1 :: hi1 :: a) + length b)%nat ltac:(simpl; lia)
                (lo1 :: hi1 :: a) b hi2 hi2 eq_refl) as [Hasc Hcov].
    + simpl. repeat split; [lia|done..].
    + done.
    + intros c [? ?]. apply (Hdisj c). rewrite (covers_cons lo2). tauto.
    + split.
      * simpl. split; [lia|]. split; [done|].
        eapply ascending_from_weaken, Hasc. lia.
      * intros c. rewrite covers_cons, Hcov, !covers_cons. tauto.
Qed.

Lemma Sum_sorted a b :
  sorted_disjoint a → sorted_disjoint b → (∀ c, ¬ (covers a c ∧ covers b c)) →
  sorted_disjoint (Sum a b) ∧ ∀ c, covers (Sum a b) c ↔ covers a c ∨ covers b c.
Proof.
  intros [pa Ha]%sorted_disjoint_ascending [pb Hb]%sorted_disjoint_ascending Hd.
  destruct (Sum_ascending a b pa pb Ha Hb Hd) as [? ?]. split; [|done].
  apply sorted_disjoint_ascending. eauto.
Qed.

Example Split_example :
  Split [[97; 99]; []; [98; 100]] = [97; 97; 98; 99; 100; 100].
Proof. vm_compute. reflexivity. Qed.

Example Sum_example : Sum [97; 97] [100; 101] = [97; 97; 100; 101].
Proof. vm_compute. reflexivity. Qed.
End split_sum.

(** * Closures, labels and final states of sets of NFA nodes *)

Section closures.
Import dfa.
Context `{GoRuntime} (g : nfa.graph).

Lemma closure_spec x cache cls cache' :
  cache_ok g cache → closure g x cache = Done (cls, cache') →
  closure_of g x = Done cls ∧ cache_ok g cache'.
Proof.
  intros Hok. unfold closure. destruct (cache !! x) as [c|] eqn:Hx.
  - intros [= <- <-]. split; [by apply Hok|done].
  - intros Hc. apply bind_Done in Hc as ([c v] & Hrc & [= <- <-]).
    assert (closure_of g x = Done c) as Hcx by (unfold closure_of; by rewrite Hrc).
    split; [done|]. intros y cy [[<- <-]|[_ Hy]]%lookup_insert_Some; [done|by apply Hok].
Qed.

Lemma closuresForRange_edges_spec ts rr acc cache out cache' :
  cache_ok g cache →
  closuresForRange_edges g ts rr acc cache = Done (out, cache') →
  cache_ok g cache' ∧
  (∀ e, e ∈ ts → runerange.Contains (nfa.ranges e) rr = true →
        ∃ cls, closure_of g (nfa.N e) = Done cls) ∧
  ∀ cls, cls ∈ out ↔
         cls ∈ acc ∨ ∃ e, e ∈ ts ∧ runerange.Contains (nfa.ranges e) rr = true ∧
                          closure_of g (nfa.N e) = Done cls.
Proof.
  revert acc cache. induction ts as [|e ts IH]; simpl; intros acc cache Hok Hout.
  { injection Hout as <- <-. split; [done|]. split; [by intros ? ?%elem_of_nil|].
    intros cls. split; [by left|].
    intros [?|(? & ?%elem_of_nil & _)]; done. }
  destruct (runerange.Contains (nfa.ranges e) rr) eqn:Hc.
  - apply bind_Done in Hout as ([c cache1] & Hcl & Hout).
    destruct (closure_spec _ _ _ _ Hok Hcl) as [Hce Hok1].
    destruct (IH _ _ Hok1 Hout) as (Hok' & Hex & Hin). split; [done|].
    split. { intros e' [->|?]%elem_of_cons ?; [by eauto|by apply Hex]. }
    intros cls. rewrite Hin, elem_of_app, list_elem_of_singleton. split.
    + intros [[?| ->]|(e' & ? & ? & ?)]; [by left|right|right].
      * exists e. split; [by left|done].
      * exists e'. split; [by right|done].
    + intros [?|(e' & [->|?]%elem_of_cons & ? & ?)]; [by left; left| |].
      * left; right. congruence.
      * right. by exists e'.
  - destruct (IH _ _ Hok Hout) as (Hok' & Hex & Hin). split; [done|].
    split. { intros e' [->|?]%elem_of_cons ?; [congruence|by apply Hex]. }
    intros cls. rewrite Hin. split.
    + intros [?|(e' & ? & ? & ?)]; [by left|right]. exists e'. split; [by right|done].
    + intros [?|(e' & [->|?]%elem_of_cons & ? & ?)]; [by left|congruence|].
      right. by exists e'.
Qed.

Lemma closuresForRange_nodes_spec cs rr acc cache out cache' :
  cache_ok g cache →
  closuresForRange_nodes g cs rr acc cache = Done (out, cache') →
  cache_ok g cache' ∧
  Forall (λ x, is_Some (g !! x)) cs ∧
  (∀ x node e, x ∈ cs → g !! x = Some node → e ∈ nfa.T node →
               runerange.Contains (nfa.ranges e) rr = true →
               ∃ cls, closure_of g (nfa.N e) = Done cls) ∧
  ∀ cls, cls ∈ out ↔
         cls ∈ acc ∨ ∃ x node e, x ∈ cs ∧ g !! x = Some node ∧ e ∈ nfa.T node ∧
                                 runerange.Contains (nfa.ranges e) rr = true ∧
                                 closure_of g (nfa.N e) = Done cls.
Proof.
  revert acc cache. induction cs as [|x cs IH]; simpl; intros acc cache Hok Hout.
  { injection Hout as <- <-. split; [done|]. split; [done|].
    split; [by intros ? ? ? ?%elem_of_nil|]. intros cls. split; [by left|].
    intros [?|(? & ? & ? & ?%elem_of_nil & _)]; done. }
  apply bind_Done in Hout as (node & Hnode%deref_Done & Hout).
  apply bind_Done in Hout as ([acc1 cache1] & Hedges & Hout).
  destruct (closuresForRange_edges_spec _ _ _ _ _ _ Hok Hedges) as (Hok1 & Hex1 & Hin1).
  destruct (IH _ _ Hok1 Hout) as (Hok' & Hall & Hex & Hin). split; [done|].
  split; [by constructor|].
  split.
  { intros x' node' e [->|?]%elem_of_cons Hn' ? ?; [|by eapply Hex].
    rewrite Hnode in Hn'. injection Hn' as <-. by apply Hex1. }
  intros cls. rewrite Hin, Hin1. split.
  - intros [[?|(e & ? & ? & ?)]|(x' & node' & e & ? & ? & ? & ? & ?)]; [by left|right|right].
    + exists x, node, e. split; [by left|done].
    + exists x', node', e. split; [by right|done].
  - intros [?|(x' & node' & e & [->|?]%elem_of_cons & Hn' & ? & ? & ?)].
    + by left; left.
    + left; right. rewrite Hnode in Hn'. injection Hn' as <-. by exists e.
    + right. by exists x', node', e.
Qed.

Lemma closuresForRange_spec h n node rr cache out cache' :
  cache_ok g cache → h !! n = Some node →
  closuresForRange g h n rr cache = Done (out, cache') →
  cache_ok g cache' ∧
  Forall (λ x, is_Some (g !! x)) (closures node) ∧
  (∀ x nodex e, x ∈ closures node → g !! x = Some nodex → e ∈ nfa.T nodex →
                runerange.Contains (nfa.ranges e) rr = true →
                ∃ cls, closure_of g (nfa.N e) = Done cls) ∧
  ∀ cls, cls ∈ out ↔
         ∃ x nodex e, x ∈ closures node ∧ g !! x = Some nodex ∧ e ∈ nfa.T nodex ∧
                      runerange.Contains (nfa.ranges e) rr = true ∧
                      closure_of g (nfa.N e) = Done cls.
Proof.
  intros Hok Hn. unfold closuresForRange, deref. rewrite Hn. simpl. intros Hout.
  destruct (closuresForRange_nodes_spec _ _ _ _ _ _ Hok Hout) as (Hok' & Hall & Hex & Hin).
  split; [done|]. split; [done|]. split; [done|].
  intros cls. rewrite Hin. split; [|by right].
  by intros [?%elem_of_nil|?].
Qed.

Lemma recursiveClosure_edges_prefix rec ts acc v cls v' :
  recursiveClosure_edges rec ts acc v = Done (cls, v') → ∃ rest, cls = acc ++ rest.
Proof.
  revert acc v. induction ts as [|e ts IH]; simpl; intros acc v Hout.
  { injection Hout as <- <-. exists []. by rewrite app_nil_r. }
  destruct (nfa.R e).
  - by eapply IH.
  - apply bind_Done in Hout as ([sub v1] & _ & Hout).
    destruct (IH _ _ Hout) as [rest ->]. exists (sub ++ rest). by rewrite app_assoc.
Qed.

(** A closure starts with its own node. *)
Lemma closure_of_head x cls : closure_of g x = Done cls → ∃ rest, cls = x :: rest.
Proof.
  unfold closure_of, closure_fuel. simpl. rewrite decide_False by set_solver.
  intros Hc. apply bind_Done in Hc as ([c v] & Hc & [= <-]).
  apply bind_Done in Hc as (node & _ & Hc).
  by apply recursiveClosure_edges_prefix in Hc as [rest ->]; eauto.
Qed.

Lemma elem_of_dfa_union cls k y : y ∈ union cls k ↔ ∃ c, c ∈ cls ∧ y ∈ c.
Proof.
  assert (y ∈ map_range k (elements (list_to_set (concat cls) : gset nfa.ptr))
          ↔ ∃ c, c ∈ cls ∧ y ∈ c) as Hgen.
  { rewrite map_range_perm, elem_of_elements, elem_of_list_to_set, list_elem_of_In, in_concat.
    split; intros (c & ? & ?); exists c; by rewrite ?list_elem_of_In in *. }
  unfold union. destruct cls as [|c [|c' cls]]; [done| |done].
  split; [intros ?; exists c; split; [by left|done]|].
  by intros (c' & ->%list_elem_of_singleton & ?).
Qed.

Lemma union_NoDup cls k : (length cls ≠ 1)%nat → NoDup (union cls k).
Proof.
  intros Hlen. unfold union.
  destruct cls as [|c [|c' cls]]; [|done|]; rewrite map_range_perm; apply NoDup_elements.
Qed.
End closures.

Section labels.
Import dfa.

Lemma strings_Join_cons s s' a :
  strings_Join (s :: s' :: a) "," = (s +:+ String "," (strings_Join (s' :: a) ","))%string.
Proof. done. Qed.

Lemma makeLabel_nonempty a : a ≠ [] → makeLabel a ≠ "".
Proof.
  unfold makeLabel, intsToStrings. destruct a as [|x [|y a]]; [done|..]; intros _.
  - apply pretty_Z_nonempty.
  - rewrite !fmap_cons, strings_Join_cons. pose proof (pretty_Z_nonempty x).
    by destruct (pretty x).
Qed.

Lemma makeLabel_inj a b : makeLabel a = makeLabel b → a = b.
Proof.
  unfold makeLabel, intsToStrings. revert b.
  induction a as [|x a IH]; intros b Heq.
  { destruct b as [|y b]; [done|]. symmetry in Heq.
    by apply (makeLabel_nonempty (y :: b)) in Heq. }
  destruct b as [|y b].
  { by apply (makeLabel_nonempty (x :: a)) in Heq. }
  destruct a as [|x' a], b as [|y' b].
  - simpl in Heq. by apply (inj pretty) in Heq as ->.
  - rewrite !fmap_cons, (strings_Join_cons (pretty y)) in Heq. simpl in Heq.
    destruct (pretty_Z_no_comma x). rewrite Heq, has_char_app. right. by left.
  - rewrite !fmap_cons, (strings_Join_cons (pretty x)) in Heq. simpl in Heq.
    destruct (pretty_Z_no_comma y). rewrite <-Heq, has_char_app. right. by left.
  - rewrite !fmap_cons, !strings_Join_cons in Heq.
    apply app_separator_inj in Heq as [Hx Hrest]; auto using pretty_Z_no_comma.
    apply (inj pretty) in Hx as ->. f_equal. apply IH. by rewrite !fmap_cons.
Qed.

Context (g : nfa.graph).

Lemma states_of_spec cls ss :
  states_of g cls = Done ss →
  Forall2 (λ x s, ∃ node, g !! x = Some node ∧ nfa.S node = s) cls ss.
Proof.
  revert ss. induction cls as [|x cls IH]; simpl; intros ss Hss.
  { injection Hss as <-. constructor. }
  apply bind_Done in Hss as (node & Hnode%deref_Done & Hss).
  apply bind_Done in Hss as (rest & Hrest & [= <-]).
  constructor; [by exists node|by apply IH].
Qed.

Lemma states_of_Done cls :
  Forall (λ x, is_Some (g !! x)) cls → ∃ ss, states_of g cls = Done ss.
Proof.
  induction 1 as [|x cls [node Hx] _ [ss IH]]; simpl; [by eauto|].
  unfold deref. rewrite Hx, IH. simpl. eauto.
Qed.

Lemma labelFromClosure_Done cls :
  Forall (λ x, is_Some (g !! x)) cls ↔ ∃ lbl, labelFromClosure g cls = Done lbl.
Proof.
  unfold labelFromClosure. split.
  - intros [ss ->]%states_of_Done. simpl. eauto.
  - intros [lbl Hl]. apply bind_Done in Hl as (ss & Hss%states_of_spec & _).
    induction Hss as [|x s cls ss (node & ? & _) _ IH]; constructor; eauto.
Qed.

(** Equal labels name equal sets of nodes. *)
Lemma labelFromClosure_inj cls cls' lbl :
  nfa.ids_unique g →
  labelFromClosure g cls = Done lbl → labelFromClosure g cls' = Done lbl →
  ∀ y, y ∈ cls ↔ y ∈ cls'.
Proof.
  intros Hu. unfold labelFromClosure. intros H1 H2.
  apply bind_Done in H1 as (ss & Hss & [= H1]).
  apply bind_Done in H2 as (ss' & Hss' & [= H2]).
  rewrite <-H2 in H1. apply makeLabel_inj in H1. unfold sort_Ints in H1.
  assert (∀ s, s ∈ ss ↔ s ∈ ss') as Hsame.
  { intros s.
    rewrite <-(elem_of_list_to_set (C:=gset Z) s ss), <-(elem_of_list_to_set (C:=gset Z) s ss').
    rewrite <-!elem_of_elements.
    rewrite <-(merge_sort_Permutation Z.le (elements (list_to_set ss))).
    rewrite <-(merge_sort_Permutation Z.le (elements (list_to_set ss'))).
    by rewrite H1. }
  apply states_of_spec in Hss, Hss'.
  assert (∀ l l' s s', Forall2 (λ x s, ∃ node, g !! x = Some node ∧ nfa.S node = s) l s →
            Forall2 (λ x s, ∃ node, g !! x = Some node ∧ nfa.S node = s) l' s' →
            (∀ z, z ∈ s → z ∈ s') → ∀ y, y ∈ l → y ∈ l') as Hdir.
  { intros l l' s s' Hl Hl' Hsub y Hy.
    apply list_elem_of_lookup in Hy as [i Hi].
    destruct (Forall2_lookup_l _ _ _ _ _ Hl Hi) as (z & Hz & node & Hnode & HS).
    apply list_elem_of_lookup_2, Hsub, list_elem_of_lookup in Hz as [j Hj].
    destruct (Forall2_lookup_r _ _ _ _ _ Hl' Hj) as (y' & Hy' & node' & Hnode' & HS').
    rewrite (Hu y y' node node' Hnode Hnode') by congruence.
    by eapply list_elem_of_lookup_2. }
  intros y. split; eapply Hdir; eauto; intros z; by apply Hsame.
Qed.
End labels.

Section final_states.
Import dfa.
Context (g : nfa.graph).

#[local] Abbreviation fresh_closed := (fresh_closed g).
#[local] Abbreviation call_spec := (call_spec g).

Lemma fresh_closed_trans V V1 V2 :
  V ⊆ V1 → V1 ⊆ V2 → fresh_closed V V1 → fresh_closed V1 V2 → fresh_closed V V2.
Proof.
  intros H01 H12 Hc1 Hc2 x Hx2 Hx.
  destruct (decide (x ∈ V1)) as [Hx1|Hx1].
  - destruct (Hc1 x Hx1 Hx) as [Hnf Hs]. split; [done|]. intros y Hy. apply H12. by apply Hs.
  - by apply Hc2.
Qed.

Lemma canReachFinal_edges_spec rec ts V b V' :
  (∀ y W b W', rec y W = Done (b, W') → call_spec y W b W') →
  canReachFinal_edges rec ts V = Done (b, V') →
  (b = true → ∃ e, e ∈ ts ∧ nfa.R e = None ∧ nfa.reaches_final g (nfa.N e)) ∧
  (b = false → V ⊆ V' ∧ (∀ e, e ∈ ts → nfa.R e = None → nfa.N e ∈ V') ∧
               fresh_closed V V').
Proof.
  intros Hrec. revert V. induction ts as [|e ts IH]; simpl; intros V Hout.
  { injection Hout as <- <-. split; [done|]. intros _. split; [done|].
    split; [by intros ? ?%elem_of_nil|]. by intros x ? ?. }
  destruct (nfa.R e) eqn:HR.
  - destruct (IH _ Hout) as [Ht Hf]. split.
    + intros Hb. destruct (Ht Hb) as (e' & ? & ? & ?). exists e'. split; [by right|done].
    + intros Hb. destruct (Hf Hb) as (? & Hall & ?). split; [done|]. split; [|done].
      intros e' [->|?]%elem_of_cons ?; [congruence|by apply Hall].
  - apply bind_Done in Hout as ([b1 V1] & Hcall & Hout).
    destruct (Hrec _ _ _ _ Hcall) as [Ht1 Hf1]. destruct b1.
    + injection Hout as <- <-. split; [|done]. intros _. exists e.
      split; [by left|]. split; [done|by apply Ht1].
    + destruct (Hf1 eq_refl) as (Hsub1 & Hin1 & Hc1).
      destruct (IH _ Hout) as [Ht Hf]. split.
      * intros Hb. destruct (Ht Hb) as (e' & ? & ? & ?). exists e'. split; [by right|done].
      * intros Hb. destruct (Hf Hb) as (Hsub & Hall & Hc). split; [set_solver|].
        split; [|by eapply fresh_closed_trans].
        intros e' [->|?]%elem_of_cons ?; [by apply Hsub|by apply Hall].
Qed.

Lemma canReachFinal_spec fuel n V b V' :
  canReachFinal fuel g n V = Done (b, V') → call_spec n V b V'.
Proof.
  revert n V b V'. induction fuel as [|fuel IH]; intros n V b V'; [done|]. simpl.
  intros Hout. apply bind_Done in Hout as (node & Hnode%deref_Done & Hout).
  destruct (nfa.F node) eqn:HF.
  { injection Hout as <- <-. split; [|done]. intros _. exists n, node.
    split; [apply rtc_refl|done]. }
  case_decide as Hv.
  { injection Hout as <- <-. split; [done|]. intros _. split; [done|]. split; [done|].
    by intros x ? ?. }
  destruct (canReachFinal_edges_spec _ _ _ _ _ IH Hout) as [Ht Hf]. split.
  - intros Hb. destruct (Ht Hb) as (e & He & HR & y & nodey & Hy & Hnodey & HFy).
    exists y, nodey. split; [|done]. eapply rtc_l; [|exact Hy]. by exists node, e.
  - intros Hb. destruct (Hf Hb) as (Hsub & Hall & Hc).
    split; [set_solver|]. split; [set_solver|].
    intros x Hx' Hx. destruct (decide (x = n)) as [->|Hne].
    + split; [by exists node|]. intros y (node' & e & Hnode' & He & HR & <-).
      rewrite Hnode in Hnode'. injection Hnode' as <-. by apply Hall.
    + apply Hc; [done|set_solver].
Qed.

Lemma closed_not_final (V : gset nfa.ptr) x :
  (∀ x, x ∈ V → (∃ node, g !! x = Some node ∧ nfa.F node = false) ∧
                 ∀ y, nfa.eps_step g x y → y ∈ V) →
  x ∈ V → ¬ nfa.reaches_final g x.
Proof.
  intros Hclosed Hx (y & node & Hxy & Hnode & HF).
  assert (y ∈ V) as Hy.
  { clear Hnode HF. induction Hxy as [|x y z Hxy _ IH]; [done|].
    apply IH. by apply (Hclosed x). }
  destruct (Hclosed y Hy) as [(node' & Hnode' & HF') _]. congruence.
Qed.

Lemma isFinal_loop_spec cls V b :
  (∀ x, x ∈ V → (∃ node, g !! x = Some node ∧ nfa.F node = false) ∧
                 ∀ y, nfa.eps_step g x y → y ∈ V) →
  isFinal_loop g cls V = Done b →
  (b = true ↔ ∃ n, n ∈ cls ∧ nfa.reaches_final g n).
Proof.
  revert V. induction cls as [|n cls IH]; cbn [isFinal_loop]; intros V Hclosed Hout.
  { injection Hout as <-. split; [done|]. by intros (? & ?%elem_of_nil & _). }
  apply bind_Done in Hout as ([b1 V1] & Hcall & Hout).
  destruct (canReachFinal_spec _ _ _ _ _ Hcall) as [Ht Hf]. destruct b1.
  { injection Hout as <-. split; [|done]. intros _. exists n. split; [by left|by apply Ht]. }
  destruct (Hf eq_refl) as (Hsub & Hn & Hc).
  assert (∀ x, x ∈ V1 → (∃ node, g !! x = Some node ∧ nfa.F node = false) ∧
                         ∀ y, nfa.eps_step g x y → y ∈ V1) as Hclosed1.
  { intros x Hx. destruct (decide (x ∈ V)) as [HxV|HxV]; [|by apply Hc].
    destruct (Hclosed x HxV) as [? Hs]. split; [done|]. intros y Hy. by apply Hsub, Hs. }
  rewrite (IH _ Hclosed1 Hout). split.
  - intros (n' & ? & ?). exists n'. split; [by right|done].
  - intros (n' & [->|?]%elem_of_cons & Hr); [|by exists n'].
    by destruct (closed_not_final V1 n).
Qed.

(** [isFinal] tells whether some node of the list reaches an accepting
    node through epsilon edges; the order of the list does not matter. *)
Lemma isFinal_spec cls b :
  isFinal g cls = Done b → (b = true ↔ ∃ n, n ∈ cls ∧ nfa.reaches_final g n).
Proof. apply isFinal_loop_spec. by intros x ?%not_elem_of_empty. Qed.
End final_states.

(** * The subset construction *)

Section statics.
Import dfa.
Context (g : nfa.graph).

Lemma same_static_refl n : same_static n n.
Proof. by repeat split. Qed.

Lemma same_static_trans n1 n2 n3 :
  same_static n1 n2 → same_static n2 n3 → same_static n1 n3.
Proof. intros (? & ? & ? & ?) (? & ? & ? & ?). repeat split; congruence. Qed.

Lemma same_static_set_Transitions ts n : same_static n (set_Transitions ts n).
Proof. by repeat split. Qed.

Lemma static_ext_refl h : static_ext h h.
Proof. intros l n Hn. exists n. split; [done|apply same_static_refl]. Qed.

Lemma static_ext_trans h1 h2 h3 :
  static_ext h1 h2 → static_ext h2 h3 → static_ext h1 h3.
Proof.
  intros H12 H23 l n Hn. destruct (H12 l n Hn) as (n2 & Hn2 & Hs2).
  destruct (H23 l n2 Hn2) as (n3 & Hn3 & Hs3). exists n3.
  split; [done|by eapply same_static_trans].
Qed.

Lemma static_ext_alloc (h : arena) l n : h !! l = None → static_ext h (<[l := n]> h).
Proof.
  intros Hl l' n' Hn'. exists n'. split; [|apply same_static_refl].
  rewrite lookup_insert_ne; [done|congruence].
Qed.

Lemma static_ext_update (h : arena) l n n' :
  h !! l = Some n → same_static n n' → static_ext h (<[l := n']> h).
Proof.
  intros Hl Hs l' m Hm. destruct (decide (l = l')) as [<-|Hne].
  - exists n'. rewrite lookup_insert_eq. split; [done|congruence].
  - exists m. rewrite lookup_insert_ne by done. split; [done|apply same_static_refl].
Qed.

Lemma first_state_static h h' node :
  static_ext h h' → is_Some (h !! node) → first_state g h' node = first_state g h node.
Proof.
  intros Hext [n Hn]. destruct (Hext _ _ Hn) as (n' & Hn' & _ & _ & _ & Hc).
  unfold first_state. by rewrite Hn, Hn', Hc.
Qed.

Lemma Sorted_first_state_static h h' (ts : list T) :
  static_ext h h' → Forall (λ t, is_Some (h !! T_Node t)) ts →
  Sorted (λ t t', first_state g h (T_Node t) ≤ first_state g h (T_Node t')) ts →
  Sorted (λ t t', first_state g h' (T_Node t) ≤ first_state g h' (T_Node t')) ts.
Proof.
  intros Hext Hall Horder.
  induction Horder as [|t ts Hts IH Hhd]; [constructor|].
  apply Forall_cons in Hall as [Ht Hall]. constructor; [by apply IH|].
  destruct Hhd as [|t' ts Htt']; constructor.
  apply Forall_cons in Hall as [Ht' _].
  by rewrite !(first_state_static h h').
Qed.

Lemma trans_ok_static h h' n : static_ext h h' → trans_ok g h n → trans_ok g h' n.
Proof.
  intros Hext [Htarget Hsorted Hdisj Hcover Horder]. split; try done.
  - intros t Ht. destruct (Htarget t Ht) as (n' & Hn' & Hne & Hmove).
    destruct (Hext _ _ Hn') as (n'' & Hn'' & _ & _ & _ & Hc).
    exists n''. rewrite <-Hc. done.
  - eapply Sorted_first_state_static; [done| |done].
    apply Forall_forall. intros t Ht. destruct (Htarget t Ht) as (n' & -> & _). eauto.
Qed.

Lemma m_ok_static X h h' m ub : static_ext h h' → m_ok g X h m ub → m_ok g X h' m ub.
Proof.
  intros Hext [Hentry Hapart]. split; [|done].
  intros node rr Hrr. destruct (Hentry node rr Hrr) as (? & ? & ? & n' & Hn' & Hne & Hmove).
  destruct (Hext _ _ Hn') as (n'' & Hn'' & _ & _ & _ & Hc).
  do 3 (split; [done|]). exists n''. by rewrite <-Hc.
Qed.

Lemma m_ok_weaken X h m ub ub' : ub ≤ ub' → m_ok g X h m ub → m_ok g X h m ub'.
Proof.
  intros Hle [Hentry Hapart]. split; [|done].
  intros node rr Hrr. destruct (Hentry node rr Hrr) as (? & ? & Hub & ?).
  do 2 (split; [done|]). split; [|done]. intros c Hc. specialize (Hub c Hc). lia.
Qed.

Lemma m_ok_empty X h ub : m_ok g X h ∅ ub.
Proof. split; intros *; by rewrite lookup_empty. Qed.

(** The cache and the iteration counter do not enter the invariant
    except through [cache_ok]. *)
Lemma world_ok_cache w P cache k :
  world_ok g w P → cache_ok g cache →
  world_ok g {| heap := heap w;
                ctx := {| state := state (ctx w); nodesByLabel := nodesByLabel (ctx w);
                          closureCache := cache |};
                tick := k |} P.
Proof.
  intros [Hnodes Hu Ht Hc Hp Hs] Hcache. split; try done.
  intros l n Hn. destruct (Hnodes l n Hn). by split.
Qed.

Lemma world_ok_tick w P k :
  world_ok g w P → world_ok g {| heap := heap w; ctx := ctx w; tick := k |} P.
Proof.
  intros [Hnodes Hu Ht Hc Hp Hs]. split; try done.
  intros l n Hn. destruct (Hnodes l n Hn). by split.
Qed.

Lemma edge_ranges_spec cs ranges :
  edge_ranges g cs = Done ranges →
  ∀ l, l ∈ ranges ↔ ∃ x node e, x ∈ cs ∧ g !! x = Some node ∧ e ∈ nfa.T node ∧
                                l = nfa.ranges e.
Proof.
  revert ranges. induction cs as [|x cs IH]; simpl; intros ranges Hr l.
  { injection Hr as <-. split; [by intros ?%elem_of_nil|].
    by intros (? & ? & ? & ?%elem_of_nil & _). }
  apply bind_Done in Hr as (node & Hnode%deref_Done & Hr).
  apply bind_Done in Hr as (rest & Hrest & [= <-]).
  rewrite elem_of_app, list_elem_of_fmap, (IH _ Hrest). split.
  - intros [(e & -> & He)|(x' & node' & e & ? & ? & ? & ->)].
    + exists x, node, e. split; [by left|done].
    + exists x', node', e. split; [by right|done].
  - intros (x' & node' & e & [->|?]%elem_of_cons & Hn' & ? & ->).
    + left. rewrite Hnode in Hn'. injection Hn' as <-. by exists e.
    + right. by exists x', node', e.
Qed.

Lemma read_sort_keys_spec h trs keyed :
  read_sort_keys g h trs = Done keyed →
  snd <$> keyed = trs ∧
  Forall (λ k, ∃ n', h !! k.2.1 = Some n' ∧
               k.1 = (match closures n' with
                      | [] => None
                      | c :: _ => Some (first_state g h k.2.1)
                      end, State n')) keyed.
Proof.
  revert keyed. induction trs as [|tr trs IH]; simpl; intros keyed Hk.
  { injection Hk as <-. by split. }
  apply bind_Done in Hk as (k & Hk1 & Hk).
  apply bind_Done in Hk as (rest & Hrest & [= <-]).
  destruct (IH _ Hrest) as [Hsnd Hall].
  unfold read_sort_key in Hk1.
  apply bind_Done in Hk1 as (n' & Hn'%deref_Done & Hk1).
  split.
  - rewrite fmap_cons, Hsnd. f_equal.
    destruct (closures n'); [by injection Hk1 as <-|].
    by apply bind_Done in Hk1 as (cn & _ & [= <-]).
  - constructor; [|done]. exists n'.
    unfold first_state. destruct (closures n') as [|c cs] eqn:Hc.
    + injection Hk1 as <-. simpl. by rewrite Hn'.
    + apply bind_Done in Hk1 as (cn & Hcn%deref_Done & [= <-]). simpl.
      by rewrite Hn', Hc, Hcn.
Qed.
End statics.

Section accumulate.
Import dfa runerange.
Context (g : nfa.graph).

Lemma covers_block lo hi c : covers [lo; hi] c ↔ lo ≤ c ≤ hi.
Proof. rewrite covers_cons. pose proof (covers_nil c). tauto. Qed.

(** [m[node] = runerange.Sum(m[node], block)] for a block above all the
    characters accumulated so far. *)
Lemma m_ok_insert X h m ub node n' lo hi :
  m_ok g X h m ub → ub < lo → lo ≤ hi →
  h !! node = Some n' → closures n' ≠ [] →
  (nfa.ids_unique g →
   ∀ c, lo ≤ c ≤ hi → ∀ y, y ∈ closures n' ↔ move_char g (λ x, x ∈ X) c y) →
  let m' := <[node := Sum (default [] (m !! node)) [lo; hi]]> m in
  m_ok g X h m' hi ∧ ∀ c, covers_m m' c ↔ covers_m m c ∨ lo ≤ c ≤ hi.
Proof.
  intros [Hentry Hapart] Hub Hlohi Hn' Hne Hmove m'.
  set (old := default [] (m !! node)).
  assert (sorted_disjoint old ∧ (∀ c, covers old c → c ≤ ub) ∧
          (∀ c, covers old c → m !! node = Some old) ∧
          (nfa.ids_unique g →
           ∀ c, covers old c → ∀ y, y ∈ closures n' ↔ move_char g (λ x, x ∈ X) c y))
    as (Hold_sorted & Hold_ub & Hold_in & Hold_move).
  { unfold old. destruct (m !! node) as [rr|] eqn:Hrr; simpl.
    - destruct (Hentry node rr Hrr) as (? & ? & ? & n'' & Hn'' & _ & Hm).
      rewrite Hn' in Hn''. injection Hn'' as <-. done.
    - split; [done|]. split; [|split]; [| |intros _]; intros c []%covers_nil. }
  destruct (Sum_sorted old [lo; hi]) as [Hnew_sorted Hnew_cov]; [done|simpl; lia|..].
  { intros c [Hc1 Hc2%covers_block]. specialize (Hold_ub c Hc1). lia. }
  assert (∀ c, covers (Sum old [lo; hi]) c ↔ covers old c ∨ lo ≤ c ≤ hi) as Hcov.
  { intros c. by rewrite Hnew_cov, covers_block. }
  subst m'. fold old. split; [split|].
  - intros k rr [[<- <-]|[Hne' Hk]]%lookup_insert_Some.
    + split; [done|]. split; [exists lo; apply Hcov; lia|]. split.
      * intros c [Hc|Hc]%Hcov; [specialize (Hold_ub c Hc)|]; lia.
      * exists n'. do 2 (split; [done|]). intros Hu c [Hc|Hc]%Hcov; auto.
    + destruct (Hentry k rr Hk) as (? & ? & Hkub & ?).
      do 2 (split; [done|]). split; [|done].
      intros c Hc. specialize (Hkub c Hc). lia.
  - intros k1 k2 rr1 rr2 c [[<- <-]|[Hne1 Hk1]]%lookup_insert_Some
      [[<- <-]|[Hne2 Hk2]]%lookup_insert_Some Hc1 Hc2; [done|..].
    + apply Hcov in Hc1 as [Hc1|Hc1].
      * eapply Hapart; eauto.
      * destruct (Hentry k2 rr2 Hk2) as (_ & _ & Hkub & _). specialize (Hkub c Hc2). lia.
    + apply Hcov in Hc2 as [Hc2|Hc2].
      * eapply Hapart; eauto.
      * destruct (Hentry k1 rr1 Hk1) as (_ & _ & Hkub & _). specialize (Hkub c Hc1). lia.
    + eapply Hapart; eauto.
  - intros c. split.
    + intros (k & rr & [[<- <-]|[Hne' Hk]]%lookup_insert_Some & Hc).
      * apply Hcov in Hc as [Hc|Hc]; [left|by right].
        exists node, old. split; [by eapply Hold_in|done].
      * left. by exists k, rr.
    + intros [(k & rr & Hk & Hc)|Hc].
      * destruct (decide (k = node)) as [->|Hne'].
        -- exists node, (Sum old [lo; hi]). split; [by apply lookup_insert_eq|].
           apply Hcov. left. unfold old. by rewrite Hk.
        -- exists k, rr. split; [by rewrite lookup_insert_ne|done].
      * exists node, (Sum old [lo; hi]). split; [by apply lookup_insert_eq|].
        apply Hcov. by right.
Qed.
End accumulate.

Section allocation.
Import dfa.
Context (g : nfa.graph).

(** Allocating the node of a label that is not in the table. *)
Lemma world_ok_alloc w P cls lbl fin :
  world_ok g w P →
  nodesByLabel (ctx w) !! lbl = None →
  labelFromClosure g cls = Done lbl → isFinal g cls = Done fin → cls ≠ [] →
  let node := fresh (dom (heap w)) in
  let w' := {| heap := <[node := {| State := state (ctx w) + 1; Final := fin;
                                    Transitions := []; label := lbl;
                                    closures := cls |}]> (heap w);
               ctx := {| state := state (ctx w) + 1;
                         nodesByLabel := <[lbl := node]> (nodesByLabel (ctx w));
                         closureCache := closureCache (ctx w) |};
               tick := tick w |} in
  heap w !! node = None ∧ node ∉ P ∧
  world_ok g w' ({[node]} ∪ P) ∧ static_ext (heap w) (heap w').
Proof.
  intros [Hnodes Hu Ht Hc Hp Hs] Hfree Hlbl Hfin Hne node w'.
  assert (heap w !! node = None) as Hnode.
  { apply not_elem_of_dom. apply is_fresh. }
  assert (node ∉ P) as HnodeP.
  { intros [n Hn]%Hp. congruence. }
  assert (static_ext (heap w) (heap w')) as Hext by by apply static_ext_alloc.
  do 2 (split; [done|]). split; [|done]. split; simpl.
  - intros l n [[<- <-]|[Hne' Hl]]%lookup_insert_Some.
    + split; simpl; [done|done|by rewrite lookup_insert_eq|lia|done|done|set_solver].
    + destruct (Hnodes l n Hl) as [Hl1 Hl2 Hl3 Hl4 Hl5 Hl6 Hl7]. split; simpl; try done.
      * rewrite lookup_insert_ne; [done|]. intros Heq. congruence.
      * lia.
      * intros [?%elem_of_singleton|?]%elem_of_union; [congruence|auto].
      * intros Hl'. eapply trans_ok_static; [exact Hext|]. apply Hl7. set_solver.
  - intros p q n m [[<- <-]|[Hnep Hp']]%lookup_insert_Some
      [[<- <-]|[Hneq Hq']]%lookup_insert_Some; simpl; intros Heq; [done|..].
    + destruct (Hnodes q m Hq') as [_ _ _ ? _ _ _]. lia.
    + destruct (Hnodes p n Hp') as [_ _ _ ? _ _ _]. lia.
    + by eapply Hu.
  - intros lbl' l [[<- <-]|[Hne' Hl]]%lookup_insert_Some.
    + eexists. by rewrite lookup_insert_eq.
    + destruct (Ht lbl' l Hl) as (n & Hn & Hln). exists n.
      rewrite lookup_insert_ne; [done|]. intros <-. congruence.
  - done.
  - intros l [->%elem_of_singleton|Hl]%elem_of_union.
    + by rewrite lookup_insert_eq.
    + destruct (Hp l Hl) as [n Hn]. exists n.
      rewrite lookup_insert_ne; [done|]. intros <-. congruence.
  - lia.
Qed.
End allocation.

Section blocks.
Import dfa runerange.
Context `{GoRuntime} (g : nfa.graph).

(** One block of the alphabet of the node [root]. *)
Lemma constructSubset_block_spec rec root rootN lo hi m w m' w' P ub :
  call_ok g rec →
  world_ok g w P → root ∈ P → heap w !! root = Some rootN →
  m_ok g (closures rootN) (heap w) m ub → ub < lo → lo ≤ hi →
  (∀ x node e c, x ∈ closures rootN → g !! x = Some node → e ∈ nfa.T node →
     lo ≤ c ≤ hi → Contains (nfa.ranges e) [lo; hi] = true ↔ covers (nfa.ranges e) c) →
  (∃ x node e, x ∈ closures rootN ∧ g !! x = Some node ∧ e ∈ nfa.T node ∧
               Contains (nfa.ranges e) [lo; hi] = true) →
  constructSubset_block rec g root [lo; hi] m w = Done (m', w') →
  world_ok g w' P ∧ static_ext (heap w) (heap w') ∧
  m_ok g (closures rootN) (heap w') m' hi ∧
  (∀ c, covers_m m' c ↔ covers_m m c ∨ lo ≤ c ≤ hi).
Proof.
  intros Hrec Hw HrootP Hroot Hm Hub Hlohi Helem Hinh Hblock.
  unfold constructSubset_block in Hblock.
  apply bind_Done in Hblock as ([out cache] & Hcfr & Hblock).
  apply bind_Done in Hblock as (lbl & Hlbl & Hblock).
  apply bind_Done in Hblock as (fin & Hfin & Hblock).
  apply bind_Done in Hblock as ([node w2] & Hnode & [= <- <-]).
  destruct (closuresForRange_spec g _ _ _ _ _ _ _ (wk_cache _ _ _ Hw) Hroot Hcfr)
    as (Hcache & _ & Hex & Hin).
  set (cls := union out (tick w)) in *.
  assert (∀ c, lo ≤ c ≤ hi →
            ∀ y, y ∈ cls ↔ move_char g (λ x, x ∈ closures rootN) c y) as Hcls.
  { intros c Hc y. unfold cls. rewrite elem_of_dfa_union. split.
    - intros (cl & (x & node' & e & Hx & Hn' & He & Hcont & Hcl)%Hin & Hy).
      exists x, node', e, cl. do 3 (split; [done|]). split; [|done].
      by apply (Helem x node' e c).
    - intros (x & node' & e & cl & Hx & Hn' & He & Hcov & Hcl & Hy).
      exists cl. split; [|done]. apply Hin. exists x, node', e.
      do 3 (split; [done|]). split; [|done]. by apply (Helem x node' e c). }
  assert (cls ≠ []) as Hcls_ne.
  { destruct Hinh as (x & node' & e & Hx & Hn' & He & Hcont).
    destruct (Hex x node' e Hx Hn' He Hcont) as [cl Hcl].
    destruct (closure_of_head g _ _ Hcl) as [rest ->].
    assert (nfa.N e ∈ cls) as Hmem.
    { unfold cls. apply elem_of_dfa_union. exists (nfa.N e :: rest). split; [|by left].
      apply Hin. by exists x, node', e. }
    intros Heq. rewrite Heq in Hmem. by apply elem_of_nil in Hmem. }
  set (w1 := {| heap := heap w;
                ctx := {| state := state (ctx w); nodesByLabel := nodesByLabel (ctx w);
                          closureCache := cache |};
                tick := S (tick w) |}) in *.
  assert (world_ok g w1 P) as Hw1 by by apply world_ok_cache.
  assert (heap w1 = heap w) as Hheap1 by done.
  destruct (nodesByLabel (ctx w1) !! lbl) as [n|] eqn:Htable.
  - (* the label is in the table *)
    injection Hnode as <- <-.
    destruct (wk_table _ _ _ Hw1 lbl n Htable) as (n' & Hn' & Hlabel).
    pose proof (wk_nodes _ _ _ Hw1 n n' Hn') as Hbuilt.
    pose proof (nk_label _ _ _ _ _ Hbuilt) as Hlbl'. rewrite Hlabel in Hlbl'.
    split; [done|]. split; [apply static_ext_refl|].
    apply (m_ok_insert g _ (heap w1) m ub n n' lo hi); try done.
    + apply (nk_nonempty _ _ _ _ _ Hbuilt).
    + intros Hids c Hc y.
      rewrite (labelFromClosure_inj g _ _ _ Hids Hlbl' Hlbl). by apply Hcls.
  - (* a new node *)
    apply bind_Done in Hnode as (w3 & Hcall & [= <- <-]).
    destruct (world_ok_alloc g w1 P cls lbl fin Hw1 Htable Hlbl Hfin Hcls_ne)
      as (Hfresh & HfreshP & Halloc & Hext1).
    set (node := fresh (dom (heap w1))) in *.
    destruct (Hrec node _ w3 _ Halloc) as [Hw3 Hext2]; [set_solver|exact Hcall|].
    replace (({[node]} ∪ P) ∖ {[node]}) with P in Hw3 by set_solver.
    pose proof (static_ext_trans _ _ _ Hext1 Hext2) as Hext.
    destruct (Hext2 node _ (lookup_insert_eq _ _ _)) as (n3 & Hn3 & _ & _ & _ & Hc3).
    simpl in Hc3.
    split; [done|]. split; [done|].
    apply (m_ok_insert g _ (heap w3) m ub node n3 lo hi); try done.
    + by eapply m_ok_static.
    + by rewrite <-Hc3.
    + intros _ c Hc y. rewrite <-Hc3. by apply Hcls.
Qed.
End blocks.

Section finish.
Import dfa runerange.
Context `{GoRuntime} (g : nfa.graph).

(** The pending node [root] is finished. *)
Lemma world_ok_finish w P root rootN ts tk :
  world_ok g w P → root ∈ P → heap w !! root = Some rootN →
  trans_ok g (<[root := set_Transitions ts rootN]> (heap w)) (set_Transitions ts rootN) →
  world_ok g {| heap := <[root := set_Transitions ts rootN]> (heap w);
                ctx := ctx w; tick := tk |} (P ∖ {[root]}).
Proof.
  intros [Hnodes Hu Ht Hc Hp Hs] HrootP Hroot Htrans.
  pose proof (static_ext_update _ _ _ _ Hroot (same_static_set_Transitions ts rootN))
    as Hext.
  split; simpl; try done.
  - intros l n [[<- <-]|[Hne Hl]]%lookup_insert_Some.
    + destruct (Hnodes root rootN Hroot) as [Hl1 Hl2 Hl3 Hl4 Hl5 Hl6 Hl7].
      split; simpl; try done. set_solver.
    + destruct (Hnodes l n Hl) as [Hl1 Hl2 Hl3 Hl4 Hl5 Hl6 Hl7].
      split; simpl; try done.
      * intros Hl'. apply Hl6. set_solver.
      * intros Hl'. eapply trans_ok_static; [exact Hext|]. apply Hl7. set_solver.
  - intros p q n m Hp' Hq' Heq.
    assert (∀ l k, <[root := set_Transitions ts rootN]> (heap w) !! l = Some k →
              ∃ k', heap w !! l = Some k' ∧ State k' = State k) as Hback.
    { intros l k [[<- <-]|[? ?]]%lookup_insert_Some; eauto. }
    destruct (Hback _ _ Hp') as (n' & Hn' & Hsn), (Hback _ _ Hq') as (m' & Hm' & Hsm).
    eapply Hu; eauto. congruence.
  - intros lbl l Hl. destruct (Ht lbl l Hl) as (n & Hn & Hlbl).
    destruct (Hext _ _ Hn) as (n' & Hn' & _ & _ & Hl' & _). exists n'.
    split; [done|congruence].
  - intros l [Hl _]%elem_of_difference. destruct (Hp l Hl) as [n Hn].
    destruct (Hext _ _ Hn) as (n' & Hn' & _). eauto.
Qed.

Lemma set_Transitions_id n : set_Transitions (Transitions n) n = n.
Proof. by destruct n. Qed.

(** The transitions read off the map [m]. *)
Lemma transitions_of_map_ok X h m ub root rootN ts :
  m_ok g X h m ub → closures rootN = X → h !! root = Some rootN →
  (∀ c, covers_m m c ↔ edge_covers g X c) →
  ts ≡ₚ (λ tr, {| RuneRanges := tr.2; T_Node := tr.1 |}) <$> map_to_list m →
  Sorted (λ t t', first_state g h (T_Node t) ≤ first_state g h (T_Node t')) ts →
  trans_ok g (<[root := set_Transitions ts rootN]> h) (set_Transitions ts rootN).
Proof.
  intros [Hentry Hapart] HX Hroot Hcov Hperm Hsorted.
  pose proof (static_ext_update _ _ _ _ Hroot (same_static_set_Transitions ts rootN))
    as Hext.
  assert (∀ t, t ∈ ts ↔ m !! T_Node t = Some (RuneRanges t)) as Hts.
  { intros t. rewrite Hperm, list_elem_of_fmap. split.
    - intros ([node rr] & -> & Hin%elem_of_map_to_list). done.
    - intros Ht. exists (T_Node t, RuneRanges t). split; [by destruct t|].
      by apply elem_of_map_to_list. }
  assert (NoDup (T_Node <$> ts)) as Hnd.
  { rewrite Hperm, <-list_fmap_compose. apply NoDup_fst_map_to_list. }
  split; simpl.
  - intros t Ht%Hts. destruct (Hentry _ _ Ht) as (_ & _ & _ & n' & Hn' & Hne & Hmove).
    destruct (Hext _ _ Hn') as (n'' & Hn'' & _ & _ & _ & Hc).
    exists n''. rewrite <-Hc, HX. done.
  - intros t Ht%Hts. by destruct (Hentry _ _ Ht) as (? & _).
  - apply transitions_disjoint_spec. intros i j t t' c Hi Hj Hc Hc'.
    pose proof (list_elem_of_lookup_2 _ _ _ Hi) as Ht%Hts.
    pose proof (list_elem_of_lookup_2 _ _ _ Hj) as Ht'%Hts.
    pose proof (Hapart _ _ _ _ c Ht Ht' Hc Hc') as Heq.
    eapply (NoDup_lookup _ _ _ (T_Node t) Hnd); rewrite list_lookup_fmap.
    + by rewrite Hi.
    + rewrite Hj. simpl. by rewrite Heq.
  - intros c. rewrite HX, <-Hcov. split.
    + intros (t & Ht%Hts & Hc). by exists (T_Node t), (RuneRanges t).
    + intros (node & rr & Hm & Hc).
      exists {| RuneRanges := rr; T_Node := node |}. split; [by apply Hts|done].
  - eapply Sorted_first_state_static; [exact Hext| |done].
    apply Forall_forall. intros t Ht%Hts.
    destruct (Hentry _ _ Ht) as (_ & _ & _ & n' & -> & _). eauto.
Qed.

(** The order in which [sort.Slice] leaves the transitions. *)
Lemma sorted_transitions h (trs : list (ptr * list rune)) keyed :
  read_sort_keys g h trs = Done keyed →
  (∀ tr, tr ∈ trs → ∃ n', h !! tr.1 = Some n' ∧ closures n' ≠ []) →
  let ts := (λ t : (option Z * Z) * (ptr * list rune),
               {| RuneRanges := t.2.2; T_Node := t.2.1 |}) <$> sort_Slice less keyed in
  ts ≡ₚ (λ tr, {| RuneRanges := tr.2; T_Node := tr.1 |}) <$> trs ∧
  Sorted (λ t t', first_state g h (T_Node t) ≤ first_state g h (T_Node t')) ts.
Proof.
  intros Hkeyed Hne ts. destruct (read_sort_keys_spec g _ _ _ Hkeyed) as [Hsnd Hkeys].
  split.
  - unfold ts. rewrite sort_Slice_perm, <-Hsnd, <-list_fmap_compose. done.
  - unfold ts. apply (Sorted_fmap _ (λ x y : (option Z * Z) * (ptr * list rune),
                                       first_state g h x.2.1 ≤ first_state g h y.2.1)).
    { by intros x y. }
    apply (sort_Slice_sorted _ less (λ k, first_state g h k.2.1)).
    rewrite Forall_forall in Hkeys.
    assert (∀ k, k ∈ keyed → k.1.1 = Some (first_state g h k.2.1)) as Hfirst.
    { intros k Hk. destruct (Hkeys k Hk) as (n' & Hn' & ->).
      destruct (Hne k.2) as (n'' & Hn'' & Hcl).
      { rewrite <-Hsnd. apply list_elem_of_fmap. by exists k. }
      rewrite Hn' in Hn''. injection Hn'' as <-. by destruct (closures n'). }
    intros x y Hx Hy. unfold less. by rewrite (Hfirst x Hx), (Hfirst y Hy).
Qed.
End finish.

Section construct.
Import dfa runerange.
Context `{GoRuntime} (g : nfa.graph).

(** The loop of [constructSubset] over the blocks of the alphabet. *)
Lemma constructSubset_blocks_spec rec root X blocks m w m' w' P ub :
  call_ok g rec →
  world_ok g w P → root ∈ P →
  (∃ rootN, heap w !! root = Some rootN ∧ closures rootN = X) →
  m_ok g X (heap w) m ub → ascending_from ub blocks →
  (∀ lo hi, (lo, hi) ∈ pairs blocks →
     (∀ x node e c, x ∈ X → g !! x = Some node → e ∈ nfa.T node →
        lo ≤ c ≤ hi → Contains (nfa.ranges e) [lo; hi] = true ↔ covers (nfa.ranges e) c) ∧
     (∃ x node e, x ∈ X ∧ g !! x = Some node ∧ e ∈ nfa.T node ∧
                  Contains (nfa.ranges e) [lo; hi] = true)) →
  constructSubset_blocks rec g root blocks m w = Done (m', w') →
  world_ok g w' P ∧ static_ext (heap w) (heap w') ∧
  (∃ ub', m_ok g X (heap w') m' ub') ∧
  (∀ c, covers_m m' c ↔ covers_m m c ∨ covers blocks c).
Proof.
  intros Hrec. revert m w ub.
  induction blocks as [blocks IH] using (induction_ltof1 _ length); unfold ltof in IH.
  intros m w ub Hw HrootP (rootN & Hroot & HX) Hm Hasc Hblocks Hloop.
  destruct blocks as [|lo [|hi blocks]]; simpl in Hloop.
  - injection Hloop as <- <-. split; [done|]. split; [apply static_ext_refl|].
    split; [by eauto|]. intros c. pose proof (covers_nil c). tauto.
  - done.
  - apply bind_Done in Hloop as ([m1 w1] & Hblock & Hloop).
    destruct Hasc as (Hub & Hlohi & Hasc).
    destruct (Hblocks lo hi ltac:(left)) as [Helem Hinh].
    subst X.
    destruct (constructSubset_block_spec g rec root rootN lo hi m w m1 w1 P ub)
      as (Hw1 & Hext1 & Hm1 & Hcov1); try done.
    destruct (Hext1 _ _ Hroot) as (rootN1 & Hroot1 & _ & _ & _ & Hc1).
    destruct (IH blocks ltac:(simpl; lia) m1 w1 hi) as (Hw' & Hext' & Hm' & Hcov');
      try done.
    { by exists rootN1. }
    { intros lo' hi' Hin. apply Hblocks. by right. }
    split; [done|]. split; [by eapply static_ext_trans|]. split; [done|].
    intros c. rewrite Hcov', Hcov1, covers_cons. tauto.
Qed.

Lemma edge_covers_ranges cs ranges c :
  edge_ranges g cs = Done ranges →
  edge_covers g cs c ↔ ∃ l, l ∈ ranges ∧ covers l c.
Proof.
  intros Hr. split.
  - intros (x & node & e & ? & ? & ? & ?). exists (nfa.ranges e). split; [|done].
    apply (edge_ranges_spec g _ _ Hr). by exists x, node, e.
  - intros (l & (x & node & e & ? & ? & ? & ->)%(edge_ranges_spec g _ _ Hr) & ?).
    by exists x, node, e.
Qed.

(** Every call of [constructSubset] that returns keeps the invariant of
    the build and finishes its node. *)
Lemma constructSubset_ok fuel : call_ok g (constructSubset fuel g).
Proof.
  induction fuel as [|fuel IH]; intros root w w' P Hw HrootP Hcall; [done|].
  simpl in Hcall.
  apply bind_Done in Hcall as (rootN & Hroot%deref_Done & Hcall).
  apply bind_Done in Hcall as (ranges & Hranges & Hcall).
  apply bind_Done in Hcall as ([m w1] & Hblocks & Hcall).
  pose proof (Split_sorted ranges) as [ub Hasc]%sorted_disjoint_ascending.
  destruct (constructSubset_blocks_spec (constructSubset fuel g) root (closures rootN)
              (Split ranges) ∅ w m w1 P ub)
    as (Hw1 & Hext1 & [ub' Hm] & Hcov); try done.
  { by exists rootN. }
  { intros lo hi Hin. split.
    - intros x node e c Hx Hnode He Hc.
      apply (Contains_block ranges); [done| |done].
      apply (edge_ranges_spec g _ _ Hranges). by exists x, node, e.
    - destruct (Split_elementary _ _ _ Hin) as (_ & (p & Hp & Hplo & Hphi) & _).
      apply elem_of_nonempty_pairs in Hp as (_ & l & Hl & Hpl).
      apply (edge_ranges_spec g _ _ Hranges) in Hl as (x & node & e & ? & ? & ? & ->).
      exists x, node, e. do 3 (split; [done|]).
      apply Contains_spec. by exists p. }
  assert (∀ c, covers_m m c ↔ edge_covers g (closures rootN) c) as Hcover.
  { intros c. rewrite Hcov, (edge_covers_ranges _ _ _ Hranges), Split_covers.
    split; [by intros [(? & ? & ?%lookup_empty_Some & _)|?]|by right]. }
  destruct (Hext1 _ _ Hroot) as (rootN1 & Hroot1 & _ & _ & _ & Hc1).
  pose proof (nk_pending _ _ _ _ _ (wk_nodes _ _ _ Hw1 _ _ Hroot1) HrootP) as Hempty.
  cbn [heap ctx tick] in Hcall.
  case_decide as Hsize.
  - (* some transitions *)
    apply bind_Done in Hcall as (keyed & Hkeyed & Hcall).
    apply bind_Done in Hcall as (rootN1' & Hroot1'%deref_Done & [= <-]).
    rewrite Hroot1 in Hroot1'. injection Hroot1' as <-.
    rewrite Hempty, app_nil_l.
    destruct (sorted_transitions g (heap w1) _ _ Hkeyed) as [Hperm Hsorted].
    { intros [node rr] Hin. rewrite map_range_perm in Hin.
      apply elem_of_map_to_list in Hin.
      destruct (mk_entry _ _ _ _ _ Hm _ _ Hin) as (_ & _ & _ & n' & ? & ? & _). eauto. }
    rewrite map_range_perm in Hperm.
    split.
    + apply (world_ok_finish g w1 P root rootN1); [done..|].
      eapply (transitions_of_map_ok g (closures rootN)); try done.
    + eapply static_ext_trans; [exact Hext1|].
      eapply static_ext_update; [done|apply same_static_set_Transitions].
  - (* no transition *)
    injection Hcall as <-.
    assert (m = ∅) as ->.
    { apply map_size_empty_iff. lia. }
    split; [|done].
    pose proof (world_ok_finish g w1 P root rootN1 [] (S (tick w1)) Hw1 HrootP Hroot1)
      as Hfin.
    rewrite <-Hempty, set_Transitions_id, insert_id in Hfin by done.
    apply Hfin.
    rewrite <-(insert_id (heap w1) root rootN1) at 1 by done.
    rewrite <-(set_Transitions_id rootN1) at 1 2. rewrite Hempty.
    eapply (transitions_of_map_ok g (closures rootN) _ ∅); done.
Qed.
End construct.

Section new_from_nfa.
Import dfa runerange.
Context `{GoRuntime} (g : nfa.graph).

Lemma world_ok_empty k :
  world_ok g {| heap := ∅;
                ctx := {| state := 0; nodesByLabel := ∅; closureCache := ∅ |};
                tick := k |} ∅.
Proof. split; simpl; try done; intros *; by rewrite ?lookup_empty. Qed.

(** The build leaves an arena all of whose nodes are finished, and the
    root holds the closure of the root of the NFA. *)
Lemma NewFromNFA_ok fuel nfanode k node w :
  NewFromNFA fuel g nfanode k = Done (node, w) →
  world_ok g w ∅ ∧
  ∃ n cls, heap w !! node = Some n ∧ closure_of g nfanode = Done cls ∧ closures n = cls.
Proof.
  unfold NewFromNFA. intros Hnew.
  apply bind_Done in Hnew as ([node0 w0] & Hfirst & Hnew).
  apply bind_Done in Hnew as (w1 & Hcs & [= <- <-]).
  unfold firstNode in Hfirst. cbn [ctx closureCache heap state nodesByLabel tick] in Hfirst.
  apply bind_Done in Hfirst as ([cls cache] & Hcl & Hfirst).
  apply bind_Done in Hfirst as (lbl & Hlbl & Hfirst).
  apply bind_Done in Hfirst as (fin & Hfin & [= <- <-]).
  assert (cache_ok g ∅) as Hcache0 by (intros x c Hx; by rewrite lookup_empty in Hx).
  destruct (closure_spec g _ _ _ _ Hcache0 Hcl) as [Hclosure Hcache].
  pose proof (world_ok_cache g _ _ cache k (world_ok_empty k) Hcache) as Hw0.
  destruct (closure_of_head g _ _ Hclosure) as [rest Hrest].
  destruct (world_ok_alloc g _ ∅ cls lbl fin Hw0) as (_ & _ & Halloc & _); try done.
  { by rewrite Hrest. }
  cbn [heap ctx state nodesByLabel closureCache tick] in Halloc.
  destruct (constructSubset_ok g fuel (fresh (dom (∅ : arena))) _ w1 _ Halloc)
    as [Hw1 Hext]; [set_solver|exact Hcs|].
  replace (({[fresh (dom (∅ : arena))]} ∪ ∅) ∖ {[fresh (dom (∅ : arena))]})
    with (∅ : gset ptr) in Hw1 by set_solver.
  split; [done|].
  destruct (Hext (fresh (dom (∅ : arena))) _ (lookup_insert_eq _ _ _))
    as (n & Hn & _ & _ & _ & Hc).
  exists n, cls. simpl in Hc. done.
Qed.

Lemma world_ok_well_formed w : world_ok g w ∅ → well_formed (heap w).
Proof.
  intros Hw.
  assert (∀ l n, heap w !! l = Some n → trans_ok g (heap w) n) as Hdone.
  { intros l n Hn. by apply (nk_done _ _ _ _ _ (wk_nodes _ _ _ Hw l n Hn)). }
  split.
  - intros l n Hn. apply Forall_forall. intros t Ht.
    destruct (tk_target _ _ _ (Hdone l n Hn) t Ht) as (n' & -> & _). eauto.
  - intros l n Hn. apply Forall_forall. intros t Ht.
    by apply (tk_sorted _ _ _ (Hdone l n Hn)).
  - intros l n Hn. apply (tk_disjoint _ _ _ (Hdone l n Hn)).
  - apply (wk_unique _ _ _ Hw).
Qed.

(** The automaton that [NewFromNFA] returns is well-formed. *)
Lemma NewFromNFA_well_formed fuel nfanode k node w :
  NewFromNFA fuel g nfanode k = Done (node, w) →
  well_formed (heap w) ∧ is_Some (heap w !! node).
Proof.
  intros (Hw & n & cls & Hn & _)%NewFromNFA_ok.
  split; [by apply world_ok_well_formed|eauto].
Qed.
End new_from_nfa.

(** * Runs of the subset construction *)

Section determinisation.
Import dfa runerange.
Context `{GoRuntime} (g : nfa.graph).

Lemma NewFromNFA_node_built fuel nfanode k root w l n :
  NewFromNFA fuel g nfanode k = Done (root, w) →
  heap w !! l = Some n →
  node_built g w ∅ l n ∧ trans_ok g (heap w) n.
Proof.
  intros Hrun Hl. apply NewFromNFA_ok in Hrun as [Hw _].
  pose proof (wk_nodes _ _ _ Hw _ _ Hl) as Hn. split; [done|].
  apply (nk_done _ _ _ _ _ Hn). set_solver.
Qed.

Lemma edge_covers_non_epsilon X c :
  edge_covers g X c ↔
  ∃ x node e rr, x ∈ X ∧ g !! x = Some node ∧ e ∈ nfa.T node ∧
                 nfa.R e = Some rr ∧ covers rr c.
Proof.
  unfold edge_covers, nfa.ranges. split.
  - intros (x & node & e & Hx & Hg & He & Hc). exists x, node, e.
    destruct (nfa.R e) as [rr|] eqn:HR; simpl in Hc; [by exists rr|].
    by apply covers_nil in Hc.
  - intros (x & node & e & rr & Hx & Hg & He & HR & Hc). exists x, node, e.
    by rewrite HR.
Qed.

(** C5.  Every node of the arena that [NewFromNFA] returns has
    transitions whose range lists are pairwise disjoint: no character is
    covered by two transitions.  A character is covered by some
    transition exactly when it is covered by the range of some
    non-epsilon edge that leaves a node of the closure set. *)
Theorem NewFromNFA_transitions_partition fuel nfanode k root w :
  NewFromNFA fuel g nfanode k = Done (root, w) →
  ∀ l n, heap w !! l = Some n →
    (∀ c i j t t',
       Transitions n !! i = Some t → Transitions n !! j = Some t' →
       covers (RuneRanges t) c → covers (RuneRanges t') c → i = j) ∧
    (∀ c, (∃ t, t ∈ Transitions n ∧ covers (RuneRanges t) c) ↔
          (∃ x node e rr, x ∈ closures n ∧ g !! x = Some node ∧
                          e ∈ nfa.T node ∧ nfa.R e = Some rr ∧ covers rr c)).
Proof.
  intros Hrun l n Hl.
  destruct (NewFromNFA_node_built _ _ _ _ _ _ _ Hrun Hl) as [_ Htr]. split.
  - intros c i j t t' Hi Hj Hc Hc'.
    eapply transitions_disjoint_spec; eauto using tk_disjoint.
  - intros c. rewrite <-edge_covers_non_epsilon. apply (tk_cover _ _ _ Htr).
Qed.

(** C6, as the code has it.  Every target of a transition has a
    non-empty closure list, so the comparison of [sort.Slice] never falls
    back to [State]; the transitions of a node are in the order of the
    state id of the first NFA node of the closure list of their targets. *)
Theorem NewFromNFA_transitions_sorted fuel nfanode k root w :
  NewFromNFA fuel g nfanode k = Done (root, w) →
  ∀ l n, heap w !! l = Some n →
    (∀ t, t ∈ Transitions n →
       ∃ n' c rest cn,
         heap w !! T_Node t = Some n' ∧ closures n' = c :: rest ∧
         g !! c = Some cn ∧ first_state g (heap w) (T_Node t) = nfa.S cn) ∧
    Sorted (λ t t', first_state g (heap w) (T_Node t) ≤
                    first_state g (heap w) (T_Node t'))
           (Transitions n).
Proof.
  intros Hrun l n Hl.
  destruct (NewFromNFA_node_built _ _ _ _ _ _ _ Hrun Hl) as [_ Htr].
  split; [|apply (tk_order _ _ _ Htr)].
  intros t Ht. destruct (tk_target _ _ _ Htr t Ht) as (n' & Hn' & Hne & _).
  destruct (NewFromNFA_node_built _ _ _ _ _ _ _ Hrun Hn') as [Hb _].
  destruct (closures n') as [|c rest] eqn:Hcl; [done|].
  pose proof (nk_label _ _ _ _ _ Hb) as Hlbl. rewrite Hcl in Hlbl.
  assert (Forall (λ x, is_Some (g !! x)) (c :: rest)) as Hall.
  { apply labelFromClosure_Done. eauto. }
  apply Forall_cons in Hall as [[cn Hcn] _].
  exists n', c, rest, cn. unfold first_state. by rewrite Hn', Hcl, Hcn.
Qed.
End determinisation.

Section runs.
Import dfa runerange examples.

Lemma NewFromNFA_transitions_partition_witness :
  ∃ root w,
    @NewFromNFA runtime_forward 10 nfa_fork 0%nat 0%nat = Done (root, w) ∧
    ∀ l n, heap w !! l = Some n →
      (∀ c i j t t',
         Transitions n !! i = Some t → Transitions n !! j = Some t' →
         covers (RuneRanges t) c → covers (RuneRanges t') c → i = j) ∧
      (∀ c, (∃ t, t ∈ Transitions n ∧ covers (RuneRanges t) c) ↔
            (∃ x node e rr, x ∈ closures n ∧ nfa_fork !! x = Some node ∧
                            e ∈ nfa.T node ∧ nfa.R e = Some rr ∧ covers rr c)).
Proof.
  eexists _, _. split; [vm_compute; reflexivity|].
  apply (@NewFromNFA_transitions_partition runtime_forward nfa_fork 10 0%nat 0%nat 0%nat).
  vm_compute. reflexivity.
Defined.

Lemma NewFromNFA_transitions_sorted_witness :
  ∃ root w,
    @NewFromNFA runtime_backward 10 nfa_a_star_b 0%nat 0%nat = Done (root, w) ∧
    ∀ l n, heap w !! l = Some n →
      (∀ t, t ∈ Transitions n →
         ∃ n' c rest cn,
           heap w !! T_Node t = Some n' ∧ closures n' = c :: rest ∧
           nfa_a_star_b !! c = Some cn ∧
           first_state nfa_a_star_b (heap w) (T_Node t) = nfa.S cn) ∧
      Sorted (λ t t', first_state nfa_a_star_b (heap w) (T_Node t) ≤
                      first_state nfa_a_star_b (heap w) (T_Node t'))
             (Transitions n).
Proof.
  eexists _, _. split; [vm_compute; reflexivity|].
  apply (@NewFromNFA_transitions_sorted runtime_backward nfa_a_star_b 10 0%nat 0%nat 0%nat).
  vm_compute. reflexivity.
Defined.

(** C6 fails as stated.  In [nfa_detour] the closure list of the target
    on [a] is [5; 1] and that of the target on [b] is [3]; the root lists
    the transition on [b] first, although the smallest state id behind
    the transition on [a] is 1. *)
Lemma transitions_not_sorted_by_smallest_state :
  ∃ root w n,
    @NewFromNFA runtime_forward 10 nfa_detour 0%nat 0%nat = Done (root, w) ∧
    heap w !! root = Some n ∧
    (λ t, (RuneRanges t, min_state nfa_detour (heap w) (T_Node t)))
      <$> Transitions n = [([98; 98], 3); ([97; 97], 1)] ∧
    ¬ Sorted (λ t t', min_state nfa_detour (heap w) (T_Node t) ≤
                      min_state nfa_detour (heap w) (T_Node t'))
             (Transitions n).
Proof.
  eexists _, _, _. split; [vm_compute; reflexivity|].
  split; [vm_compute; reflexivity|]. split; [vm_compute; reflexivity|].
  intros Hs. apply Sorted_inv in Hs as [_ Hhd]. apply HdRel_inv in Hhd.
  vm_compute in Hhd. by apply Hhd.
Qed.

(** C7 fails on the code.  In [nfa_fork] two edges on [a] leave the
    root, so [union] builds the closure list of their target by ranging
    over a map.  A run that ranges in one order yields [3; 1], a run that
    ranges in the other yields [1; 3]; [sort.Slice] compares the first
    element, and the transitions of the root come out in opposite orders
    in the two runs. *)
Theorem NewFromNFA_order_depends_on_map_order :
  ∃ root1 w1 n1 root2 w2 n2,
    @NewFromNFA runtime_forward 10 nfa_fork 0%nat 0%nat = Done (root1, w1) ∧
    @NewFromNFA runtime_backward 10 nfa_fork 0%nat 0%nat = Done (root2, w2) ∧
    heap w1 !! root1 = Some n1 ∧ heap w2 !! root2 = Some n2 ∧
    label n1 = label n2 ∧
    RuneRanges <$> Transitions n1 = [[98; 98]; [97; 97]] ∧
    RuneRanges <$> Transitions n2 = [[97; 97]; [98; 98]] ∧
    omap (λ t, label <$> heap w1 !! T_Node t) (Transitions n1) = ["2"; "1,3"] ∧
    omap (λ t, label <$> heap w2 !! T_Node t) (Transitions n2) = ["1,3"; "2"] ∧
    omap (λ t, closures <$> heap w1 !! T_Node t) (Transitions n1)
      = [[2%nat]; [3%nat; 1%nat]] ∧
    omap (λ t, closures <$> heap w2 !! T_Node t) (Transitions n2)
      = [[1%nat; 3%nat]; [2%nat]].
Proof.
  eexists _, _, _, _, _, _. split; [vm_compute; reflexivity|].
  split; [vm_compute; reflexivity|]. split; [vm_compute; reflexivity|].
  split; [vm_compute; reflexivity|]. repeat split; vm_compute; reflexivity.
Qed.
End runs.

(** * The languages of the automata *)

Section subset_language.
Import dfa runerange.
Context (g : nfa.graph).

Lemma moves_ext sel X Y y :
  (∀ x, X x ↔ Y x) → moves g sel X y ↔ moves g sel Y y.
Proof.
  intros HXY. unfold moves.
  split; intros (x & node & e & cls & Hx & Hrest); exists x, node, e, cls;
    (split; [by apply HXY|done]).
Qed.

Lemma move_word_ext w X Y :
  (∀ x, X x ↔ Y x) → ∀ y, move_word g X w y ↔ move_word g Y w y.
Proof.
  revert X Y. induction w as [|c w IH]; intros X Y HXY y; simpl; [done|].
  apply IH. intros x. by apply moves_ext.
Qed.

Lemma move_word_inhabited w X y : move_word g X w y → ∃ x, X x.
Proof.
  revert X y. induction w as [|c w IH]; intros X y; simpl; [by eauto|].
  intros (x' & x & node & e & cls & Hx & _)%IH. eauto.
Qed.

Lemma move_char_edge_covers X c y :
  move_char g (λ x, x ∈ X) c y → edge_covers g X c.
Proof. intros (x & node & e & cls & Hx & Hg & He & Hc & _). by exists x, node, e. Qed.

Context (h : arena).
Hypothesis Hunique : nfa.ids_unique g.
Hypothesis Hnodes : ∀ l n, h !! l = Some n →
  trans_ok g h n ∧ isFinal g (closures n) = Done (Final n).

(** A run of the DFA follows the subset automaton. *)
Lemma dfa_run_closures w p n q nq :
  h !! p = Some n → dfa_run h p w q → h !! q = Some nq →
  ∀ y, y ∈ closures nq ↔ move_word g (λ x, x ∈ closures n) w y.
Proof.
  revert p n. induction w as [|c w IH]; intros p n Hp; simpl.
  { intros <- Hq y. by simplify_eq. }
  intros (n0 & t & Hn0 & Ht & Hc & Hrun) Hq y. simplify_eq.
  destruct (Hnodes _ _ Hp) as [Htr _].
  destruct (tk_target _ _ _ Htr t Ht) as (n' & Hn' & _ & Hmove).
  rewrite (IH _ _ Hn' Hrun Hq). apply move_word_ext. intros x.
  by apply Hmove.
Qed.

(** The DFA has a run on every word on which the subset automaton
    reaches some node. *)
Lemma dfa_run_exists w p n y :
  h !! p = Some n → move_word g (λ x, x ∈ closures n) w y →
  ∃ q nq, dfa_run h p w q ∧ h !! q = Some nq.
Proof.
  revert p n. induction w as [|c w IH]; intros p n Hp; simpl.
  { intros _. by exists p, n. }
  intros Hy. destruct (Hnodes _ _ Hp) as [Htr _].
  destruct (move_word_inhabited _ _ _ Hy) as [x Hx].
  apply move_char_edge_covers, (tk_cover _ _ _ Htr) in Hx as (t & Ht & Hc).
  destruct (tk_target _ _ _ Htr t Ht) as (n' & Hn' & _ & Hmove).
  destruct (IH _ _ Hn') as (q & nq & Hrun & Hq).
  { eapply move_word_ext, Hy. intros z. by apply Hmove. }
  exists q, nq. split; [|done]. by exists n, t.
Qed.

Lemma dfa_accepts_subset w p n :
  h !! p = Some n →
  dfa_accepts h p w ↔ accepting g (move_word g (λ x, x ∈ closures n) w).
Proof.
  intros Hp. split.
  - intros (q & nq & Hrun & Hq & Hfin).
    destruct (Hnodes _ _ Hq) as [_ Hisf]. rewrite Hfin in Hisf.
    apply isFinal_spec in Hisf as [Hex _].
    destruct (Hex eq_refl) as (x & Hx & Hreach).
    exists x. split; [|done]. by apply (dfa_run_closures w p n q nq Hp Hrun Hq).
  - intros (x & Hx & Hreach).
    destruct (dfa_run_exists _ _ _ _ Hp Hx) as (q & nq & Hrun & Hq).
    exists q, nq. split; [done|]. split; [done|].
    destruct (Hnodes _ _ Hq) as [_ Hisf].
    apply isFinal_spec in Hisf. apply Hisf. exists x. split; [|done].
    by apply (dfa_run_closures w p n q nq Hp Hrun Hq).
Qed.
End subset_language.

Section determinised_language.
Import dfa.
Context `{GoRuntime} (g : nfa.graph).

(** The DFA that [NewFromNFA] builds accepts the language of the NFA. *)
Lemma NewFromNFA_language fuel nfanode k root w :
  nfa.ids_unique g →
  NewFromNFA fuel g nfanode k = Done (root, w) →
  ∀ word, dfa_accepts (heap w) root word ↔ nfa_accepts g nfanode word.
Proof.
  intros Hu Hrun word.
  pose proof (NewFromNFA_ok _ _ _ _ _ _ Hrun) as (Hw & n & cls & Hroot & Hcls & <-).
  assert (∀ l n', heap w !! l = Some n' →
            trans_ok g (heap w) n' ∧ isFinal g (closures n') = Done (Final n'))
    as Hnodes.
  { intros l n' Hl. pose proof (wk_nodes _ _ _ Hw _ _ Hl) as Hb. split.
    - apply (nk_done _ _ _ _ _ Hb). set_solver.
    - apply (nk_final _ _ _ _ _ Hb). }
  rewrite (dfa_accepts_subset g (heap w) Hu Hnodes word root n Hroot).
  unfold nfa_accepts. split; [by eauto|].
  intros (cls' & Hcls' & Hacc). rewrite Hcls in Hcls'. by injection Hcls' as <-.
Qed.
End determinised_language.

Section product_language.
Import intersection.
Context (h1 h2 : dfa.arena).

Lemma rtc_overlap_step_runs p q :
  rtc (overlap_step h1 h2) p q ↔
  ∃ w, dfa_run h1 p.1 w q.1 ∧ dfa_run h2 p.2 w q.2.
Proof.
  split.
  - induction 1 as [p|p p' q Hstep _ (w & Hr1 & Hr2)]; [by exists []|].
    destruct Hstep as (n1 & n2 & t1 & t2 & Hn1 & Hn2 & Ht1 & Ht2 & Hov & ->).
    apply Overlaps_spec in Hov as (c & Hc1 & Hc2).
    exists (c :: w). split; [by exists n1, t1|by exists n2, t2].
  - intros (w & Hr1 & Hr2). destruct q as [q1 q2]. revert p Hr1 Hr2.
    induction w as [|c w IH]; intros [p1 p2]; simpl.
    { by intros -> ->. }
    intros (n1 & t1 & Hn1 & Ht1 & Hc1 & Hr1) (n2 & t2 & Hn2 & Ht2 & Hc2 & Hr2).
    eapply rtc_l; [|by apply (IH (dfa.T_Node t1, dfa.T_Node t2))].
    exists n1, n2, t1, t2. repeat split; try done.
    apply Overlaps_spec. by exists c.
Qed.

Lemma final_pair_reachable_common_word r1 r2 :
  (∃ q, rtc (overlap_step h1 h2) (r1, r2) q ∧ final_pair h1 h2 q) ↔
  ∃ w, dfa_accepts h1 r1 w ∧ dfa_accepts h2 r2 w.
Proof.
  split.
  - intros ([q1 q2] & (w & Hr1 & Hr2)%rtc_overlap_step_runs
                    & n1 & n2 & Hn1 & Hn2 & Hf1 & Hf2).
    exists w. split; [by exists q1, n1|by exists q2, n2].
  - intros (w & (q1 & n1 & Hr1 & Hn1 & Hf1) & (q2 & n2 & Hr2 & Hn2 & Hf2)).
    exists (q1, q2). split; [apply rtc_overlap_step_runs; by exists w|].
    by exists n1, n2.
Qed.
End product_language.

(** * The entry point *)

Section conversion.
Import intersection.
Context `{GoRuntime} `{Compiler}.

Lemma convert2Dfa_inl fuel expr k node h k' :
  convert2Dfa fuel expr k = Done (inl ((node, h), k')) ↔
  regexp_Compile expr = None ∧
  ∃ g r w, nfa_New expr = inl (g, r) ∧
           dfa.NewFromNFA fuel g r k = Done (node, w) ∧
           h = dfa.heap w ∧ k' = dfa.tick w.
Proof.
  unfold convert2Dfa. split.
  - destruct (regexp_Compile expr); [done|].
    destruct (nfa_New expr) as [[g r]|]; [|done]. intros Hrun.
    apply bind_Done in Hrun as ([node' w] & Hnew & [= <- <- <-]).
    split; [done|]. by exists g, r, w.
  - intros (-> & g & r & w & -> & Hnew & -> & ->). by rewrite Hnew.
Qed.

Lemma convert2Dfa_inr fuel expr k err :
  convert2Dfa fuel expr k = Done (inr err) ↔
  ∃ d, regexp_Compile expr = Some d ∧ err = Wrap d ("invalid regexp: " +:+ expr).
Proof.
  unfold convert2Dfa. split.
  - destruct (regexp_Compile expr) as [d|]; [intros [= <-]; by exists d|].
    destruct (nfa_New expr) as [[g r]|]; [|done]. intros Hrun.
    by apply bind_Done in Hrun as ([node' w] & Hnew & [=]).
  - by intros (d & -> & ->).
Qed.

Lemma convert2Dfa_Exit fuel expr k e :
  regexp_Compile expr = None → nfa_New expr = inr e →
  convert2Dfa fuel expr k = Exit.
Proof. unfold convert2Dfa. by intros -> ->. Qed.

(** A call that returns no error went through both conversions and the
    search. *)
Lemma HasIntersection_nil_error fuel expr1 expr2 k b :
  HasIntersection fuel expr1 expr2 k = Done (b, None) ↔
  ∃ node2 h2 k2 node1 h1 k1 firstNode nodeMap',
    convert2Dfa fuel expr2 k = Done (inl ((node2, h2), k2)) ∧
    convert2Dfa fuel expr1 k2 = Done (inl ((node1, h1), k1)) ∧
    createNode h1 h2 node1 node2 = Done firstNode ∧
    dfs h1 h2 fuel firstNode ∅ = Done (b, nodeMap').
Proof.
  unfold HasIntersection. split.
  - intros Hrun. apply bind_Done in Hrun as (r2 & Hr2 & Hrun).
    destruct r2 as [[[node2 h2] k2]|]; [|done].
    apply bind_Done in Hrun as (r1 & Hr1 & Hrun).
    destruct r1 as [[[node1 h1] k1]|]; [|done].
    apply bind_Done in Hrun as (firstNode & Hfirst & Hrun).
    apply bind_Done in Hrun as ([b' nodeMap'] & Hdfs & [= ->]).
    by exists node2, h2, k2, node1, h1, k1, firstNode, nodeMap'.
  - intros (node2 & h2 & k2 & node1 & h1 & k1 & firstNode & nodeMap'
            & -> & Hr1 & Hfirst & Hdfs).
    simpl. rewrite Hr1. simpl. rewrite Hfirst. simpl. by rewrite Hdfs.
Qed.

(** A call that returns no error says whether the languages of the two
    automata of [nfa.New] share a word. *)
Lemma HasIntersection_common_word fuel expr1 expr2 k b g1 r1 g2 r2 :
  nfa_New expr1 = inl (g1, r1) → nfa_New expr2 = inl (g2, r2) →
  nfa.ids_unique g1 → nfa.ids_unique g2 →
  HasIntersection fuel expr1 expr2 k = Done (b, None) →
  b = true ↔ ∃ w, nfa_accepts g1 r1 w ∧ nfa_accepts g2 r2 w.
Proof.
  intros Hn1 Hn2 Hids1 Hids2
    (node2 & h2 & k2 & node1 & h1 & k1 & firstNode & nodeMap'
     & Hc2 & Hc1 & Hfirst & Hdfs)%HasIntersection_nil_error.
  apply convert2Dfa_inl in Hc2 as (Hre2 & g2' & r2' & w2 & Hn2' & Hnew2 & -> & ->).
  apply convert2Dfa_inl in Hc1 as (Hre1 & g1' & r1' & w1 & Hn1' & Hnew1 & -> & ->).
  rewrite Hn1 in Hn1'. injection Hn1' as <- <-.
  rewrite Hn2 in Hn2'. injection Hn2' as <- <-.
  rewrite (dfs_correct _ _ _ _ _ _ _ _ _
             (proj1 (NewFromNFA_well_formed _ _ _ _ _ _ Hnew1))
             (proj1 (NewFromNFA_well_formed _ _ _ _ _ _ Hnew2)) Hfirst Hdfs).
  rewrite final_pair_reachable_common_word.
  pose proof (NewFromNFA_language g1 fuel r1 _ _ _ Hids1 Hnew1) as Hl1.
  pose proof (NewFromNFA_language g2 fuel r2 _ _ _ Hids2 Hnew2) as Hl2.
  split; intros (w & Hw1 & Hw2); exists w.
  - by rewrite <-Hl1, <-Hl2.
  - by rewrite Hl1, Hl2.
Qed.
End conversion.

(** * The build returns *)

Section closures_return.
Import dfa.
Context (g : nfa.graph).
Hypothesis Hclosed : nfa_closed g.

#[local] Abbreviation in_graph := (λ x : nfa.ptr, is_Some (g !! x)).

Lemma size_unmarked_insert (node : nfa.ptr) (visited : gset nfa.ptr) :
  in_graph node → node ∉ visited →
  (size (dom g ∖ ({[node]} ∪ visited)) < size (dom g ∖ visited))%nat.
Proof.
  intros Hnode Hv. apply subset_size. apply elem_of_dom in Hnode. set_solver.
Qed.

Lemma size_unmarked_mono (v v' : gset nfa.ptr) :
  v ⊆ v' → (size (dom g ∖ v') ≤ size (dom g ∖ v))%nat.
Proof. intros Hsub. apply subseteq_size. set_solver. Qed.

Lemma recursiveClosure_in_graph fuel node v cls v' :
  recursiveClosure fuel g node v = Done (cls, v') → Forall in_graph cls.
Proof.
  revert node v cls v'. induction fuel as [|fuel IH]; intros node v cls v'; [done|].
  simpl. case_decide; [by intros [= <- <-]|].
  intros Hrun. apply bind_Done in Hrun as (n & Hn%deref_Done & Hrun).
  assert (Forall in_graph [node]) as Hacc by (constructor; [by eexists|done]).
  revert Hrun Hacc. generalize [node] as acc. generalize ({[node]} ∪ v) as v0.
  induction (nfa.T n) as [|e ts IHts]; simpl; intros v0 acc Hrun Hacc.
  { by injection Hrun as <- <-. }
  destruct (nfa.R e); [by eapply IHts|].
  apply bind_Done in Hrun as ([sub v1] & Hsub & Hrun).
  eapply IHts; [exact Hrun|]. apply Forall_app. split; [done|by eapply IH].
Qed.

Lemma closure_of_in_graph x cls : closure_of g x = Done cls → Forall in_graph cls.
Proof.
  unfold closure_of. intros Hc. apply bind_Done in Hc as ([c v] & Hc & [= <-]).
  by eapply recursiveClosure_in_graph.
Qed.

Lemma recursiveClosure_returns fuel node v :
  in_graph node → (size (dom g ∖ v) < fuel)%nat →
  ∃ cls v', recursiveClosure fuel g node v = Done (cls, v') ∧ v ⊆ v'.
Proof.
  revert node v. induction fuel as [|fuel IH]; intros node v Hnode Hfuel; [lia|].
  simpl. case_decide as Hv; [by eauto|].
  destruct Hnode as [n Hn]. unfold deref. rewrite Hn. simpl.
  assert (size (dom g ∖ ({[node]} ∪ v)) < fuel)%nat as Hfuel'.
  { pose proof (size_unmarked_insert node v (mk_is_Some _ _ Hn) Hv). lia. }
  assert (v ⊆ {[node]} ∪ v) as Hsub by set_solver.
  assert (∀ e, e ∈ nfa.T n → in_graph (nfa.N e)) as Hts by (intros e He; by apply (Hclosed node n e)).
  revert Hfuel' Hsub Hts. generalize [node] as acc. generalize ({[node]} ∪ v) as v0.
  induction (nfa.T n) as [|e ts IHts]; simpl; intros v0 acc Hfuel' Hsub Hts; [by eauto|].
  destruct (nfa.R e).
  { apply IHts; [done..|]. intros e' He'. apply Hts. by right. }
  destruct (IH (nfa.N e) v0) as (sub & v1 & -> & Hsub1); [apply Hts; by left|done|].
  simpl. apply IHts.
  - pose proof (size_unmarked_mono _ _ Hsub1). lia.
  - set_solver.
  - intros e' He'. apply Hts. by right.
Qed.

Lemma closure_of_returns x : in_graph x → ∃ cls, closure_of g x = Done cls.
Proof.
  intros Hx. unfold closure_of.
  destruct (recursiveClosure_returns (closure_fuel g) x ∅ Hx) as (cls & v' & -> & _).
  { unfold closure_fuel. rewrite difference_empty_L, size_dom. lia. }
  by exists cls.
Qed.

Lemma closure_returns x cache :
  in_graph x → ∃ cls cache', closure g x cache = Done (cls, cache').
Proof.
  intros [cls Hcls]%closure_of_returns. unfold closure.
  destruct (cache !! x); [by eauto|].
  unfold closure_of in Hcls. apply bind_Done in Hcls as ([c v] & -> & _).
  simpl. by eauto.
Qed.

Lemma canReachFinal_returns fuel node v :
  in_graph node → (size (dom g ∖ v) < fuel)%nat →
  ∃ b v', canReachFinal fuel g node v = Done (b, v') ∧ v ⊆ v'.
Proof.
  revert node v. induction fuel as [|fuel IH]; intros node v Hnode Hfuel; [lia|].
  simpl. destruct Hnode as [n Hn]. unfold deref. rewrite Hn. simpl.
  destruct (nfa.F n); [by eauto|]. case_decide as Hv; [by eauto|].
  assert (size (dom g ∖ ({[node]} ∪ v)) < fuel)%nat as Hfuel'.
  { pose proof (size_unmarked_insert node v (mk_is_Some _ _ Hn) Hv). lia. }
  assert (v ⊆ {[node]} ∪ v) as Hsub by set_solver.
  assert (∀ e, e ∈ nfa.T n → in_graph (nfa.N e)) as Hts by (intros e He; by apply (Hclosed node n e)).
  revert Hfuel' Hsub Hts. generalize ({[node]} ∪ v) as v0.
  induction (nfa.T n) as [|e ts IHts]; simpl; intros v0 Hfuel' Hsub Hts; [by eauto|].
  destruct (nfa.R e).
  { apply IHts; [done..|]. intros e' He'. apply Hts. by right. }
  destruct (IH (nfa.N e) v0) as (b & v1 & -> & Hsub1); [apply Hts; by left|done|].
  simpl. destruct b; [exists true, v1; split; [done|set_solver]|].
  apply IHts.
  - pose proof (size_unmarked_mono _ _ Hsub1). lia.
  - set_solver.
  - intros e' He'. apply Hts. by right.
Qed.

Lemma isFinal_returns cls : Forall in_graph cls → ∃ b, isFinal g cls = Done b.
Proof.
  unfold isFinal. generalize (∅ : gset nfa.ptr) as v.
  induction cls as [|x cls IH]; intros v Hall; [by exists false|].
  apply Forall_cons in Hall as [Hx Hall]. cbn [isFinal_loop].
  destruct (canReachFinal_returns (closure_fuel g) x v Hx) as (b & v' & -> & _).
  { unfold closure_fuel. pose proof (size_unmarked_mono ∅ v ltac:(set_solver)) as Hle.
    rewrite difference_empty_L, size_dom in Hle. lia. }
  simpl. destruct b; [by exists true|by apply IH].
Qed.
End closures_return.

Section range_closures_return.
Import dfa.
Context `{GoRuntime} (g : nfa.graph).
Hypothesis Hclosed : nfa_closed g.

#[local] Abbreviation in_graph := (λ x : nfa.ptr, is_Some (g !! x)).

Lemma closuresForRange_edges_returns ts rr acc cache :
  (∀ e, e ∈ ts → in_graph (nfa.N e)) →
  ∃ out cache', closuresForRange_edges g ts rr acc cache = Done (out, cache').
Proof.
  revert acc cache. induction ts as [|e ts IH]; simpl; intros acc cache Hts; [by eauto|].
  assert (∀ e', e' ∈ ts → in_graph (nfa.N e')) as Hts' by (intros e' ?; apply Hts; by right).
  destruct (runerange.Contains (nfa.ranges e) rr); [|by apply IH].
  destruct (closure_returns g Hclosed (nfa.N e) cache) as (cls & cache' & ->).
  { apply Hts. by left. }
  simpl. by apply IH.
Qed.

Lemma closuresForRange_nodes_returns cs rr acc cache :
  Forall in_graph cs →
  ∃ out cache', closuresForRange_nodes g cs rr acc cache = Done (out, cache').
Proof.
  revert acc cache. induction cs as [|c cs IH]; simpl; intros acc cache Hcs; [by eauto|].
  apply Forall_cons in Hcs as [[cn Hcn] Hcs]. unfold deref. rewrite Hcn. simpl.
  destruct (closuresForRange_edges_returns (nfa.T cn) rr acc cache)
    as (out & cache' & ->).
  { intros e He. by apply (Hclosed c cn e). }
  simpl. by apply IH.
Qed.

Lemma closuresForRange_returns h n node rr cache :
  h !! n = Some node → Forall in_graph (closures node) →
  ∃ out cache', closuresForRange g h n rr cache = Done (out, cache').
Proof.
  intros Hn Hcs. unfold closuresForRange, deref. rewrite Hn. simpl.
  by apply closuresForRange_nodes_returns.
Qed.

Lemma edge_ranges_returns cs :
  Forall in_graph cs → ∃ ranges, edge_ranges g cs = Done ranges.
Proof.
  induction 1 as [|c cs [cn Hcn] _ [rest IH]]; simpl; [by eauto|].
  unfold deref. rewrite Hcn, IH. simpl. by eauto.
Qed.

Lemma read_sort_keys_returns h (trs : list (ptr * list rune)) :
  (∀ tr, tr ∈ trs → ∃ n', h !! tr.1 = Some n' ∧ Forall in_graph (closures n')) →
  ∃ keyed, read_sort_keys g h trs = Done keyed.
Proof.
  induction trs as [|tr trs IH]; simpl; intros Htrs; [by eauto|].
  destruct (Htrs tr) as (n' & Hn' & Hcs); [by left|].
  destruct IH as [rest ->]; [intros tr' ?; apply Htrs; by right|].
  unfold read_sort_key, deref. rewrite Hn'. simpl.
  destruct (closures n') as [|c cs]; simpl; [by eauto|].
  apply Forall_cons in Hcs as [[cn ->] _]. simpl. by eauto.
Qed.
End range_closures_return.

Section labels.
Import dfa.
Context (g : nfa.graph).

Lemma labelFromClosure_universe cls lbl :
  labelFromClosure g cls = Done lbl → lbl ∈ label_universe g.
Proof.
  unfold labelFromClosure. intros Hl.
  apply bind_Done in Hl as (ss & Hss%states_of_spec & [= <-]).
  unfold label_universe. apply elem_of_list_to_set, list_elem_of_fmap.
  exists (elements (list_to_set ss : gset Z)). split.
  { by rewrite list_to_set_elements_L. }
  apply powermset_submseteq, NoDup_submseteq; [apply NoDup_elements|].
  intros s Hs%elem_of_elements%elem_of_list_to_set.
  apply list_elem_of_lookup in Hs as [i Hi].
  destruct (Forall2_lookup_r _ _ _ _ _ Hss Hi) as (x & _ & node & Hnode & <-).
  unfold state_ids. apply list_elem_of_fmap. exists (x, node).
  split; [done|]. by apply elem_of_map_to_list.
Qed.

(** The table only grows during the build. *)
Lemma table_grows w P w' P' :
  world_ok g w P → world_ok g w' P' → static_ext (heap w) (heap w') →
  dom (nodesByLabel (ctx w)) ⊆ dom (nodesByLabel (ctx w')).
Proof.
  intros Hw Hw' Hext lbl [l Hl]%elem_of_dom.
  destruct (wk_table _ _ _ Hw _ _ Hl) as (n & Hn & <-).
  destruct (Hext _ _ Hn) as (n' & Hn' & _ & _ & Hlabel & _).
  apply elem_of_dom. exists l. rewrite Hlabel.
  apply (nk_table _ _ _ _ _ (wk_nodes _ _ _ Hw' _ _ Hn')).
Qed.

Lemma labels_left_mono w P w' P' :
  world_ok g w P → world_ok g w' P' → static_ext (heap w) (heap w') →
  (labels_left g w' ≤ labels_left g w)%nat.
Proof.
  intros Hw Hw' Hext. apply subseteq_size.
  pose proof (table_grows _ _ _ _ Hw Hw' Hext). set_solver.
Qed.

Lemma node_closures_in_graph w P l n :
  world_ok g w P → heap w !! l = Some n →
  Forall (λ x, is_Some (g !! x)) (closures n).
Proof.
  intros Hw Hn. apply labelFromClosure_Done. exists (label n).
  apply (nk_label _ _ _ _ _ (wk_nodes _ _ _ Hw _ _ Hn)).
Qed.
End labels.

Section construct_returns.
Import dfa runerange.
Context `{GoRuntime} (g : nfa.graph).
Hypothesis Hclosed : nfa_closed g.

(** What the recursive call does with enough fuel. *)
#[local] Abbreviation returns_within fuel rec :=
  (∀ (node : ptr) (w : world) (P : gset ptr), world_ok g w P → node ∈ P → (labels_left g w < fuel)%nat →
               ∃ w' : world, rec node w = Done w').

Lemma constructSubset_block_returns rec fuel root rootN lo hi m w P :
  call_ok g rec → returns_within fuel rec →
  world_ok g w P → root ∈ P → heap w !! root = Some rootN →
  (∃ x node e, x ∈ closures rootN ∧ g !! x = Some node ∧ e ∈ nfa.T node ∧
               Contains (nfa.ranges e) [lo; hi] = true) →
  (labels_left g w ≤ fuel)%nat →
  ∃ m' w', constructSubset_block rec g root [lo; hi] m w = Done (m', w').
Proof.
  intros Hrec Hret Hw HrootP Hroot Hinh Hfuel.
  destruct (closuresForRange_returns g Hclosed (heap w) root rootN [lo; hi]
              (closureCache (ctx w)) Hroot) as (out & cache & Hcfr).
  { by eapply node_closures_in_graph. }
  destruct (closuresForRange_spec g _ _ _ _ _ _ _ (wk_cache _ _ _ Hw) Hroot Hcfr)
    as (Hcache & _ & Hex & Hin).
  set (cls := union out (tick w)).
  assert (Forall (λ x, is_Some (g !! x)) cls) as Hcls.
  { apply Forall_forall. intros y (c & Hc & Hy)%elem_of_dfa_union.
    apply Hin in Hc as (x & node & e & _ & _ & _ & _ & Hc).
    apply closure_of_in_graph in Hc. rewrite Forall_forall in Hc. by apply Hc. }
  assert (cls ≠ []) as Hcls_ne.
  { destruct Hinh as (x & node' & e & Hx & Hn' & He & Hcont).
    destruct (Hex x node' e Hx Hn' He Hcont) as [cl Hcl].
    destruct (closure_of_head g _ _ Hcl) as [rest ->].
    assert (nfa.N e ∈ cls) as Hmem.
    { unfold cls. apply elem_of_dfa_union. exists (nfa.N e :: rest). split; [|by left].
      apply Hin. by exists x, node', e. }
    intros Heq. rewrite Heq in Hmem. by apply elem_of_nil in Hmem. }
  pose proof Hcls as [lbl Hlbl]%labelFromClosure_Done.
  destruct (isFinal_returns g Hclosed cls Hcls) as [fin Hfin].
  unfold constructSubset_block. rewrite Hcfr. cbn [mbind res_bind]. fold cls.
  rewrite Hlbl. cbn [mbind res_bind]. rewrite Hfin. cbn [mbind res_bind].
  set (w1 := {| heap := heap w;
                ctx := {| state := state (ctx w); nodesByLabel := nodesByLabel (ctx w);
                          closureCache := cache |};
                tick := S (tick w) |}).
  assert (world_ok g w1 P) as Hw1 by by apply world_ok_cache.
  destruct (nodesByLabel (ctx w1) !! lbl) as [n|] eqn:Htable; [simpl; by eauto|].
  destruct (world_ok_alloc g w1 P cls lbl fin Hw1 Htable Hlbl Hfin Hcls_ne)
    as (Hfresh & HfreshP & Halloc & Hext1).
  destruct (Hret (fresh (dom (heap w1))) _ _ Halloc) as [w3 Hcall]; [set_solver| |].
  { unfold labels_left in *. simpl. rewrite dom_insert_L.
    assert (lbl ∈ label_universe g) by by eapply labelFromClosure_universe.
    assert (lbl ∉ dom (nodesByLabel (ctx w))) by by apply not_elem_of_dom.
    eapply Nat.lt_le_trans; [|exact Hfuel]. apply subset_size. set_solver. }
  rewrite Hcall. simpl. by eauto.
Qed.

Lemma constructSubset_blocks_returns rec fuel root X blocks m w P ub :
  call_ok g rec → returns_within fuel rec →
  world_ok g w P → root ∈ P →
  (∃ rootN, heap w !! root = Some rootN ∧ closures rootN = X) →
  m_ok g X (heap w) m ub → ascending_from ub blocks →
  (∀ lo hi, (lo, hi) ∈ pairs blocks →
     (∀ x node e c, x ∈ X → g !! x = Some node → e ∈ nfa.T node →
        lo ≤ c ≤ hi → Contains (nfa.ranges e) [lo; hi] = true ↔ covers (nfa.ranges e) c) ∧
     (∃ x node e, x ∈ X ∧ g !! x = Some node ∧ e ∈ nfa.T node ∧
                  Contains (nfa.ranges e) [lo; hi] = true)) →
  (labels_left g w ≤ fuel)%nat →
  ∃ m' w', constructSubset_blocks rec g root blocks m w = Done (m', w').
Proof.
  intros Hrec Hret. revert m w ub.
  induction blocks as [blocks IH] using (induction_ltof1 _ length); unfold ltof in IH.
  intros m w ub Hw HrootP (rootN & Hroot & HX) Hm Hasc Hblocks Hfuel.
  destruct blocks as [|lo [|hi blocks]]; simpl; [by eauto|done|].
  destruct Hasc as (Hub & Hlohi & Hasc).
  destruct (Hblocks lo hi ltac:(left)) as [Helem Hinh]. subst X.
  destruct (constructSubset_block_returns rec fuel root rootN lo hi m w P)
    as (m1 & w1 & Hblock); try done.
  rewrite Hblock. cbn [mbind res_bind].
  destruct (constructSubset_block_spec g rec root rootN lo hi m w m1 w1 P ub)
    as (Hw1 & Hext1 & Hm1 & Hcov1); try done.
  destruct (Hext1 _ _ Hroot) as (rootN1 & Hroot1 & _ & _ & _ & Hc1).
  apply (IH blocks ltac:(simpl; lia) m1 w1 hi); try done.
  - by exists rootN1.
  - intros lo' hi' Hin. apply Hblocks. by right.
  - pose proof (labels_left_mono g _ _ _ _ Hw Hw1 Hext1). lia.
Qed.

(** The recursion of [constructSubset] is never deeper than the number
    of labels that are not in the table: a call returns when it has more
    fuel than that. *)
Lemma constructSubset_returns fuel : returns_within fuel (constructSubset fuel g).
Proof.
  induction fuel as [|fuel IH]; intros root w P Hw HrootP Hfuel; [lia|].
  destruct (wk_pending _ _ _ Hw _ HrootP) as [rootN Hroot].
  destruct (edge_ranges_returns g (closures rootN)) as [ranges Hranges].
  { by eapply node_closures_in_graph. }
  pose proof (Split_sorted ranges) as [ub Hasc]%sorted_disjoint_ascending.
  assert (∀ lo hi, (lo, hi) ∈ pairs (Split ranges) →
     (∀ x node e c, x ∈ closures rootN → g !! x = Some node → e ∈ nfa.T node →
        lo ≤ c ≤ hi → Contains (nfa.ranges e) [lo; hi] = true ↔ covers (nfa.ranges e) c) ∧
     (∃ x node e, x ∈ closures rootN ∧ g !! x = Some node ∧ e ∈ nfa.T node ∧
                  Contains (nfa.ranges e) [lo; hi] = true)) as Hblocks.
  { intros lo hi Hin. split.
    - intros x node e c Hx Hnode He Hc.
      apply (Contains_block ranges); [done| |done].
      apply (edge_ranges_spec g _ _ Hranges). by exists x, node, e.
    - destruct (Split_elementary _ _ _ Hin) as (_ & (p & Hp & Hplo & Hphi) & _).
      apply elem_of_nonempty_pairs in Hp as (_ & l & Hl & Hpl).
      apply (edge_ranges_spec g _ _ Hranges) in Hl as (x & node & e & ? & ? & ? & ->).
      exists x, node, e. do 3 (split; [done|]).
      apply Contains_spec. by exists p. }
  destruct (constructSubset_blocks_returns (constructSubset fuel g) fuel root
              (closures rootN) (Split ranges) ∅ w P ub)
    as (m & w1 & Hloop); try done.
  { apply constructSubset_ok. }
  { by exists rootN. }
  { lia. }
  destruct (constructSubset_blocks_spec g (constructSubset fuel g) root (closures rootN)
              (Split ranges) ∅ w m w1 P ub)
    as (Hw1 & Hext1 & [ub' Hm] & Hcov); try done.
  { apply constructSubset_ok. }
  { by exists rootN. }
  destruct (Hext1 _ _ Hroot) as (rootN1 & Hroot1 & _).
  simpl. unfold deref. rewrite Hroot. cbn [mbind res_bind].
  rewrite Hranges. cbn [mbind res_bind]. rewrite Hloop. cbn [mbind res_bind heap ctx tick].
  case_decide; [|by eauto].
  destruct (read_sort_keys_returns g (heap w1) (map_range (tick w1) (map_to_list m)))
    as [keyed ->].
  { intros [node rr] Hin. rewrite map_range_perm in Hin.
    apply elem_of_map_to_list in Hin.
    destruct (mk_entry _ _ _ _ _ Hm _ _ Hin) as (_ & _ & _ & n' & Hn' & _).
    exists n'. split; [done|]. by eapply node_closures_in_graph. }
  cbn [mbind res_bind]. rewrite Hroot1. simpl. by eauto.
Qed.
End construct_returns.

Section more_fuel.
Import dfa runerange.
Context `{GoRuntime} (g : nfa.graph).

Lemma constructSubset_block_mono (rec rec' : ptr → world → res world) root block m w r :
  (∀ node w w', rec node w = Done w' → rec' node w = Done w') →
  constructSubset_block rec g root block m w = Done r →
  constructSubset_block rec' g root block m w = Done r.
Proof.
  intros Hrec. unfold constructSubset_block. intros Hrun.
  apply bind_Done in Hrun as ([out cache] & -> & Hrun). cbn [mbind res_bind].
  apply bind_Done in Hrun as (lbl & -> & Hrun). cbn [mbind res_bind].
  apply bind_Done in Hrun as (fin & -> & Hrun). cbn [mbind res_bind].
  apply bind_Done in Hrun as ([node w2] & Hnode & Hrun).
  cbn [heap ctx nodesByLabel state closureCache tick] in *.
  destruct (nodesByLabel (ctx w) !! lbl) as [n|].
  - rewrite Hnode. exact Hrun.
  - apply bind_Done in Hnode as (w3 & Hcall%Hrec & Hnode).
    injection Hnode as <- <-. rewrite Hcall. exact Hrun.
Qed.

Lemma constructSubset_blocks_mono (rec rec' : ptr → world → res world) root blocks m w r :
  (∀ node w w', rec node w = Done w' → rec' node w = Done w') →
  constructSubset_blocks rec g root blocks m w = Done r →
  constructSubset_blocks rec' g root blocks m w = Done r.
Proof.
  intros Hrec. revert m w.
  induction blocks as [blocks IH] using (induction_ltof1 _ length); unfold ltof in IH.
  intros m w. destruct blocks as [|lo [|hi blocks]]; simpl; [done|done|].
  intros Hrun. apply bind_Done in Hrun as ([m1 w1] & Hblock & Hrun).
  rewrite (constructSubset_block_mono rec rec' _ _ _ _ _ Hrec Hblock).
  cbn [mbind res_bind]. apply IH; [simpl; lia|done].
Qed.

Lemma constructSubset_mono fuel fuel' root w w' :
  constructSubset fuel g root w = Done w' → (fuel ≤ fuel')%nat →
  constructSubset fuel' g root w = Done w'.
Proof.
  revert fuel' root w w'. induction fuel as [|fuel IH]; intros fuel' root w w'; [done|].
  intros Hrun Hle. destruct fuel' as [|fuel']; [lia|]. simpl in *.
  apply bind_Done in Hrun as (rootN & -> & Hrun). cbn [mbind res_bind].
  apply bind_Done in Hrun as (ranges & -> & Hrun). cbn [mbind res_bind].
  apply bind_Done in Hrun as ([m w1] & Hblocks & Hrun).
  rewrite (constructSubset_blocks_mono (constructSubset fuel g) (constructSubset fuel' g)
             _ _ _ _ _ ltac:(intros ????; apply IH; [done|lia]) Hblocks).
  exact Hrun.
Qed.

Lemma NewFromNFA_mono fuel fuel' nfanode k r :
  NewFromNFA fuel g nfanode k = Done r → (fuel ≤ fuel')%nat →
  NewFromNFA fuel' g nfanode k = Done r.
Proof.
  unfold NewFromNFA. intros Hrun Hle.
  apply bind_Done in Hrun as ([node w] & -> & Hrun). cbn [mbind res_bind].
  apply bind_Done in Hrun as (w1 & Hcs & Hrun).
  by rewrite (constructSubset_mono _ _ _ _ _ Hcs Hle).
Qed.

Lemma firstNode_ok nfanode k node w1 :
  firstNode g nfanode
    {| heap := ∅; ctx := {| state := 0; nodesByLabel := ∅; closureCache := ∅ |};
       tick := k |} = Done (node, w1) →
  world_ok g w1 {[node]}.
Proof.
  unfold firstNode. cbn [ctx closureCache heap state nodesByLabel tick].
  intros Hfirst.
  apply bind_Done in Hfirst as ([cls cache] & Hcl & Hfirst).
  apply bind_Done in Hfirst as (lbl & Hlbl & Hfirst).
  apply bind_Done in Hfirst as (fin & Hfin & [= <- <-]).
  assert (cache_ok g ∅) as Hcache0 by (intros x c Hx; by rewrite lookup_empty in Hx).
  destruct (closure_spec g _ _ _ _ Hcache0 Hcl) as [Hclosure Hcache].
  pose proof (world_ok_cache g _ _ cache k (world_ok_empty g k) Hcache) as Hw0.
  destruct (closure_of_head g _ _ Hclosure) as [rest Hrest].
  destruct (world_ok_alloc g _ ∅ cls lbl fin Hw0) as (_ & _ & Halloc & _);
    [done|done|done| |].
  - by rewrite Hrest.
  - cbn [heap ctx state nodesByLabel closureCache tick] in Halloc.
    by rewrite union_empty_r_L in Halloc.
Qed.

(** On a graph whose edges lead to nodes of the graph [NewFromNFA]
    returns, whatever the order in which the runtime ranges over the
    maps. *)
Lemma NewFromNFA_returns nfanode k :
  nfa_closed g → is_Some (g !! nfanode) →
  ∃ root w, ∀ fuel, (size (label_universe g) < fuel)%nat →
                    NewFromNFA fuel g nfanode k = Done (root, w).
Proof.
  intros Hclosed Hroot.
  enough (∃ r, NewFromNFA (S (size (label_universe g))) g nfanode k = Done r)
    as [[root w] Hrun].
  { exists root, w. intros fuel Hfuel. eapply NewFromNFA_mono; [exact Hrun|lia]. }
  unfold NewFromNFA.
  set (w0 := {| heap := ∅;
                ctx := {| state := 0; nodesByLabel := ∅; closureCache := ∅ |};
                tick := k |}).
  assert (∃ node w1, firstNode g nfanode w0 = Done (node, w1)) as (node & w1 & Hfirst).
  { unfold firstNode.
    destruct (closure_returns g Hclosed nfanode (closureCache (ctx w0)) Hroot)
      as (cls & cache & Hcl).
    rewrite Hcl. cbn [mbind res_bind].
    assert (Forall (λ x, is_Some (g !! x)) cls) as Hcls.
    { apply (closure_spec g) in Hcl as [Hcl _]; [|done].
      by eapply closure_of_in_graph. }
    pose proof Hcls as [lbl ->]%labelFromClosure_Done. cbn [mbind res_bind].
    destruct (isFinal_returns g Hclosed cls Hcls) as [fin ->]. simpl. by eauto. }
  rewrite Hfirst. cbn [mbind res_bind].
  pose proof (firstNode_ok nfanode k node w1 Hfirst) as Hw1.
  destruct (constructSubset_returns g Hclosed (S (size (label_universe g)))
              node w1 {[node]} Hw1) as [w2 ->]; [set_solver| |simpl; by eauto].
  unfold labels_left.
  pose proof (subseteq_size (label_universe g ∖ dom (nodesByLabel (ctx w1)))
                (label_universe g) ltac:(set_solver)). lia.
Qed.
End more_fuel.

(** * The answers of [HasIntersection] *)

Section outcomes.
Context {A : Type}.

Lemma ends_in_unique (run : nat → res A) r r' :
  ends_in run r → ends_in run r' → r = r'.
Proof.
  intros [f1 H1] [f2 H2].
  rewrite <-(H1 (f1 `max` f2)%nat), <-(H2 (f1 `max` f2)%nat) by lia. done.
Qed.

Lemma ends_in_const (r : res A) : ends_in (λ _, r) r.
Proof. by exists 0%nat. Qed.

Lemma ends_in_run (run : nat → res A) fuel r :
  ends_in run r → ∃ fuel', (fuel ≤ fuel')%nat ∧ run fuel' = r.
Proof. intros [f0 Hr]. exists (f0 `max` fuel)%nat. split; [lia|]. apply Hr. lia. Qed.
End outcomes.

Section checks.
Lemma check_nfa_valid_sound g r : check_nfa_valid g r = true → nfa_valid g r.
Proof.
  unfold check_nfa_valid, check_nfa_closed.
  rewrite !andb_true_iff, !bool_decide_eq_true, forallb_forall.
  intros [[Hclosed Hroot] Hnd]. split; [|done|].
  - intros x node e Hx He.
    specialize (Hclosed (x, node)). rewrite forallb_forall in Hclosed.
    eapply bool_decide_eq_true, Hclosed; apply list_elem_of_In; [|done].
    by apply elem_of_map_to_list.
  - intros x y nx ny Hx Hy Heq.
    apply elem_of_map_to_list, list_elem_of_lookup in Hx as [i Hi].
    apply elem_of_map_to_list, list_elem_of_lookup in Hy as [j Hj].
    assert (i = j) as ->.
    { eapply (NoDup_lookup _ _ _ (nfa.S nx) Hnd); rewrite list_lookup_fmap.
      - by rewrite Hi.
      - rewrite Hj. simpl. by rewrite Heq. }
    congruence.
Qed.
End checks.

Section answers.
Import intersection.
Context `{Compiler}.

Lemma convert2Dfa_returns (R : GoRuntime) expr k g r :
  regexp_Compile expr = None → nfa_New expr = inl (g, r) →
  nfa_closed g → is_Some (g !! r) →
  ∃ node w,
    (∀ fuel, (size (label_universe g) < fuel)%nat →
       dfa.NewFromNFA fuel g r k = Done (node, w)) ∧
    returns (λ fuel, convert2Dfa fuel expr k) (inl ((node, dfa.heap w), dfa.tick w)).
Proof.
  intros Hre Hnew Hclosed Hroot.
  destruct (NewFromNFA_returns g r k Hclosed Hroot) as (node & w & Hrun).
  exists node, w. split; [done|]. exists (S (size (label_universe g))).
  intros fuel Hfuel. apply convert2Dfa_inl. split; [done|].
  exists g, r, w. split; [done|]. split; [|done]. apply Hrun. lia.
Qed.

(** Two expressions that pass both compilers get an answer. *)
Lemma HasIntersection_returns (R : GoRuntime) expr1 expr2 k g1 r1 g2 r2 :
  regexp_Compile expr1 = None → regexp_Compile expr2 = None →
  nfa_New expr1 = inl (g1, r1) → nfa_New expr2 = inl (g2, r2) →
  nfa_closed g1 → is_Some (g1 !! r1) → nfa_closed g2 → is_Some (g2 !! r2) →
  ∃ b, returns (λ fuel, HasIntersection fuel expr1 expr2 k) (b, None).
Proof.
  intros Hre1 Hre2 Hn1 Hn2 Hc1 Hr1 Hc2 Hr2.
  destruct (convert2Dfa_returns R expr2 k g2 r2 Hre2 Hn2 Hc2 Hr2)
    as (node2 & w2 & Hnew2 & [f2 Hconv2]).
  destruct (convert2Dfa_returns R expr1 (dfa.tick w2) g1 r1 Hre1 Hn1 Hc1 Hr1)
    as (node1 & w1 & Hnew1 & [f1 Hconv1]).
  destruct (NewFromNFA_well_formed g1 _ r1 _ node1 w1 (Hnew1 _ (Nat.lt_succ_diag_r _)))
    as [Hwf1 [n1 Hroot1]].
  destruct (NewFromNFA_well_formed g2 _ r2 _ node2 w2 (Hnew2 _ (Nat.lt_succ_diag_r _)))
    as [Hwf2 [n2 Hroot2]].
  assert (∃ first, createNode (dfa.heap w1) (dfa.heap w2) node1 node2 = Done first)
    as [first Hfirst].
  { eexists. apply createNode_Done. by exists n1, n2. }
  destruct (dfs_halts (dfa.heap w1) (dfa.heap w2) first ∅)
    as (f3 & b & nodeMap' & Hdfs).
  { apply Hwf1. } { apply Hwf2. }
  { apply ranges_sorted_paired, Hwf1. } { apply ranges_sorted_paired, Hwf2. }
  { by eapply createNode_ok. }
  exists b, ((f1 `max` f2) `max` f3)%nat. intros fuel Hfuel.
  apply HasIntersection_nil_error.
  exists node2, (dfa.heap w2), (dfa.tick w2), node1, (dfa.heap w1), (dfa.tick w1),
         first, nodeMap'.
  split; [apply Hconv2; lia|]. split; [apply Hconv1; lia|]. split; [done|].
  eapply dfs_mono; [exact Hdfs|lia].
Qed.

(** C2.  When both expressions pass [regexp.Compile] and [nfa.New]
    (which yields an automaton whose edges lead to its own nodes and
    whose state ids are unique), [HasIntersection(A, B)] and
    [HasIntersection(B, A)] return, with a [nil] error and the same
    boolean, whatever order the runtime picks to range over the maps in
    either call. *)
Theorem HasIntersection_symmetric (R R' : GoRuntime) (A B : string) (k k' : nat)
    gA rA gB rB :
  regexp_Compile A = None → regexp_Compile B = None →
  nfa_New A = inl (gA, rA) → nfa_New B = inl (gB, rB) →
  nfa_valid gA rA → nfa_valid gB rB →
  ∃ b : bool,
    returns (λ fuel, @HasIntersection R _ fuel A B k) (b, None) ∧
    returns (λ fuel, @HasIntersection R' _ fuel B A k') (b, None).
Proof.
  intros HreA HreB HnA HnB [HcA HrA HiA] [HcB HrB HiB].
  destruct (HasIntersection_returns R A B k gA rA gB rB) as [b Hab]; try done.
  destruct (HasIntersection_returns R' B A k' gB rB gA rA) as [b' Hba]; try done.
  exists b. split; [done|].
  destruct (ends_in_run _ 0%nat _ Hab) as (fuel & _ & Hrun).
  destruct (ends_in_run _ 0%nat _ Hba) as (fuel' & _ & Hrun').
  apply (HasIntersection_common_word _ _ _ _ _ gA rA gB rB) in Hrun; try done.
  apply (HasIntersection_common_word _ _ _ _ _ gB rB gA rA) in Hrun'; try done.
  assert (b' = b) as ->; [|done].
  destruct b, b'; try done.
  - destruct Hrun as [Hw _]. destruct (Hw eq_refl) as (w & ? & ?).
    apply Hrun'. by exists w.
  - destruct Hrun' as [Hw _]. destruct (Hw eq_refl) as (w & ? & ?).
    symmetry. apply Hrun. by exists w.
Qed.

Lemma HasIntersection_some_error (R : GoRuntime) fuel expr1 expr2 k b err :
  HasIntersection fuel expr1 expr2 k = Done (b, Some err) ↔
  b = false ∧
  (convert2Dfa fuel expr2 k = Done (inr err) ∨
   ∃ node2 h2 k2, convert2Dfa fuel expr2 k = Done (inl ((node2, h2), k2)) ∧
                  convert2Dfa fuel expr1 k2 = Done (inr err)).
Proof.
  unfold HasIntersection. split.
  - intros Hrun. apply bind_Done in Hrun as (r2 & Hr2 & Hrun).
    destruct r2 as [[[node2 h2] k2]|err2]; [|injection Hrun as <- <-; by auto].
    apply bind_Done in Hrun as (r1 & Hr1 & Hrun).
    destruct r1 as [[[node1 h1] k1]|err1].
    + apply bind_Done in Hrun as (firstNode & _ & Hrun).
      by apply bind_Done in Hrun as ([b' nodeMap'] & _ & [=]).
    + injection Hrun as <- <-. split; [done|]. right. by exists node2, h2, k2.
  - intros [-> [->|(node2 & h2 & k2 & -> & Hr1)]]; [done|].
    simpl. by rewrite Hr1.
Qed.

(** C3, as the code has it.  [HasIntersection(expr1, expr2)] returns a
    non-nil error exactly when [regexp.Compile] rejects [expr2], or
    [expr2] passes both [regexp.Compile] and [nfa.New] and
    [regexp.Compile] rejects [expr1].  The boolean is then [false] and
    the error wraps the diagnostic of [regexp.Compile] with the message
    that names the rejected expression.  An answer without an error is
    returned only when both expressions pass [regexp.Compile] and
    [nfa.New].  When [nfa.New] fails on an expression that the call has
    reached ([expr2] once it has passed [regexp.Compile]; [expr1] once
    [expr2] is converted and [expr1] has passed [regexp.Compile]),
    [log.Fatal] ends the process and nothing is returned. *)
Theorem HasIntersection_error (R : GoRuntime) (expr1 expr2 : string) (k : nat) :
  (∀ g r, nfa_New expr2 = inl (g, r) → nfa_closed g ∧ is_Some (g !! r)) →
  (∀ b err,
     returns (λ fuel, HasIntersection fuel expr1 expr2 k) (b, Some err) ↔
     b = false ∧
     ((∃ d, regexp_Compile expr2 = Some d ∧
            err = Wrap d ("invalid regexp: " +:+ expr2)) ∨
      (regexp_Compile expr2 = None ∧ (∃ g r, nfa_New expr2 = inl (g, r)) ∧
       ∃ d, regexp_Compile expr1 = Some d ∧
            err = Wrap d ("invalid regexp: " +:+ expr1)))) ∧
  (∀ b, returns (λ fuel, HasIntersection fuel expr1 expr2 k) (b, None) →
        regexp_Compile expr1 = None ∧ regexp_Compile expr2 = None ∧
        (∃ g1 r1, nfa_New expr1 = inl (g1, r1)) ∧
        (∃ g2 r2, nfa_New expr2 = inl (g2, r2))) ∧
  (∀ e, regexp_Compile expr2 = None → nfa_New expr2 = inr e →
        ends_in (λ fuel, HasIntersection fuel expr1 expr2 k) Exit) ∧
  (∀ e, regexp_Compile expr2 = None → (∃ g r, nfa_New expr2 = inl (g, r)) →
        regexp_Compile expr1 = None → nfa_New expr1 = inr e →
        ends_in (λ fuel, HasIntersection fuel expr1 expr2 k) Exit).
Proof.
  intros Hvalid. split; [|split; [|split]].
  - intros b err. split.
    + intros (fuel & _ & Hrun)%(ends_in_run _ 0%nat).
      apply HasIntersection_some_error in Hrun as [-> Hrun]. split; [done|].
      destruct Hrun as [Hr2%convert2Dfa_inr|(node2 & h2 & k2 & Hr2 & Hr1)]; [by left|].
      right. apply convert2Dfa_inl in Hr2 as (Hre2 & g & r & w & Hn2 & _).
      apply convert2Dfa_inr in Hr1. by eauto.
    + intros [-> [(d & Hre2 & ->)|(Hre2 & (g & r & Hn2) & d & Hre1 & ->)]].
      * exists 0%nat. intros fuel _. apply HasIntersection_some_error.
        split; [done|]. left. apply convert2Dfa_inr. by exists d.
      * destruct (Hvalid g r Hn2) as [Hclosed Hroot].
        destruct (convert2Dfa_returns R expr2 k g r Hre2 Hn2 Hclosed Hroot)
          as (node2 & w2 & _ & [f2 Hconv2]).
        exists f2. intros fuel Hfuel. apply HasIntersection_some_error.
        split; [done|]. right. exists node2, (dfa.heap w2), (dfa.tick w2).
        split; [by apply Hconv2|]. apply convert2Dfa_inr. by exists d.
  - intros b (fuel & _ & Hrun)%(ends_in_run _ 0%nat).
    apply HasIntersection_nil_error in Hrun
      as (node2 & h2 & k2 & node1 & h1 & k1 & firstNode & nodeMap'
          & Hc2 & Hc1 & _).
    apply convert2Dfa_inl in Hc2 as (Hre2 & g2 & r2 & w2 & Hn2 & _).
    apply convert2Dfa_inl in Hc1 as (Hre1 & g1 & r1 & w1 & Hn1 & _).
    by eauto 8.
  - intros e Hre2 Hn2. exists 0%nat. intros fuel _.
    unfold HasIntersection. by rewrite (convert2Dfa_Exit fuel expr2 k e Hre2 Hn2).
  - intros e Hre2 (g & r & Hn2) Hre1 Hn1.
    destruct (Hvalid g r Hn2) as [Hclosed Hroot].
    destruct (convert2Dfa_returns R expr2 k g r Hre2 Hn2 Hclosed Hroot)
      as (node2 & w2 & _ & [f2 Hconv2]).
    exists f2. intros fuel Hfuel. unfold HasIntersection.
    rewrite (Hconv2 fuel Hfuel). simpl.
    by rewrite (convert2Dfa_Exit fuel expr1 (dfa.tick w2) e Hre1 Hn1).
Qed.
End answers.

Section answers_of_examples.
Import intersection examples.

Lemma nfa_a_star_b_valid : nfa_valid nfa_a_star_b 0%nat.
Proof. apply check_nfa_valid_sound. vm_compute. reflexivity. Qed.

Lemma nfa_a_to_c_valid : nfa_valid nfa_a_to_c 0%nat.
Proof. apply check_nfa_valid_sound. vm_compute. reflexivity. Qed.

Lemma HasIntersection_symmetric_witness :
  ∃ b : bool,
    returns (λ fuel, @HasIntersection runtime_forward toy_compiler
                       fuel "a*b" "[a-c]" 0%nat) (b, None) ∧
    returns (λ fuel, @HasIntersection runtime_backward toy_compiler
                       fuel "[a-c]" "a*b" 7%nat) (b, None).
Proof.
  apply (@HasIntersection_symmetric toy_compiler runtime_forward runtime_backward
           "a*b" "[a-c]" 0%nat 7%nat nfa_a_star_b 0%nat nfa_a_to_c 0%nat);
    [reflexivity|reflexivity|reflexivity|reflexivity| |].
  - apply nfa_a_star_b_valid.
  - apply nfa_a_to_c_valid.
Defined.

Example HasIntersection_a_star_b_a_to_c :
  @HasIntersection runtime_forward toy_compiler 20 "a*b" "[a-c]" 0%nat
  = Done (true, None).
Proof. vm_compute. reflexivity. Qed.

Example HasIntersection_a_to_c_a_star_b :
  @HasIntersection runtime_backward toy_compiler 20 "[a-c]" "a*b" 7%nat
  = Done (true, None).
Proof. vm_compute. reflexivity. Qed.

Lemma HasIntersection_error_witness :
  (∀ b err,
     returns (λ fuel, @HasIntersection runtime_forward toy_compiler
                        fuel "(" "a*b" 0%nat) (b, Some err) ↔
     b = false ∧
     ((∃ d, @regexp_Compile toy_compiler "a*b" = Some d ∧
            err = Wrap d ("invalid regexp: " +:+ "a*b")) ∨
      (@regexp_Compile toy_compiler "a*b" = None ∧
       (∃ g r, @nfa_New toy_compiler "a*b" = inl (g, r)) ∧
       ∃ d, @regexp_Compile toy_compiler "(" = Some d ∧
            err = Wrap d ("invalid regexp: " +:+ "(")))) ∧
  (∀ b, returns (λ fuel, @HasIntersection runtime_forward toy_compiler
                           fuel "(" "a*b" 0%nat) (b, None) →
        @regexp_Compile toy_compiler "(" = None ∧
        @regexp_Compile toy_compiler "a*b" = None ∧
        (∃ g1 r1, @nfa_New toy_compiler "(" = inl (g1, r1)) ∧
        (∃ g2 r2, @nfa_New toy_compiler "a*b" = inl (g2, r2))) ∧
  (∀ e, @regexp_Compile toy_compiler "a*b" = None →
        @nfa_New toy_compiler "a*b" = inr e →
        ends_in (λ fuel, @HasIntersection runtime_forward toy_compiler
                           fuel "(" "a*b" 0%nat) Exit) ∧
  (∀ e, @regexp_Compile toy_compiler "a*b" = None →
        (∃ g r, @nfa_New toy_compiler "a*b" = inl (g, r)) →
        @regexp_Compile toy_compiler "(" = None →
        @nfa_New toy_compiler "(" = inr e →
        ends_in (λ fuel, @HasIntersection runtime_forward toy_compiler
                           fuel "(" "a*b" 0%nat) Exit).
Proof.
  apply (@HasIntersection_error toy_compiler runtime_forward "(" "a*b" 0%nat).
  intros g r [= <- <-]. split; apply nfa_a_star_b_valid.
Defined.

Example HasIntersection_fatal_after_first_conversion :
  @HasIntersection runtime_forward toy_compiler 20 "(?i)a" "a*b" 0%nat = Exit.
Proof. vm_compute. reflexivity. Qed.

Example HasIntersection_invalid_first :
  @HasIntersection runtime_forward toy_compiler 20 "(" "a*b" 0%nat
  = Done (false, Some (Wrap "error parsing regexp: missing closing ): `(`"
                            "invalid regexp: (")).
Proof. vm_compute. reflexivity. Qed.

(** C3 fails as stated.  With a compiler whose [nfa.New] rejects an
    expression that [regexp.Compile] accepts, a call whose first
    expression fails compilation returns no error: the conversion of
    the second expression ends the process in [log.Fatal]. *)
Lemma HasIntersection_fatal_instead_of_error :
  @regexp_Compile toy_compiler "("
    = Some "error parsing regexp: missing closing ): `(`" ∧
  @regexp_Compile toy_compiler "(?i)a" = None ∧
  (∀ fuel, @HasIntersection runtime_forward toy_compiler fuel "(" "(?i)a" 0%nat = Exit) ∧
  ¬ ∃ fuel b err,
      @HasIntersection runtime_forward toy_compiler fuel "(" "(?i)a" 0%nat
      = Done (b, Some err).
Proof.
  split; [reflexivity|]. split; [reflexivity|]. split; [reflexivity|].
  by intros (fuel & b & err & Hrun).
Qed.
End answers_of_examples.

(** * Closures, labels and final states *)

Section closure_reach.
Import dfa.
Context (g : nfa.graph).

Lemma recursiveClosure_edges_call rec ts acc V cls V' :
  (∀ y W c W', rec y W = Done (c, W') → closure_call_spec g y W c W') →
  recursiveClosure_edges rec ts acc V = Done (cls, V') →
  ∃ rest, cls = acc ++ rest ∧ NoDup rest ∧ V' = list_to_set rest ∪ V ∧
          (∀ y, y ∈ rest → y ∉ V ∧ ∃ e, e ∈ ts ∧ nfa.R e = None ∧
                                        rtc (nfa.eps_step g) (nfa.N e) y) ∧
          (∀ e, e ∈ ts → nfa.R e = None → nfa.N e ∈ V') ∧
          (∀ y z, y ∈ rest → nfa.eps_step g y z → z ∈ V').
Proof.
  intros Hrec. revert acc V. induction ts as [|e ts IH]; simpl; intros acc V Hout.
  { injection Hout as <- <-. exists []. rewrite app_nil_r.
    split; [done|]. split; [constructor|]. split; [set_solver|].
    split; [by intros ? ?%elem_of_nil|]. split; [by intros ? ?%elem_of_nil|].
    by intros ? ? ?%elem_of_nil. }
  destruct (nfa.R e) eqn:HR.
  - destruct (IH _ _ Hout) as (rest & -> & Hnd & -> & Hel & Hedges & Hcl).
    exists rest. do 3 (split; [done|]). split; [|split; [|done]].
    + intros y Hy. destruct (Hel y Hy) as (? & e' & ? & ? & ?).
      split; [done|]. exists e'. split; [by right|done].
    + intros e' [->|?]%elem_of_cons ?; [congruence|by apply Hedges].
  - apply bind_Done in Hout as ([sub V1] & Hcall & Hout).
    destruct (Hrec _ _ _ _ Hcall) as (Hnd1 & -> & Hx1 & Hel1 & Hcl1).
    destruct (IH _ _ Hout) as (rest & -> & Hnd & -> & Hel & Hedges & Hcl).
    exists (sub ++ rest). split; [by rewrite app_assoc|]. split; [|split; [|split; [|split]]].
    + apply NoDup_app. split; [done|]. split; [|done].
      intros y Hy Hy'. destruct (Hel y Hy') as [Hn _]. set_solver.
    + set_solver.
    + intros y [Hy|Hy]%elem_of_app.
      * destruct (Hel1 y Hy) as [? ?]. split; [done|]. exists e. split; [by left|done].
      * destruct (Hel y Hy) as (Hn & e' & ? & ? & ?). split; [set_solver|].
        exists e'. split; [by right|done].
    + intros e' [->|?]%elem_of_cons ?; [set_solver|by apply Hedges].
    + intros y z [Hy|Hy]%elem_of_app Hstep; [|by eapply Hcl].
      pose proof (Hcl1 y z Hy Hstep). set_solver.
Qed.

Lemma recursiveClosure_call fuel x V cls V' :
  recursiveClosure fuel g x V = Done (cls, V') → closure_call_spec g x V cls V'.
Proof.
  revert x V cls V'. induction fuel as [|fuel IH]; intros x V cls V'; [done|]. simpl.
  case_decide as Hv.
  { intros [= <- <-]. split; [constructor|]. split; [set_solver|]. split; [done|].
    split; [by intros ? ?%elem_of_nil|]. by intros ? ? ?%elem_of_nil. }
  intros Hout. apply bind_Done in Hout as (node & Hnode%deref_Done & Hout).
  destruct (recursiveClosure_edges_call _ _ _ _ _ _ IH Hout)
    as (rest & -> & Hnd & -> & Hel & Hedges & Hcl).
  split; [|split; [|split; [|split]]].
  - simpl. constructor; [|done]. intros Hx. destruct (Hel x Hx) as [Hn _]. set_solver.
  - set_solver.
  - set_solver.
  - intros y [->|Hy]%elem_of_cons; [done|].
    destruct (Hel y Hy) as (Hn & e & He & HR & Hreach). split; [set_solver|].
    eapply rtc_l; [|exact Hreach]. by exists node, e.
  - intros y z [->|Hy]%elem_of_cons Hstep; [|by eapply Hcl].
    destruct Hstep as (node' & e & Hnode' & He & HR & <-).
    rewrite Hnode in Hnode'. injection Hnode' as <-. by apply Hedges.
Qed.

(** The list that [closure] computes for a node holds, once each, the
    nodes that epsilon edges reach from it, the node itself first. *)
Lemma closure_of_reach x cls :
  closure_of g x = Done cls →
  NoDup cls ∧ (∃ rest, cls = x :: rest) ∧
  ∀ y, y ∈ cls ↔ rtc (nfa.eps_step g) x y.
Proof.
  intros Hc. pose proof (closure_of_head g _ _ Hc) as Hhead.
  unfold closure_of in Hc. apply bind_Done in Hc as ([c V'] & Hc & [= <-]).
  apply recursiveClosure_call in Hc as (Hnd & -> & Hx & Hel & Hcl).
  split; [done|]. split; [done|]. intros y. split; [by intros [_ ?]%Hel|].
  assert (∀ a, a ∈ c → rtc (nfa.eps_step g) a y → y ∈ c) as Hgen.
  { intros a Ha Hr. induction Hr as [|a b y Hab _ IH]; [done|].
    apply IH. pose proof (Hcl a b Ha Hab). set_solver. }
  apply Hgen. set_solver.
Qed.
End closure_reach.

Section closure_theorems.
Import dfa.
Context (g : nfa.graph).

(** X1.  On a graph whose edges lead to its own nodes, [closure]
    returns the nodes that epsilon edges reach from the node, each once
    and the node itself first, also through epsilon cycles.  The cache
    then holds the list under the node, its other entries are unchanged,
    and a second call returns the same list. *)
Theorem closure_computes_reachable (x : nfa.ptr) (cache : gmap nfa.ptr (list nfa.ptr)) :
  nfa_closed g → is_Some (g !! x) → cache_ok g cache →
  ∃ cls cache',
    closure g x cache = Done (cls, cache') ∧
    NoDup cls ∧ (∃ rest, cls = x :: rest) ∧
    (∀ y, y ∈ cls ↔ rtc (nfa.eps_step g) x y) ∧
    cache' !! x = Some cls ∧ (∀ y, y ≠ x → cache' !! y = cache !! y) ∧
    closure g x cache' = Done (cls, cache').
Proof.
  intros Hclosed Hx Hcache.
  destruct (closure_returns g Hclosed x cache Hx) as (cls & cache' & Hrun).
  exists cls, cache'. split; [done|].
  destruct (closure_spec g _ _ _ _ Hcache Hrun) as [Hcls _].
  destruct (closure_of_reach g x cls Hcls) as (Hnd & Hhead & Hreach).
  do 3 (split; [done|]).
  unfold closure in Hrun |- *. destruct (cache !! x) as [c|] eqn:Hlook.
  - injection Hrun as <- <-. rewrite Hlook. done.
  - apply bind_Done in Hrun as ([c v] & Hrc & [= <- <-]).
    rewrite lookup_insert_eq. split; [done|]. split; [|done].
    intros y Hy. by rewrite lookup_insert_ne.
Qed.

(** X2.  [isFinal] returns on a list of nodes of such a graph, and
    returns [true] exactly when some node of the list reaches an
    accepting node through epsilon edges alone; the marks that the calls
    of [canReachFinal] share lose no answer. *)
Theorem isFinal_decides (cls : list nfa.ptr) :
  nfa_closed g → Forall (λ x, is_Some (g !! x)) cls →
  ∃ b, isFinal g cls = Done b ∧
       (b = true ↔ ∃ n, n ∈ cls ∧ nfa.reaches_final g n).
Proof.
  intros Hclosed Hcls. destruct (isFinal_returns g Hclosed cls Hcls) as [b Hb].
  exists b. split; [done|]. by apply isFinal_spec.
Qed.

(** X3.  The label of a closure list is the comma-separated list of the
    state ids of its nodes in ascending order without repetition: it
    depends on the set of the nodes only, and when state ids are unique
    two lists with the same label hold the same nodes. *)
Theorem labelFromClosure_canonical (cls : list nfa.ptr) (lbl : string) :
  labelFromClosure g cls = Done lbl →
  (∃ l, lbl = makeLabel l ∧ StronglySorted Z.lt l ∧
        ∀ s, s ∈ l ↔ ∃ x node, x ∈ cls ∧ g !! x = Some node ∧ nfa.S node = s) ∧
  (∀ cls' lbl', labelFromClosure g cls' = Done lbl' →
                (∀ y, y ∈ cls ↔ y ∈ cls') → lbl' = lbl) ∧
  (∀ cls', nfa.ids_unique g → labelFromClosure g cls' = Done lbl →
           ∀ y, y ∈ cls ↔ y ∈ cls').
Proof.
  intros Hlbl.
  assert (∀ c ss, states_of g c = Done ss →
            ∀ s, s ∈ ss ↔ ∃ x node, x ∈ c ∧ g !! x = Some node ∧ nfa.S node = s)
    as Hstates.
  { intros c ss Hss%states_of_spec s. split.
    - intros [i Hi]%list_elem_of_lookup.
      destruct (Forall2_lookup_r _ _ _ _ _ Hss Hi) as (x & Hx & node & Hnode & HS).
      exists x, node. split; [by eapply list_elem_of_lookup_2|done].
    - intros (x & node & [i Hi]%list_elem_of_lookup & Hnode & <-).
      destruct (Forall2_lookup_l _ _ _ _ _ Hss Hi) as (s & Hs & node' & Hnode' & <-).
      rewrite Hnode in Hnode'. injection Hnode' as <-.
      by eapply list_elem_of_lookup_2. }
  split; [|split].
  - unfold labelFromClosure in Hlbl.
    apply bind_Done in Hlbl as (ss & Hss & [= <-]).
    exists (sort_Ints (elements (list_to_set ss : gset Z))). split; [done|].
    unfold sort_Ints. split.
    + apply StronglySorted_lt_of_le; [apply (StronglySorted_merge_sort Z.le)|].
      rewrite merge_sort_Permutation. apply NoDup_elements.
    + intros s. rewrite merge_sort_Permutation, elem_of_elements, elem_of_list_to_set.
      by apply Hstates.
  - intros cls' lbl' Hlbl' Hsame. unfold labelFromClosure in Hlbl, Hlbl'.
    apply bind_Done in Hlbl as (ss & Hss & [= <-]).
    apply bind_Done in Hlbl' as (ss' & Hss' & [= <-]).
    assert (list_to_set ss' = (list_to_set ss : gset Z)) as ->; [|done].
    apply set_eq. intros s. rewrite !elem_of_list_to_set.
    rewrite (Hstates _ _ Hss), (Hstates _ _ Hss').
    split; intros (x & node & Hx & Hrest); exists x, node; (split; [by apply Hsame|done]).
  - intros cls' Hu Hlbl'. by eapply labelFromClosure_inj.
Qed.

(** X4.  [makeLabel] never gives two lists of integers the same label,
    negative numbers included. *)
Theorem makeLabel_injective (a b : list Z) : makeLabel a = makeLabel b ↔ a = b.
Proof. split; [apply makeLabel_inj|by intros ->]. Qed.
End closure_theorems.

Section union_theorem.
Import dfa.
Context `{GoRuntime}.

(** X5.  [union] returns the nodes of its argument lists.  A single
    list is returned as it is, repetitions included; in every other case
    the result holds each node once, in the order in which the runtime
    ranges over the map. *)
Theorem union_collects (cls : list (list nfa.ptr)) (k : nat) :
  (∀ y, y ∈ union cls k ↔ ∃ c, c ∈ cls ∧ y ∈ c) ∧
  (length cls ≠ 1%nat → NoDup (union cls k)) ∧
  (∀ c, cls = [c] → union cls k = c) ∧
  (length cls ≠ 1%nat →
     union cls k = map_range k (elements (list_to_set (concat cls) : gset nfa.ptr))).
Proof.
  split; [intros y; apply elem_of_dfa_union|]. split; [apply union_NoDup|].
  split; [by intros c ->|]. by destruct cls as [|c [|c' cls]].
Qed.
End union_theorem.

Section closure_examples.
Import dfa examples.

Lemma cache_ok_empty g : cache_ok g ∅.
Proof. intros x c Hx. by rewrite lookup_empty in Hx. Qed.

Lemma closure_computes_reachable_witness :
  ∃ cls cache',
    closure nfa_a_star_b 0%nat ∅ = Done (cls, cache') ∧
    NoDup cls ∧ (∃ rest, cls = 0%nat :: rest) ∧
    (∀ y, y ∈ cls ↔ rtc (nfa.eps_step nfa_a_star_b) 0%nat y) ∧
    cache' !! 0%nat = Some cls ∧
    (∀ y, y ≠ 0%nat → cache' !! y = (∅ : gmap nfa.ptr (list nfa.ptr)) !! y) ∧
    closure nfa_a_star_b 0%nat cache' = Done (cls, cache').
Proof.
  apply (closure_computes_reachable nfa_a_star_b 0%nat ∅).
  - apply nfa_a_star_b_valid.
  - apply nfa_a_star_b_valid.
  - apply cache_ok_empty.
Defined.

Example closure_a_star_b :
  closure nfa_a_star_b 0%nat ∅ = Done ([0; 1; 2]%nat, {[ 0%nat := [0; 1; 2]%nat ]}).
Proof. vm_compute. reflexivity. Qed.

Lemma isFinal_decides_witness :
  ∃ b, isFinal nfa_a_star_b [0; 1; 2]%nat = Done b ∧
       (b = true ↔ ∃ n, n ∈ [0; 1; 2]%nat ∧ nfa.reaches_final nfa_a_star_b n).
Proof.
  apply (isFinal_decides nfa_a_star_b [0; 1; 2]%nat).
  - apply nfa_a_star_b_valid.
  - repeat constructor; by eexists.
Defined.

Lemma labelFromClosure_canonical_witness :
  (∃ l, "1,5" = makeLabel l ∧ StronglySorted Z.lt l ∧
        ∀ s, s ∈ l ↔ ∃ x node, x ∈ [5; 1; 5]%nat ∧ nfa_detour !! x = Some node ∧
                               nfa.S node = s) ∧
  (∀ cls' lbl', labelFromClosure nfa_detour cls' = Done lbl' →
                (∀ y, y ∈ [5; 1; 5]%nat ↔ y ∈ cls') → lbl' = "1,5") ∧
  (∀ cls', nfa.ids_unique nfa_detour → labelFromClosure nfa_detour cls' = Done "1,5" →
           ∀ y, y ∈ [5; 1; 5]%nat ↔ y ∈ cls').
Proof.
  apply (labelFromClosure_canonical nfa_detour [5; 1; 5]%nat "1,5").
  vm_compute. reflexivity.
Defined.
End closure_examples.

(** * The automaton that the build returns *)

Section path_language.
Context (g : nfa.graph).
Hypothesis Hclosed : nfa_closed g.

Lemma nfa_run_eps_l a b w y :
  rtc (nfa.eps_step g) a b → nfa_run g b w y → nfa_run g a w y.
Proof.
  intros Hab. destruct w as [|c w]; simpl.
  - intros Hby. by etrans.
  - intros (x1 & x2 & Hb1 & Hrest). exists x1, x2. split; [by etrans|done].
Qed.

Lemma nfa_run_eps_r a w x y :
  nfa_run g a w x → rtc (nfa.eps_step g) x y → nfa_run g a w y.
Proof.
  revert a. induction w as [|c w IH]; simpl; intros a.
  - intros Hax Hxy. by etrans.
  - intros (x1 & x2 & Ha1 & Hstep & Hrun) Hxy. exists x1, x2. by eauto.
Qed.

(** One step of the subset automaton: an edge on [c], then epsilon
    edges. *)
Lemma move_char_steps X c y :
  move_char g X c y ↔
  ∃ x x', X x ∧ char_step g c x x' ∧ rtc (nfa.eps_step g) x' y.
Proof.
  split.
  - intros (x & node & e & cls & Hx & Hnode & He & Hc & Hcls & Hy).
    exists x, (nfa.N e). split; [done|]. split; [by exists node, e|].
    by apply (closure_of_reach g _ _ Hcls).
  - intros (x & x' & Hx & (node & e & Hnode & He & Hc & <-) & Hreach).
    destruct (closure_of_returns g Hclosed (nfa.N e)) as [cls Hcls].
    { by apply (Hclosed x node e). }
    exists x, node, e, cls. do 5 (split; [done|]).
    by apply (closure_of_reach g _ _ Hcls).
Qed.

Lemma move_word_runs w (X : nfa.ptr → Prop) y :
  (∀ x x', X x → nfa.eps_step g x x' → X x') →
  move_word g X w y ↔ ∃ x, X x ∧ nfa_run g x w y.
Proof.
  revert X. induction w as [|c w IH]; simpl; intros X HX.
  { split; [intros Hy; exists y; by split|].
    intros (x & Hx & Hreach). induction Hreach as [|a b z Hab _ IHr]; [done|].
    apply IHr. by eapply HX. }
  rewrite IH.
  - split.
    + intros (z & (x & x' & Hx & Hstep & Hreach)%move_char_steps & Hrun).
      exists x. split; [done|]. exists x, x'. split; [done|]. split; [done|].
      by eapply nfa_run_eps_l.
    + intros (x & Hx & x1 & x2 & Hreach & Hstep & Hrun).
      exists x2. split; [|done]. apply move_char_steps. exists x1, x2.
      split; [|done]. clear Hstep Hrun.
      induction Hreach as [|a b z Hab _ IHr]; [done|]. apply IHr. by eapply HX.
  - intros x x' (a & a' & Ha & Hstep & Hreach)%move_char_steps Hxx'.
    apply move_char_steps. exists a, a'. do 2 (split; [done|]).
    eapply rtc_r; done.
Qed.

(** The language of the subset automaton is the language of the NFA. *)
Lemma nfa_accepts_language r w :
  is_Some (g !! r) → nfa_accepts g r w ↔ nfa_language g r w.
Proof.
  intros Hr. destruct (closure_of_returns g Hclosed r Hr) as [cls Hcls].
  destruct (closure_of_reach g r cls Hcls) as (_ & _ & Hreach).
  assert (∀ x x', x ∈ cls → nfa.eps_step g x x' → x' ∈ cls) as Hcl.
  { intros x x' Hx Hstep. apply Hreach. eapply rtc_r; [by apply Hreach|done]. }
  split.
  - intros (cls' & Hcls' & x & Hx & y & node & Hxy & Hnode & HF).
    rewrite Hcls in Hcls'. injection Hcls' as <-.
    apply move_word_runs in Hx as (x0 & Hx0 & Hrun); [|done].
    exists y, node. split; [|done].
    eapply nfa_run_eps_l; [by apply Hreach|]. by eapply nfa_run_eps_r.
  - intros (y & node & Hrun & Hnode & HF). exists cls. split; [done|].
    exists y. split.
    + apply move_word_runs; [done|]. exists r. split; [by apply Hreach|done].
    + by exists y, node.
Qed.
End path_language.

Section built_automaton.
Import dfa runerange.
Context `{GoRuntime} (g : nfa.graph).

Lemma NewFromNFA_root fuel nfanode k root w :
  NewFromNFA fuel g nfanode k = Done (root, w) →
  ∃ n, heap w !! root = Some n ∧ State n = 1 ∧
       closure_of g nfanode = Done (closures n).
Proof.
  intros Hnew. pose proof Hnew as (_ & n & cls & Hn & Hcls & <-)%NewFromNFA_ok.
  exists n. split; [done|]. split; [|done].
  unfold NewFromNFA in Hnew.
  apply bind_Done in Hnew as ([node0 w0] & Hfirst & Hnew).
  apply bind_Done in Hnew as (w1 & Hcs & [= <- <-]).
  pose proof (firstNode_ok g nfanode k _ _ Hfirst) as Hw0.
  destruct (constructSubset_ok g fuel node0 w0 w1 {[node0]} Hw0) as [_ Hext];
    [set_solver|done|].
  unfold firstNode in Hfirst. cbn [ctx closureCache heap state nodesByLabel tick] in Hfirst.
  apply bind_Done in Hfirst as ([cls0 cache] & _ & Hfirst).
  apply bind_Done in Hfirst as (lbl & _ & Hfirst).
  apply bind_Done in Hfirst as (fin & _ & [= <- <-]).
  destruct (Hext _ _ (lookup_insert_eq _ _ _)) as (n' & Hn' & HS & _).
  cbn [heap] in Hn'. rewrite Hn in Hn'. injection Hn' as <-. by rewrite <-HS.
Qed.

(** X6.  The arena that [NewFromNFA] returns is a DFA: every transition
    leads to a node of the arena, the range lists are sorted and
    disjoint, no character is on two transitions of a node, and state
    ids are unique.  The root has state id 1 and holds the closure of
    the root of the NFA.  Every node carries the label of its closure
    list, which is not empty, no two nodes carry the same label, and a
    node is final exactly when a node of its closure list reaches an
    accepting node through epsilon edges. *)
Theorem NewFromNFA_builds_dfa fuel nfanode k root w :
  NewFromNFA fuel g nfanode k = Done (root, w) →
  well_formed (heap w) ∧
  (∃ n, heap w !! root = Some n ∧ State n = 1 ∧
        ∀ y, y ∈ closures n ↔ rtc (nfa.eps_step g) nfanode y) ∧
  (∀ l n, heap w !! l = Some n →
     labelFromClosure g (closures n) = Done (label n) ∧ closures n ≠ [] ∧
     (Final n = true ↔ ∃ x, x ∈ closures n ∧ nfa.reaches_final g x) ∧
     1 ≤ State n ∧
     ∀ l' n', heap w !! l' = Some n' → label n' = label n → l' = l).
Proof.
  intros Hnew. split; [by eapply NewFromNFA_well_formed|]. split.
  - destruct (NewFromNFA_root _ _ _ _ _ Hnew) as (n & Hn & HS & Hcls).
    exists n. do 2 (split; [done|]). by apply (closure_of_reach g _ _ Hcls).
  - intros l n Hn. apply NewFromNFA_ok in Hnew as [Hw _].
    pose proof (wk_nodes _ _ _ Hw _ _ Hn) as [Hlbl Hfin Htab Hst Hne _ _].
    split; [done|]. split; [done|]. split; [by apply isFinal_spec|]. split; [lia|].
    intros l' n' Hn' Heq.
    pose proof (nk_table _ _ _ _ _ (wk_nodes _ _ _ Hw _ _ Hn')) as Htab'.
    rewrite Heq in Htab'. congruence.
Qed.

(** X7.  [NewFromNFA] returns on every graph whose edges lead to its
    own nodes, epsilon cycles included, whatever order the runtime picks
    to range over the maps: the recursion of [constructSubset] stops
    because every recursive call adds a label to the table. *)
Theorem NewFromNFA_terminates nfanode k :
  nfa_closed g → is_Some (g !! nfanode) →
  ∃ root w, returns (λ fuel, NewFromNFA fuel g nfanode k) (root, w).
Proof.
  intros Hclosed Hroot.
  destruct (NewFromNFA_returns g nfanode k Hclosed Hroot) as (root & w & Hrun).
  exists root, w, (S (size (label_universe g))). intros fuel Hfuel. apply Hrun. lia.
Qed.

(** X8.  The automaton that [NewFromNFA] returns accepts a word exactly
    when the NFA does: when some path of the NFA from its root to an
    accepting node reads the word. *)
Theorem NewFromNFA_accepts_language fuel nfanode k root w :
  nfa_valid g nfanode →
  NewFromNFA fuel g nfanode k = Done (root, w) →
  ∀ word, dfa_accepts (heap w) root word ↔ nfa_language g nfanode word.
Proof.
  intros [Hclosed Hroot Hids] Hnew word.
  rewrite (NewFromNFA_language g _ _ _ _ _ Hids Hnew).
  by apply nfa_accepts_language.
Qed.

(** X9.  On a node of the automaton that [NewFromNFA] returns,
    [NextState] with the probe [[c, c]] returns the node that holds the
    NFA nodes reached from the closure list by an edge on [c] followed
    by epsilon edges, and [nil] exactly when no edge that leaves the
    closure list is on [c]. *)
Theorem NextState_follows_subset fuel nfanode k root w l n c :
  nfa_valid g nfanode →
  NewFromNFA fuel g nfanode k = Done (root, w) →
  heap w !! l = Some n →
  match NextState n [c; c] with
  | Some p =>
      ∃ n', heap w !! p = Some n' ∧
            ∀ y, y ∈ closures n' ↔
                 ∃ x x', x ∈ closures n ∧ char_step g c x x' ∧
                         rtc (nfa.eps_step g) x' y
  | None => ∀ x x', x ∈ closures n → ¬ char_step g c x x'
  end.
Proof.
  intros [Hclosed Hroot Hids] Hnew Hn.
  destruct (NewFromNFA_node_built g _ _ _ _ _ _ _ Hnew Hn) as [_ Htr].
  destruct (NextState n [c; c]) as [p|] eqn:Hnext.
  - apply NextState_loop_Some in Hnext as (ts1 & t & ts2 & Hts & _ & Hc%Contains_char & ->).
    assert (t ∈ Transitions n) as Ht by (rewrite Hts; set_solver).
    destruct (tk_target _ _ _ Htr t Ht) as (n' & Hn' & _ & Hmove).
    exists n'. split; [done|]. intros y.
    rewrite (Hmove Hids c Hc y). by apply move_char_steps.
  - apply NextState_loop_None in Hnext. rewrite Forall_forall in Hnext.
    intros x x' Hx (node & e & Hnode & He & Hc & _).
    assert (edge_covers g (closures n) c) as Hcov by by exists x, node, e.
    apply (tk_cover _ _ _ Htr) in Hcov as (t & Ht & Hct).
    apply Contains_char in Hct. rewrite (Hnext t Ht) in Hct. done.
Qed.
End built_automaton.

Section built_examples.
Import dfa runerange examples.

Lemma NewFromNFA_builds_dfa_witness :
  ∃ root w,
    @NewFromNFA runtime_backward 10 nfa_a_star_b 0%nat 3%nat = Done (root, w) ∧
    well_formed (heap w) ∧
    (∃ n, heap w !! root = Some n ∧ State n = 1 ∧
          ∀ y, y ∈ closures n ↔ rtc (nfa.eps_step nfa_a_star_b) 0%nat y) ∧
    (∀ l n, heap w !! l = Some n →
       labelFromClosure nfa_a_star_b (closures n) = Done (label n) ∧ closures n ≠ [] ∧
       (Final n = true ↔ ∃ x, x ∈ closures n ∧ nfa.reaches_final nfa_a_star_b x) ∧
       1 ≤ State n ∧
       ∀ l' n', heap w !! l' = Some n' → label n' = label n → l' = l).
Proof.
  eexists _, _. split; [vm_compute; reflexivity|].
  apply (@NewFromNFA_builds_dfa runtime_backward nfa_a_star_b 10 0%nat 3%nat).
  vm_compute. reflexivity.
Defined.

Lemma NewFromNFA_terminates_witness :
  ∃ root w,
    returns (λ fuel, @NewFromNFA runtime_forward fuel nfa_fork 0%nat 0%nat) (root, w).
Proof.
  apply (@NewFromNFA_terminates runtime_forward nfa_fork 0%nat 0%nat).
  - apply (nv_closed nfa_fork 0%nat). apply check_nfa_valid_sound. vm_compute. reflexivity.
  - by eexists.
Defined.

Lemma NewFromNFA_accepts_language_witness :
  ∃ root w,
    @NewFromNFA runtime_forward 10 nfa_a_star_b 0%nat 0%nat = Done (root, w) ∧
    ∀ word, dfa_accepts (heap w) root word ↔ nfa_language nfa_a_star_b 0%nat word.
Proof.
  eexists _, _. split; [vm_compute; reflexivity|].
  apply (@NewFromNFA_accepts_language runtime_forward nfa_a_star_b 10 0%nat 0%nat).
  - apply nfa_a_star_b_valid.
  - vm_compute. reflexivity.
Defined.

Lemma NextState_follows_subset_witness :
  ∃ root w n,
    @NewFromNFA runtime_forward 10 nfa_a_star_b 0%nat 0%nat = Done (root, w) ∧
    heap w !! root = Some n ∧
    match NextState n [98; 98] with
    | Some p =>
        ∃ n', heap w !! p = Some n' ∧
              ∀ y, y ∈ closures n' ↔
                   ∃ x x', x ∈ closures n ∧ char_step nfa_a_star_b 98 x x' ∧
                           rtc (nfa.eps_step nfa_a_star_b) x' y
    | None => ∀ x x', x ∈ closures n → ¬ char_step nfa_a_star_b 98 x x'
    end.
Proof.
  eexists _, _, _. split; [vm_compute; reflexivity|]. split; [vm_compute; reflexivity|].
  apply (@NextState_follows_subset runtime_forward nfa_a_star_b 10 0%nat 0%nat
           0%nat _ 0%nat _ 98).
  - apply nfa_a_star_b_valid.
  - vm_compute. reflexivity.
  - vm_compute. reflexivity.
Defined.
End built_examples.

(** * The helpers of the search *)

Section merge_scan.
Import runerange intersection.

Lemma res_bind_Done_id {A} (m : res A) : (m ≫= λ r, Done r) = m.
Proof. by destruct m. Qed.

(** A range of the first list that ends before the second list begins
    is passed over. *)
Lemma findOverlap_below_l lo1 hi1 rest1 range2 :
  ascending_from hi1 range2 →
  findOverlap (lo1 :: hi1 :: rest1) range2 = findOverlap rest1 range2.
Proof.
  destruct range2 as [|lo2 [|hi2 rest2]]; [by destruct rest1 as [|? [|? ?]]|done|].
  intros (Hlo & Hhi & _). rewrite findOverlap_step.
  rewrite (bool_decide_eq_true_2 (hi1 < hi2)) by lia.
  rewrite (bool_decide_eq_false_2 (Z.max lo1 lo2 ≤ Z.min hi1 hi2)) by lia.
  apply res_bind_Done_id.
Qed.

Lemma findOverlap_below_r lo2 hi2 rest2 range1 :
  ascending_from hi2 range1 →
  findOverlap range1 (lo2 :: hi2 :: rest2) = findOverlap range1 rest2.
Proof.
  destruct range1 as [|lo1 [|hi1 rest1]]; [by destruct rest2 as [|? [|? ?]]|done|].
  intros (Hlo & Hhi & _). rewrite findOverlap_step.
  rewrite (bool_decide_eq_false_2 (hi1 < hi2)) by lia.
  rewrite (bool_decide_eq_false_2 (Z.max lo1 lo2 ≤ Z.min hi1 hi2)) by lia.
  apply res_bind_Done_id.
Qed.

Lemma findOverlap_comm_ascending a b pa pb :
  ascending_from pa a → ascending_from pb b → findOverlap a b = findOverlap b a.
Proof.
  remember (length a + length b)%nat as n eqn:Hn.
  revert a b pa pb Hn. induction (lt_wf n) as [n _ IH].
  intros a b pa pb -> Ha Hb.
  destruct a as [|lo1 [|hi1 rest1]]; [by destruct b as [|? [|? ?]]|done|].
  destruct b as [|lo2 [|hi2 rest2]]; [done|done|].
  destruct Ha as (Hpa & Hlo1 & Ha), Hb as (Hpb & Hlo2 & Hb).
  rewrite !findOverlap_step.
  rewrite (Z.max_comm lo2 lo1), (Z.min_comm hi2 hi1).
  f_equal. destruct (Z.lt_total hi1 hi2) as [Hlt|[Heq|Hgt]].
  - rewrite (bool_decide_eq_true_2 (hi1 < hi2)), (bool_decide_eq_false_2 (hi2 < hi1))
      by lia.
    eapply (IH (length rest1 + length (lo2 :: hi2 :: rest2))%nat ltac:(simpl; lia)
               rest1 (lo2 :: hi2 :: rest2) hi1 pb eq_refl);
      [done|by repeat split].
  - rewrite (bool_decide_eq_false_2 (hi1 < hi2)), (bool_decide_eq_false_2 (hi2 < hi1))
      by lia.
    subst hi2.
    rewrite (findOverlap_below_l lo1 hi1 rest1 rest2) by done.
    rewrite (findOverlap_below_l lo2 hi1 rest2 rest1) by done.
    by eapply (IH (length rest1 + length rest2)%nat ltac:(simpl; lia)
                  rest1 rest2 hi1 hi1 eq_refl).
  - rewrite (bool_decide_eq_false_2 (hi1 < hi2)), (bool_decide_eq_true_2 (hi2 < hi1))
      by lia.
    eapply (IH (length (lo1 :: hi1 :: rest1) + length rest2)%nat ltac:(simpl; lia)
               (lo1 :: hi1 :: rest1) rest2 pa hi2 eq_refl);
      [by repeat split|done].
Qed.

(** X10.  On sorted disjoint range lists [findOverlap] does not depend
    on the order of its arguments, although a tie between the ends of
    two ranges always drops the range of the second list. *)
Theorem findOverlap_comm (a b : list rune) :
  sorted_disjoint a → sorted_disjoint b → findOverlap a b = findOverlap b a.
Proof.
  intros [pa Ha]%sorted_disjoint_ascending [pb Hb]%sorted_disjoint_ascending.
  by eapply findOverlap_comm_ascending.
Qed.

Lemma findOverlap_self_ascending a p : ascending_from p a → findOverlap a a = Done a.
Proof.
  remember (length a) as n eqn:Hn. revert a p Hn.
  induction (lt_wf n) as [n _ IH]. intros a p -> Ha.
  destruct a as [|lo [|hi rest]]; [done|done|].
  destruct Ha as (Hp & Hlo & Ha). rewrite findOverlap_step.
  rewrite (bool_decide_eq_false_2 (hi < hi)) by lia.
  rewrite (findOverlap_below_l lo hi rest rest) by done.
  rewrite (IH (length rest) ltac:(simpl; lia) rest hi eq_refl Ha). simpl.
  rewrite bool_decide_eq_true_2 by lia. f_equal. f_equal; [lia|f_equal; lia].
Qed.

(** X11.  The overlap of a sorted disjoint range list with itself is the
    list itself. *)
Theorem findOverlap_self (a : list rune) :
  sorted_disjoint a → findOverlap a a = Done a.
Proof. intros [p Ha]%sorted_disjoint_ascending. by eapply findOverlap_self_ascending. Qed.

Lemma findOverlap_comm_witness :
  findOverlap [1; 5; 8; 9] [3; 5; 6; 8] = findOverlap [3; 5; 6; 8] [1; 5; 8; 9].
Proof. apply (findOverlap_comm [1; 5; 8; 9] [3; 5; 6; 8]); simpl; lia. Defined.

Lemma findOverlap_self_witness : findOverlap [1; 5; 8; 9] [1; 5; 8; 9] = Done [1; 5; 8; 9].
Proof. apply (findOverlap_self [1; 5; 8; 9]); simpl; lia. Defined.

Example findOverlap_tie : findOverlap [1; 5; 8; 9] [3; 5; 6; 8] = Done [3; 5; 8; 8].
Proof. reflexivity. Qed.
End merge_scan.

Section next_nodes.
Import runerange intersection.

Lemma filter_overlaps_none (ts : list dfa.T) r :
  (∀ t, t ∈ ts → Overlaps (dfa.RuneRanges t) r = false) →
  filter (λ t, Overlaps (dfa.RuneRanges t) r = true) ts = [].
Proof.
  induction ts as [|t ts IH]; intros Hts; [done|].
  rewrite filter_cons_False; [|rewrite Hts; [done|by left]].
  apply IH. intros t' ?. apply Hts. by right.
Qed.

Lemma Overlaps_within a b r :
  (∀ c, covers r c → covers a c) → Overlaps a b = false → Overlaps b r = false.
Proof.
  intros Hin Hab. apply not_true_is_false. intros (c & Hb & Hr)%Overlaps_spec.
  assert (Overlaps a b = true); [|congruence].
  apply Overlaps_spec. exists c. auto.
Qed.

(** X12.  On a node whose transitions are pairwise disjoint,
    [findNextNodes] with a non-empty range list that lies within the
    range list of one transition returns the target of that transition
    and nothing else. *)
Theorem findNextNodes_single (n : dfa.Node) (t : dfa.T) (r : list rune) :
  dfa.transitions_disjoint (dfa.Transitions n) = true →
  t ∈ dfa.Transitions n →
  (∀ c, covers r c → covers (dfa.RuneRanges t) c) → (∃ c, covers r c) →
  findNextNodes n r = [dfa.T_Node t].
Proof.
  unfold findNextNodes. intros Hd Ht Hin [c Hc].
  assert (Overlaps (dfa.RuneRanges t) r = true) as Hov.
  { apply Overlaps_spec. exists c. auto. }
  induction (dfa.Transitions n) as [|t0 ts IH]; [by apply elem_of_nil in Ht|].
  simpl in Hd. apply andb_true_iff in Hd as [Hhd Hd].
  rewrite forallb_forall in Hhd.
  assert (∀ t', t' ∈ ts → Overlaps (dfa.RuneRanges t0) (dfa.RuneRanges t') = false)
    as Hhd'.
  { intros t' Ht'%list_elem_of_In. apply Hhd in Ht'. by apply negb_true_iff in Ht'. }
  apply elem_of_cons in Ht as [<-|Ht].
  - rewrite filter_cons_True by done.
    rewrite filter_overlaps_none; [done|].
    intros t' Ht'. eapply Overlaps_within; [exact Hin|by apply Hhd'].
  - rewrite filter_cons_False; [by apply IH|].
    rewrite (Overlaps_within (dfa.RuneRanges t) (dfa.RuneRanges t0) r Hin); [done|].
    rewrite Overlaps_comm. by apply Hhd'.
Qed.

Lemma findNextNodes_single_witness :
  findNextNodes examples.example_node [98; 98] = [2%nat].
Proof.
  apply (findNextNodes_single examples.example_node
           {| dfa.RuneRanges := [98; 99]; dfa.T_Node := 2%nat |} [98; 98]).
  - reflexivity.
  - right. left.
  - intros c [?|?]%covers_cons; apply covers_cons; [left; lia|by right].
  - exists 98. apply covers_cons. lia.
Defined.
End next_nodes.

Section pair_ids.
Import intersection.
Context (h1 h2 : dfa.arena).

(** X13.  When the state ids of each automaton are unique, two pairs of
    nodes have the same pair-id exactly when they are the same pair:
    the decimal renderings joined by an underscore are unambiguous. *)
Theorem nodeName_identifies_pair (a b a' b' : dfa.ptr) (nm nm' : string) :
  dfa.states_unique h1 → dfa.states_unique h2 →
  nodeName h1 h2 a b = Done nm → nodeName h1 h2 a' b' = Done nm' →
  nm = nm' ↔ (a, b) = (a', b').
Proof.
  intros Hu1 Hu2 Hnm Hnm'. split.
  - intros <-. exact (nodeName_inj h1 h2 a b a' b' nm Hu1 Hu2 Hnm Hnm').
  - intros [= <- <-]. congruence.
Qed.

Lemma dfs_loop_visited_mono fuel s b s' :
  dfs_loop h1 h2 fuel s = Done (b, s') → visited s ⊆ visited s'.
Proof.
  intros (_ & -> & _)%dfs_marks_spec. set_solver.
Qed.

Lemma dfs_loop_nodeMap fuel s b s' :
  dfa.closed h1 → dfa.closed h2 → dfa.ranges_paired h1 → dfa.ranges_paired h2 →
  Forall (node_ok h1 h2) (stack s) →
  dfs_loop h1 h2 fuel s = Done (b, s') →
  (∀ nm, nm ∈ visited s ∨ nm ∉ visited s' → nodeMap s' !! nm = nodeMap s !! nm) ∧
  (∀ nm, nm ∈ visited s' → nm ∉ visited s →
         ∃ cn, nodeMap s' !! nm = Some cn ∧ node_ok h1 h2 cn ∧
               nodeName h1 h2 (Node1 cn) (Node2 cn) = Done nm).
Proof.
  intros Hc1 Hc2 Hp1 Hp2. revert s.
  induction fuel as [|fuel IH]; intros s Hok; [done|]. simpl.
  destruct (dfs_step_cases h1 h2 Hc1 Hc2 Hp1 Hp2 s Hok) as [[_ Hstep]|Hcase].
  { rewrite Hstep. simpl. intros [= _ <-]. split; [done|]. by intros nm ? ?. }
  destruct Hcase as (cn & st & nm & Hst & Hcn & Hst_ok & Hnm & Hall & Hcase).
  destruct Hcase as [(Hv & ->)|[(Hv & Hfin & ->)|(Hv & Hfin & Hexp)]]; simpl.
  - intros Hloop.
    by apply (IH {| stack := st; visited := visited s; nodeMap := nodeMap s |} Hst_ok)
      in Hloop.
  - intros [= _ <-]. simpl. split.
    + intros nm' Hnm'. rewrite lookup_insert_ne; [done|]. set_solver.
    + intros nm' [->%elem_of_singleton|?]%elem_of_union ?; [|done].
      exists cn. by rewrite lookup_insert_eq.
  - destruct Hexp as (n1 & n2 & ranges & pushed & Hn1 & Hn2 & Hsucc & Hpush & ->).
    simpl. intros Hloop. pose proof (dfs_loop_visited_mono _ _ _ _ Hloop) as Hmono.
    apply IH in Hloop as [Hkeep Hnew]; simpl in *.
    2:{ apply Forall_app. split; [|done]. apply Forall_reverse.
        by apply push_list_spec in Hpush as [? _]. }
    split.
    + intros nm' Hnm'. rewrite Hkeep by set_solver.
      rewrite lookup_insert_ne; [done|]. set_solver.
    + intros nm' Hin Hnot. destruct (decide (nm' = nm)) as [->|Hne].
      * exists cn. rewrite Hkeep by set_solver. by rewrite lookup_insert_eq.
      * apply Hnew; [done|set_solver].
Qed.

(** X14.  What [dfs] leaves in [nodeMap].  The pair-ids of the
    local map [visited] when the loop ends are those that its rounds
    marked; [nodeMap] maps each of them to the node it was popped with,
    whose pair-id it is, the start node among them, and every other key
    keeps the entry it had before the call. *)
Theorem dfs_records_visited fuel start nodeMap0 b s' :
  dfa.closed h1 → dfa.closed h2 → dfa.ranges_paired h1 → dfa.ranges_paired h2 →
  node_ok h1 h2 start →
  let s0 := {| stack := [start]; visited := ∅; nodeMap := nodeMap0 |} in
  dfs_loop h1 h2 fuel s0 = Done (b, s') →
  dfs h1 h2 fuel start nodeMap0 = Done (b, nodeMap s') ∧
  visited s' = list_to_set (dfs_marks h1 h2 fuel s0) ∧
  visited s' ⊆ all_names h1 h2 ∧
  (∃ nm, nodeName h1 h2 (Node1 start) (Node2 start) = Done nm ∧
         nm ∈ visited s' ∧ nodeMap s' !! nm = Some start) ∧
  (∀ nm, nm ∈ visited s' →
         ∃ cn, nodeMap s' !! nm = Some cn ∧ node_ok h1 h2 cn ∧
               nodeName h1 h2 (Node1 cn) (Node2 cn) = Done nm) ∧
  (∀ nm, nm ∉ visited s' → nodeMap s' !! nm = nodeMap0 !! nm).
Proof.
  intros Hc1 Hc2 Hp1 Hp2 Hok s0 Hloop.
  assert (Forall (node_ok h1 h2) (stack s0)) as Hok0 by by constructor.
  destruct (dfs_loop_nodeMap _ _ _ _ Hc1 Hc2 Hp1 Hp2 Hok0 Hloop) as [Hkeep Hnew].
  split; [|split; [|split; [|split; [|split]]]].
  - unfold dfs. fold s0. by rewrite Hloop.
  - pose proof (dfs_marks_spec h1 h2 _ _ _ _ Hloop) as (_ & Hv & _).
    rewrite Hv. simpl. set_solver.
  - eapply (dfs_loop_visited_names h1 h2 Hc1 Hc2 Hp1 Hp2); [exact Hok0| |exact Hloop].
    set_solver.
  - destruct fuel as [|fuel]; [done|]. simpl in Hloop.
    destruct (dfs_step_cases h1 h2 Hc1 Hc2 Hp1 Hp2 s0 Hok0) as [[Hnil _]|Hcase]; [done|].
    destruct Hcase as (cn & st & nm & [= <- <-] & _ & _ & Hnm & _ & Hcase).
    exists nm. split; [done|].
    destruct Hcase as [(Hv & _)|[(_ & _ & Hstep)|(_ & _ & Hexp)]]; [set_solver| |].
    + rewrite Hstep in Hloop. simpl in Hloop. injection Hloop as _ <-. simpl.
      split; [set_solver|by rewrite lookup_insert_eq].
    + destruct Hexp as (n1 & n2 & ranges & pushed & _ & _ & _ & Hpush & Hstep).
      rewrite Hstep in Hloop. simpl in Hloop.
      pose proof (dfs_loop_visited_mono _ _ _ _ Hloop) as Hmono. simpl in Hmono.
      split; [set_solver|].
      apply dfs_loop_nodeMap in Hloop as [Hkeep' _]; try done.
      * rewrite Hkeep' by (simpl; set_solver). simpl. by rewrite lookup_insert_eq.
      * simpl. rewrite app_nil_r. apply Forall_reverse.
        by apply push_list_spec in Hpush as [? _].
  - intros nm Hnm. apply Hnew; [done|set_solver].
  - intros nm Hnm. apply Hkeep. by right.
Qed.
End pair_ids.

Section pair_examples.
Import intersection examples.

Lemma nodeName_identifies_pair_witness :
  "1_2" = "2_1" ↔ (0%nat, 1%nat) = (1%nat, 0%nat).
Proof.
  apply (nodeName_identifies_pair dfa_ab dfa_acb 0%nat 1%nat 1%nat 0%nat "1_2" "2_1").
  - apply dfa_ab_well_formed.
  - apply dfa_acb_well_formed.
  - vm_compute. reflexivity.
  - vm_compute. reflexivity.
Defined.

Lemma dfs_records_visited_witness :
  ∃ s',
    (dfs_loop dfa_ab dfa_acb 10
       {| stack := [start_ab_acb]; visited := ∅; nodeMap := ∅ |} = Done (true, s') ∧
     visited s' = {[ "1_1"; "2_2"; "3_2" ]}) ∧
    dfs dfa_ab dfa_acb 10 start_ab_acb ∅ = Done (true, nodeMap s') ∧
    visited s' = list_to_set (dfs_marks dfa_ab dfa_acb 10
                   {| stack := [start_ab_acb]; visited := ∅; nodeMap := ∅ |}) ∧
    visited s' ⊆ all_names dfa_ab dfa_acb ∧
    (∃ nm, nodeName dfa_ab dfa_acb (Node1 start_ab_acb) (Node2 start_ab_acb) = Done nm ∧
           nm ∈ visited s' ∧ nodeMap s' !! nm = Some start_ab_acb) ∧
    (∀ nm, nm ∈ visited s' →
           ∃ cn, nodeMap s' !! nm = Some cn ∧ node_ok dfa_ab dfa_acb cn ∧
                 nodeName dfa_ab dfa_acb (Node1 cn) (Node2 cn) = Done nm) ∧
    (∀ nm, nm ∉ visited s' → nodeMap s' !! nm = (∅ : gmap string CombineNode) !! nm).
Proof.
  eexists. split.
  - split; [vm_compute; reflexivity|]. vm_compute. reflexivity.
  - apply (dfs_records_visited dfa_ab dfa_acb 10 start_ab_acb ∅ true).
    + apply dfa_ab_well_formed.
    + apply dfa_acb_well_formed.
    + apply ranges_sorted_paired, dfa_ab_well_formed.
    + apply ranges_sorted_paired, dfa_acb_well_formed.
    + apply start_ab_acb_ok.
    + vm_compute. reflexivity.
Defined.
End pair_examples.

(** * Printing, and the answers in terms of languages *)

Section printing.
Import dfa.
Context (h : arena).

(** What a call of [Print] adds to the marks and to the output. *)
#[local] Abbreviation prints extra s s' :=
  (s.1 ⊆ s'.1 ∧ s'.1 ⊆ s.1 ∪ dom h ∧
   ∃ lines : list line, s'.2 = s.2 ++ lines ∧
                        length lines = (extra + 2 * size (s'.1 ∖ s.1))%nat).

Lemma Print_transitions_lines rec ts s s' :
  (∀ n s s', rec n s = Done s' → prints 1%nat s s') →
  Print_transitions rec h ts s = Done s' → prints 0%nat s s'.
Proof.
  intros Hrec. revert s. induction ts as [|t ts IH]; intros [V out]; simpl.
  { intros [= <-]. simpl. split; [done|]. split; [clear; set_solver|]. exists [].
    rewrite app_nil_r. split; [done|].
    replace (V ∖ V) with (∅ : gset ptr) by (clear; set_solver). done. }
  case_decide as Hv; [apply IH|].
  intros Hrun. apply bind_Done in Hrun as (n' & Hn'%deref_Done & Hrun).
  apply bind_Done in Hrun as ([V2 out2] & Hcall & Hrun).
  apply Hrec in Hcall as (Hsub1 & Hdom1 & l2 & Hout2 & Hlen2).
  apply IH in Hrun as (Hsub2 & Hdom2 & l3 & Hout3 & Hlen3).
  destruct s' as [V' out']. simpl in *.
  assert (T_Node t ∈ dom h) by (apply elem_of_dom; by eexists).
  split; [clear -Hsub1 Hsub2; set_solver|].
  split; [clear -Hdom1 Hdom2 H; set_solver|].
  exists (TransLine t :: l2 ++ l3). split.
  { rewrite Hout3, Hout2, <-!app_assoc. done. }
  assert (V' ∖ V = {[T_Node t]} ∪ (V2 ∖ ({[T_Node t]} ∪ V)) ∪ (V' ∖ V2)) as ->.
  { clear -Hsub1 Hsub2 Hv. apply set_eq. intros x.
    destruct (decide (x = T_Node t)), (decide (x ∈ V2)); set_solver. }
  rewrite size_union by (clear -Hsub1; set_solver).
  rewrite size_union by (clear; set_solver).
  rewrite size_singleton. simpl. rewrite length_app. lia.
Qed.

Lemma Print_lines fuel n s s' : Print fuel h n s = Done s' → prints 1%nat s s'.
Proof.
  revert n s s'. induction fuel as [|fuel IH]; intros n [V out] s'; [done|]. simpl.
  intros Hrun.
  apply (Print_transitions_lines _ _ _ _ (IH)) in Hrun as (Hsub & Hdom & l & Hout & Hlen).
  simpl in *. split; [done|]. split; [done|].
  exists (NodeLine (label n) (State n) (Final n) (Transitions n) :: l).
  split; [by rewrite Hout, <-app_assoc|]. simpl. lia.
Qed.

Hypothesis Hclosed : closed h.

Lemma Print_returns m n s :
  Forall (λ t, is_Some (h !! T_Node t)) (Transitions n) →
  (size (dom h ∖ s.1) ≤ m)%nat →
  ∃ s', ∀ fuel, (m < fuel)%nat → Print fuel h n s = Done s'.
Proof.
  revert n s. induction m as [m IHm] using lt_wf_ind. intros n [V out] Hts Hm.
  simpl in Hm.
  enough (∃ s', ∀ fuel, (m ≤ fuel)%nat →
            Print_transitions (Print fuel h) h (Transitions n)
              (V, out ++ [NodeLine (label n) (State n) (Final n) (Transitions n)])
            = Done s') as [s' Hs'].
  { exists s'. intros [|fuel] Hfuel; [lia|]. simpl. apply Hs'. lia. }
  revert Hm. generalize (out ++ [NodeLine (label n) (State n) (Final n) (Transitions n)]).
  revert V. induction Hts as [|t ts [n' Hn'] _ IHts]; intros V out0 Hm; simpl.
  { by eauto. }
  case_decide as Hv; [by apply IHts|].
  unfold deref. rewrite Hn'. simpl.
  assert (size (dom h ∖ ({[T_Node t]} ∪ V)) < size (dom h ∖ V))%nat as Hlt.
  { apply subset_size. assert (T_Node t ∈ dom h) as Hin by (apply elem_of_dom; by eexists).
    clear -Hin Hv. set_solver. }
  destruct (IHm (size (dom h ∖ ({[T_Node t]} ∪ V))) ltac:(lia) n'
              ({[T_Node t]} ∪ V, out0 ++ [TransLine t]))
    as [[V2 out2] Hcall]; [exact (Hclosed _ _ Hn')|done|].
  assert ({[T_Node t]} ∪ V ⊆ V2) as Hsub.
  { specialize (Hcall (S (size (dom h ∖ ({[T_Node t]} ∪ V)))) ltac:(lia)).
    by apply Print_lines in Hcall as [? _]. }
  destruct (IHts V2 out2) as [s' Hs'].
  { etrans; [apply subseteq_size|exact Hm]. clear -Hsub. set_solver. }
  exists s'. intros fuel Hfuel. rewrite Hcall by lia. simpl. by apply Hs'.
Qed.

(** X15.  [Print] returns on every arena whose transitions lead to its
    own nodes, cycles included.  It marks nodes of the arena only and
    never unmarks one, and it writes one line for the receiver and two
    lines, one for the transition and one for the node, for every node
    that it marks; the receiver itself is not marked. *)
Theorem Print_marks_and_lines (n : Node) (visited0 : gset ptr) (out : list line) :
  Forall (λ t, is_Some (h !! T_Node t)) (Transitions n) →
  ∃ visited' lines,
    returns (λ fuel, Print fuel h n (visited0, out)) (visited', out ++ lines) ∧
    visited0 ⊆ visited' ∧ visited' ⊆ visited0 ∪ dom h ∧
    length lines = (1 + 2 * size (visited' ∖ visited0))%nat.
Proof.
  intros Hts.
  destruct (Print_returns (size (dom h ∖ visited0)) n (visited0, out) Hts)
    as [[V' out'] Hrun]; [done|].
  pose proof (Hrun _ (Nat.lt_succ_diag_r _)) as (Hsub & Hdom & lines & Hout & Hlen)%Print_lines.
  simpl in *. subst out'. exists V', lines. split; [|done].
  exists (S (size (dom h ∖ visited0))). intros fuel Hfuel. apply Hrun. lia.
Qed.
End printing.

Section printing_example.
Import dfa examples.

Lemma Print_marks_and_lines_witness :
  ∃ visited' lines,
    returns (λ fuel, Print fuel printed_arena printed_root (∅, [])) (visited', [] ++ lines) ∧
    ∅ ⊆ visited' ∧ visited' ⊆ ∅ ∪ dom printed_arena ∧
    length lines = (1 + 2 * size (visited' ∖ ∅))%nat.
Proof.
  apply (Print_marks_and_lines printed_arena).
  - apply check_well_formed_sound. vm_compute. reflexivity.
  - repeat constructor; by eexists.
Defined.
End printing_example.

Section answers_and_languages.
Import intersection.
Context `{Compiler}.

(** A run that returns an answer tells whether some word is read by
    both automata. *)
Lemma HasIntersection_run_language (R : GoRuntime) fuel expr1 expr2 k b g1 r1 g2 r2 :
  nfa_New expr1 = inl (g1, r1) → nfa_New expr2 = inl (g2, r2) →
  nfa_valid g1 r1 → nfa_valid g2 r2 →
  HasIntersection fuel expr1 expr2 k = Done (b, None) →
  b = true ↔ ∃ w, nfa_language g1 r1 w ∧ nfa_language g2 r2 w.
Proof.
  intros Hn1 Hn2 [Hc1 Hr1 Hi1] [Hc2 Hr2 Hi2] Hrun.
  rewrite (HasIntersection_common_word fuel expr1 expr2 k b g1 r1 g2 r2) by done.
  split; intros (w & Hw1 & Hw2); exists w.
  - split; by apply nfa_accepts_language.
  - split; by apply nfa_accepts_language.
Qed.

(** X16.  When both expressions pass [regexp.Compile] and [nfa.New],
    [HasIntersection] returns [true] with a [nil] error if some word
    is read by both automata on a path from the root to an accepting
    node, and [false] with a [nil] error otherwise. *)
Theorem HasIntersection_decides_common_word (R : GoRuntime)
    (expr1 expr2 : string) (k : nat) g1 r1 g2 r2 :
  regexp_Compile expr1 = None → regexp_Compile expr2 = None →
  nfa_New expr1 = inl (g1, r1) → nfa_New expr2 = inl (g2, r2) →
  nfa_valid g1 r1 → nfa_valid g2 r2 →
  ∃ b : bool,
    returns (λ fuel, HasIntersection fuel expr1 expr2 k) (b, None) ∧
    (b = true ↔ ∃ w, nfa_language g1 r1 w ∧ nfa_language g2 r2 w).
Proof.
  intros Hre1 Hre2 Hn1 Hn2 Hv1 Hv2.
  destruct (HasIntersection_returns R expr1 expr2 k g1 r1 g2 r2) as [b Hb];
    try done; try apply Hv1; try apply Hv2.
  exists b. split; [done|].
  destruct (ends_in_run _ 0%nat _ Hb) as (fuel & _ & Hrun).
  by eapply HasIntersection_run_language.
Qed.

(** X17.  [HasIntersection] of an expression with itself returns
    [true] exactly when the automaton of the expression accepts some
    word. *)
Theorem HasIntersection_self (R : GoRuntime) (expr : string) (k : nat) g r :
  regexp_Compile expr = None → nfa_New expr = inl (g, r) → nfa_valid g r →
  ∃ b : bool,
    returns (λ fuel, HasIntersection fuel expr expr k) (b, None) ∧
    (b = true ↔ ∃ w, nfa_language g r w).
Proof.
  intros Hre Hn Hv.
  destruct (HasIntersection_returns R expr expr k g r g r) as [b Hb];
    try done; try apply Hv.
  exists b. split; [done|].
  destruct (ends_in_run _ 0%nat _ Hb) as (fuel & _ & Hrun).
  rewrite (HasIntersection_run_language R fuel expr expr k b g r g r) by done. split.
  - intros (w & Hw & _). by exists w.
  - intros [w Hw]. by exists w.
Qed.

(** X18.  When every word of the automaton of [exprA] is a word of the
    automaton of [exprB] and [HasIntersection(exprA, exprC)] returns
    [true], [HasIntersection(exprB, exprC)] returns [true]. *)
Theorem HasIntersection_monotone (R R' : GoRuntime) (exprA exprB exprC : string)
    (k k' : nat) gA rA gB rB gC rC :
  regexp_Compile exprA = None → regexp_Compile exprB = None →
  regexp_Compile exprC = None →
  nfa_New exprA = inl (gA, rA) → nfa_New exprB = inl (gB, rB) →
  nfa_New exprC = inl (gC, rC) →
  nfa_valid gA rA → nfa_valid gB rB → nfa_valid gC rC →
  (∀ w, nfa_language gA rA w → nfa_language gB rB w) →
  returns (λ fuel, @HasIntersection R _ fuel exprA exprC k) (true, None) →
  returns (λ fuel, @HasIntersection R' _ fuel exprB exprC k') (true, None).
Proof.
  intros HreA HreB HreC HnA HnB HnC HvA HvB HvC Hsub Hac.
  destruct (HasIntersection_returns R' exprB exprC k' gB rB gC rC) as [b Hb];
    try done; try apply HvB; try apply HvC.
  destruct (ends_in_run _ 0%nat _ Hb) as (fuel' & _ & Hrun').
  apply (HasIntersection_run_language R' _ _ _ _ _ gB rB gC rC) in Hrun' as Hlang;
    try done.
  destruct (ends_in_run _ 0%nat _ Hac) as (fuel & _ & Hrun).
  apply (HasIntersection_run_language R _ _ _ _ _ gA rA gC rC) in Hrun; try done.
  destruct Hrun as [Hw _]. destruct (Hw eq_refl) as (w & HwA & HwC).
  assert (b = true) as ->; [|done].
  apply Hlang. exists w. auto.
Qed.
End answers_and_languages.

Section answers_and_languages_examples.
Import intersection examples.

Lemma HasIntersection_decides_common_word_witness :
  ∃ b : bool,
    returns (λ fuel, @HasIntersection runtime_forward toy_compiler
                       fuel "a*b" "[a-c]" 0%nat) (b, None) ∧
    (b = true ↔ ∃ w, nfa_language nfa_a_star_b 0%nat w ∧ nfa_language nfa_a_to_c 0%nat w).
Proof.
  apply (@HasIntersection_decides_common_word toy_compiler runtime_forward
           "a*b" "[a-c]" 0%nat nfa_a_star_b 0%nat nfa_a_to_c 0%nat);
    [reflexivity|reflexivity|reflexivity|reflexivity| |].
  - apply nfa_a_star_b_valid.
  - apply nfa_a_to_c_valid.
Defined.

Lemma HasIntersection_self_witness :
  ∃ b : bool,
    returns (λ fuel, @HasIntersection runtime_backward toy_compiler
                       fuel "a*b" "a*b" 0%nat) (b, None) ∧
    (b = true ↔ ∃ w, nfa_language nfa_a_star_b 0%nat w).
Proof.
  apply (@HasIntersection_self toy_compiler runtime_backward "a*b" 0%nat
           nfa_a_star_b 0%nat); [reflexivity|reflexivity|].
  apply nfa_a_star_b_valid.
Defined.

Lemma word_b_a_to_c : nfa_language nfa_a_to_c 0%nat [98].
Proof.
  exists 1%nat. eexists. split; [|split; [reflexivity|reflexivity]].
  exists 0%nat, 1%nat. split; [done|]. split; [|simpl; done].
  eexists _, _. split; [reflexivity|]. split; [by left|]. split; [|reflexivity].
  exists 97, 99. split; [by left|lia].
Qed.

Lemma word_b_a_star_b : nfa_language nfa_a_star_b 0%nat [98].
Proof.
  exists 3%nat. eexists. split; [|split; [reflexivity|reflexivity]].
  exists 2%nat, 3%nat. split; [|split; [|simpl; done]].
  - apply rtc_once. eexists _, _. split; [reflexivity|].
    split; [right; by left|]. by split.
  - eexists _, _. split; [reflexivity|]. split; [by left|]. split; [|reflexivity].
    exists 98, 98. split; [by left|lia].
Qed.

Lemma a_to_c_returns_true :
  returns (λ fuel, @HasIntersection runtime_forward toy_compiler
                     fuel "[a-c]" "a*b" 0%nat) (true, None).
Proof.
  destruct (@HasIntersection_returns toy_compiler runtime_forward "[a-c]" "a*b" 0%nat
              nfa_a_to_c 0%nat nfa_a_star_b 0%nat) as [b Hb];
    try reflexivity; try apply nfa_a_to_c_valid; try apply nfa_a_star_b_valid.
  destruct (ends_in_run _ 0%nat _ Hb) as (fuel & _ & Hrun).
  apply (@HasIntersection_run_language toy_compiler runtime_forward _ _ _ _ _
           nfa_a_to_c 0%nat nfa_a_star_b 0%nat) in Hrun as Hlang;
    try reflexivity; try apply nfa_a_to_c_valid; try apply nfa_a_star_b_valid.
  assert (b = true) as ->; [|done].
  apply Hlang. exists [98]. split; [apply word_b_a_to_c|apply word_b_a_star_b].
Qed.

Lemma HasIntersection_monotone_witness :
  returns (λ fuel, @HasIntersection runtime_backward toy_compiler
                     fuel "[a-c]" "a*b" 5%nat) (true, None).
Proof.
  apply (@HasIntersection_monotone toy_compiler runtime_forward runtime_backward
           "[a-c]" "[a-c]" "a*b" 0%nat 5%nat
           nfa_a_to_c 0%nat nfa_a_to_c 0%nat nfa_a_star_b 0%nat);
    try reflexivity; try apply nfa_a_to_c_valid; try apply nfa_a_star_b_valid.
  - by intros w Hw.
  - apply a_to_c_returns_true.
Defined.
End answers_and_languages_examples.

Section overlap_entries.
Import runerange intersection.

(** X19.  On transitions with sorted disjoint range lists
    [findOverlapRanges] returns one entry for every pair of a transition
    of the first list and a transition of the second that share a
    character, and none for the other pairs; the range list of the
    entry holds exactly the characters that the two transitions share,
    and the entry names the targets of the two transitions. *)
Theorem findOverlapRanges_entries (trans1 trans2 : list dfa.T) :
  Forall (λ t, sorted_disjoint (dfa.RuneRanges t)) trans1 →
  Forall (λ t, sorted_disjoint (dfa.RuneRanges t)) trans2 →
  ∃ rs, findOverlapRanges trans1 trans2 = Done rs ∧
    ∀ r, r ∈ rs ↔
         ∃ t1 t2, t1 ∈ trans1 ∧ t2 ∈ trans2 ∧
           (∃ c, covers (dfa.RuneRanges t1) c ∧ covers (dfa.RuneRanges t2) c) ∧
           findOverlap (dfa.RuneRanges t1) (dfa.RuneRanges t2) = Done (Range r) ∧
           sorted_disjoint (Range r) ∧
           (∀ c, covers (Range r) c ↔
                 covers (dfa.RuneRanges t1) c ∧ covers (dfa.RuneRanges t2) c) ∧
           RI_Node1 r = dfa.T_Node t1 ∧ RI_Node2 r = dfa.T_Node t2.
Proof.
  intros Hs1 Hs2.
  destruct (findOverlapRanges_Done trans1 trans2) as [rs Hrs].
  { eapply Forall_impl; [exact Hs1|]. intros ?. apply sorted_disjoint_paired. }
  { eapply Forall_impl; [exact Hs2|]. intros ?. apply sorted_disjoint_paired. }
  exists rs. split; [done|]. intros r.
  rewrite (findOverlapRanges_elem _ _ _ _ Hrs).
  rewrite Forall_forall in Hs1, Hs2. split.
  - intros (t1 & t2 & ov & Ht1 & Ht2 & Hov%Overlaps_spec & Hfo & ->).
    exists t1, t2. do 3 (split; [done|]). simpl. split; [done|].
    destruct (findOverlap_covers _ _ (Hs1 _ Ht1) (Hs2 _ Ht2)) as (ov' & Hfo' & Hsd & Hcov).
    rewrite Hfo in Hfo'. injection Hfo' as <-. done.
  - intros (t1 & t2 & Ht1 & Ht2 & Hov%Overlaps_spec & Hfo & _ & _ & Hn1 & Hn2).
    exists t1, t2, (Range r). do 4 (split; [done|]).
    destruct r. simpl in *. by subst.
Qed.

Lemma findOverlapRanges_entries_witness :
  ∃ rs, findOverlapRanges (dfa.Transitions examples.example_node)
                          (dfa.Transitions examples.example_node) = Done rs ∧
    ∀ r, r ∈ rs ↔
         ∃ t1 t2, t1 ∈ dfa.Transitions examples.example_node ∧
           t2 ∈ dfa.Transitions examples.example_node ∧
           (∃ c, covers (dfa.RuneRanges t1) c ∧ covers (dfa.RuneRanges t2) c) ∧
           findOverlap (dfa.RuneRanges t1) (dfa.RuneRanges t2) = Done (Range r) ∧
           sorted_disjoint (Range r) ∧
           (∀ c, covers (Range r) c ↔
                 covers (dfa.RuneRanges t1) c ∧ covers (dfa.RuneRanges t2) c) ∧
           RI_Node1 r = dfa.T_Node t1 ∧ RI_Node2 r = dfa.T_Node t2.
Proof.
  apply (findOverlapRanges_entries (dfa.Transitions examples.example_node)
           (dfa.Transitions examples.example_node));
    repeat constructor; simpl; lia.
Defined.
End overlap_entries.
